(** * go-interview-preparation: a shallow embedding of the demo programs

    Each Go file of the repository is an independent [main] program.  The
    modules below follow that layout: one module per source file, holding
    the data types of the file, its functions as Rocq functions, and the
    properties proved about them.

    Conventions used throughout:
    - Go's [int] is a 64-bit two's-complement integer.  It is carried as a
      [Z]; wherever the source does arithmetic on it the wrap-around is
      written out with [wrap64].
    - A pointer [*T] that is only ever read is carried as [option T]
      ([None] is [nil]).  Where the source writes through a pointer that is
      reachable from somewhere else, the heap is modelled explicitly.
    - [time.Time] values are carried as a [Z] number of nanoseconds on the
      monotonic clock; every clock reading is an input of the model. *)

From Stdlib Require Import ZArith Floats Lia Ascii.
From stdpp Require Import gmap gmultiset strings list list_numbers fin_maps sorting pretty.

Local Open Scope Z_scope.

(** Go's [int] on a 64-bit platform. *)
Definition wrap64 (z : Z) : Z := (z + 2 ^ 63) mod 2 ^ 64 - 2 ^ 63.

Definition MaxInt : Z := 2 ^ 63 - 1.
Definition MinInt : Z := - 2 ^ 63.

Lemma wrap64_id z : MinInt <= z <= MaxInt -> wrap64 z = z.
Proof.
  unfold wrap64, MinInt, MaxInt. intros H.
  rewrite Z.mod_small; lia.
Qed.

Lemma wrap64_range z : MinInt <= wrap64 z <= MaxInt.
Proof.
  unfold wrap64, MinInt, MaxInt.
  pose proof (Z.mod_pos_bound (z + 2 ^ 63) (2 ^ 64) ltac:(lia)). lia.
Qed.

(** ** The linked-list stack (data-structures/link-list/main.go) *)
Module LinkedStack.

(** [type Node struct { val int; next *Node }].  The stack never writes to
    a node after it has built it, so a node is an immutable value. *)
#[local] Unset Elimination Schemes.
Inductive Node : Type := mkNode (val : Z) (next : option Node).
#[local] Set Elimination Schemes.

Definition val (n : Node) : Z := match n with mkNode v _ => v end.
Definition next (n : Node) : option Node := match n with mkNode _ p => p end.

(** [type Stack struct { top *Node }] *)
Record Stack : Type := mkStack { top : option Node }.

(** [new(Stack)] *)
Definition newStack : Stack := {| top := None |}.

(** Each method takes the receiver's state and returns the new state next
    to its result. *)
Definition push (x : Z) (s : Stack) : Stack :=
  let newNode := mkNode x (top s) in
  {| top := Some newNode |}.

Definition pop (s : Stack) : Z * Stack :=
  match top s with
  | None => (0, s)
  | Some n => (val n, {| top := next n |})
  end.

Definition topNode (s : Stack) : Z :=
  match top s with
  | None => 0
  | Some n => val n
  end.

Definition isEmpty (s : Stack) : bool :=
  match top s with
  | None => true
  | Some _ => false
  end.

(** The values held by a stack, top first. *)
Fixpoint chain_values (fuel : nat) (p : option Node) : list Z :=
  match fuel, p with
  | S f, Some (mkNode v q) => v :: chain_values f q
  | _, _ => []
  end.

Example main_prints :
  let s := push 29 (push 45 (push 23 (push 7 (push 5 (push 3 newStack))))) in
  chain_values 10 (top s) = [29; 45; 23; 7; 5; 3].
Proof. reflexivity. Qed.

Lemma pop_push x s : pop (push x s) = (x, s).
Proof. destruct s as [t]. reflexivity. Qed.

Lemma topNode_push x s : topNode (push x s) = x.
Proof. reflexivity. Qed.

Lemma isEmpty_push x s : isEmpty (push x s) = false.
Proof. reflexivity. Qed.

(** C6: the stack is LIFO.  After [push x] on any stack [s], [topNode]
    returns [x] and [pop] returns [x] and gives [s] back; on the empty
    stack ([top == nil]) both [pop] and [topNode] return 0 and the stack
    stays empty. *)
Theorem stack_lifo :
  forall (s : Stack) (x : Z),
    topNode (push x s) = x /\
    pop (push x s) = (x, s) /\
    pop {| top := None |} = (0, {| top := None |}) /\
    topNode {| top := None |} = 0 /\
    isEmpty (snd (pop {| top := None |})) = true.
Proof.
  intros s x. repeat split.
  apply pop_push.
Qed.

(** *** The printing loop of [main] *)

(** [for !s.isEmpty() { fmt.Println(s.top.val); s.pop() }]: the values
    printed and the stack left.  [None] stands for a nil dereference or a
    loop that has not ended within [fuel] iterations. *)
Fixpoint print_all (fuel : nat) (s : Stack) : option (list Z * Stack) :=
  match fuel with
  | O => None
  | S fuel =>
      if negb (isEmpty s) then
        match top s with
        | None => None
        | Some n =>
            r ← print_all fuel (pop s).2;
            Some (val n :: r.1, r.2)
        end
      else Some ([], s)
  end.

(** [s.push(x)] for each [x] of [xs] in turn. *)
Definition push_all (xs : list Z) (s : Stack) : Stack :=
  foldl (λ s x, push x s) s xs.

Lemma push_all_snoc xs x s : push_all (xs ++ [x]) s = push x (push_all xs s).
Proof. unfold push_all. by rewrite foldl_snoc. Qed.

Lemma print_all_push fuel x s r :
  print_all fuel s = Some r → print_all (S fuel) (push x s) = Some (x :: r.1, r.2).
Proof.
  intros Hr. simpl. destruct s as [t]. unfold pop. simpl. by rewrite Hr.
Qed.

(** X1: whatever values are pushed on a new stack, the printing loop of
    [main] prints them last pushed first, ends after one iteration per
    value (any larger budget gives the same), and leaves the stack
    empty. *)
Theorem print_all_reverses :
  ∀ (xs : list Z) (k : nat),
    print_all (S (length xs) + k) (push_all xs newStack) = Some (rev xs, newStack).
Proof.
  intros xs k. induction xs as [|x xs IH] using rev_ind.
  - reflexivity.
  - rewrite push_all_snoc, rev_unit, length_app. simpl length.
    replace (S (length xs + 1) + k)%nat with (S (S (length xs) + k)) by lia.
    by rewrite (print_all_push _ x _ _ IH).
Qed.

End LinkedStack.

(** ** The linked-list queue (data-structures/link-list/linked-list/main.go,
    second program) *)
Module LinkedQueue.

(** [addElement] writes [q.rear.next] while the same node is reachable from
    [q.front], so nodes live in a heap and pointers are locations. *)
Definition loc : Type := nat.

(** [type Node struct { val int; next *Node }] *)
Record Node : Type := mkNode { val : Z; next : option loc }.

(** [type Queue struct { front *Node; rear *Node }], together with the
    nodes allocated so far. *)
Record Queue : Type := mkQueue {
  heap : gmap loc Node;
  front : option loc;
  rear : option loc
}.

(** [new(Queue)] *)
Definition newQueue : Queue := {| heap := ∅; front := None; rear := None |}.

(** [&Node{...}] returns an address that no live node has. *)
Definition alloc (h : gmap loc Node) : loc := fresh (dom h).

(** Dereferencing goes through the heap.  Go has no dangling pointers; the
    [None] result of the methods stands for a pointer to no node, and the
    theorems below show it never arises. *)
Definition addElement (x : Z) (q : Queue) : option Queue :=
  let l := alloc (heap q) in
  let h := <[l := mkNode x None]> (heap q) in
  match rear q with
  | None => Some {| heap := h; front := Some l; rear := Some l |}
  | Some r =>
      n ← h !! r;
      Some {| heap := <[r := mkNode (val n) (Some l)]> h;
              front := front q;
              rear := Some l |}
  end.

Definition removeElement (q : Queue) : option (Z * Queue) :=
  match front q with
  | None => Some (0, q)
  | Some f =>
      n ← heap q !! f;
      let front' := next n in
      Some (val n,
            {| heap := heap q;
               front := front';
               rear := match front' with None => None | Some _ => rear q end |})
  end.

Definition peek (q : Queue) : option (Z * bool) :=
  match front q with
  | None => Some (0, false)
  | Some f => n ← heap q !! f; Some (val n, true)
  end.

Definition isEmpty (q : Queue) : bool :=
  match front q with None => true | Some _ => false end.

(** [display]: the values met walking [next] from [front]. *)
Fixpoint walk (fuel : nat) (h : gmap loc Node) (p : option loc) : list Z :=
  match fuel, p with
  | S f, Some l =>
      match h !! l with
      | Some n => val n :: walk f h (next n)
      | None => []
      end
  | _, _ => []
  end.

Definition display (q : Queue) : list Z := walk (size (heap q)) (heap q) (front q).

(** A sequence of calls on one queue, and the values its [removeElement]
    calls return. *)
Inductive op : Type := Add (x : Z) | Remove.

Fixpoint run (ops : list op) (q : Queue) : option (list Z * Queue) :=
  match ops with
  | [] => Some ([], q)
  | Add x :: ops' => q' ← addElement x q; run ops' q'
  | Remove :: ops' =>
      r ← removeElement q;
      r' ← run ops' r.2;
      Some (r.1 :: r'.1, r'.2)
  end.

(** The reference: a first-in first-out list of values. *)
Fixpoint fifo (ops : list op) (vs : list Z) : list Z * list Z :=
  match ops with
  | [] => ([], vs)
  | Add x :: ops' => fifo ops' (vs ++ [x])
  | Remove :: ops' =>
      let r := fifo ops' (tail vs) in
      (hd 0 vs :: r.1, r.2)
  end.

(** [lseg h p ls vs]: starting at [p] and following [next], the nodes met
    are exactly [ls], they hold [vs], and the last one has a nil [next]. *)
Fixpoint lseg (h : gmap loc Node) (p : option loc) (ls : list loc) (vs : list Z) : Prop :=
  match ls, vs with
  | [], [] => p = None
  | l :: ls', v :: vs' => p = Some l ∧ ∃ nx, h !! l = Some (mkNode v nx) ∧ lseg h nx ls' vs'
  | _, _ => False
  end.

(** The representation invariant: [front] heads a chain holding [vs],
    [rear] is the last node of that chain (nil for the empty chain), and
    the chain has no repeated node. *)
Definition queue_inv (q : Queue) (vs : list Z) : Prop :=
  ∃ ls, lseg (heap q) (front q) ls vs ∧ rear q = last ls ∧ NoDup ls.

Example main_run :
  (run [Add 23; Add 1; Remove; Remove; Add 32] newQueue) ≫= (λ r, Some (r.1, display r.2))
  = Some ([23; 1], [32]).
Proof. vm_compute. reflexivity. Qed.

Lemma lseg_length h p ls vs : lseg h p ls vs → length ls = length vs.
Proof.
  revert p vs. induction ls as [|l ls IH]; intros p [|v vs]; simpl; try done.
  intros (_ & nx & _ & H). f_equal. eauto.
Qed.

Lemma lseg_allocated h p ls vs l : lseg h p ls vs → l ∈ ls → is_Some (h !! l).
Proof.
  revert p vs. induction ls as [|l0 ls IH]; intros p [|v vs]; simpl; try done.
  - intros _ H. by apply elem_of_nil in H.
  - intros (_ & nx & Hl & Hrest) [->|Hin]%elem_of_cons; eauto.
Qed.

(** A chain only depends on the nodes it goes through. *)
Lemma lseg_agree h h' p ls vs :
  (∀ l, l ∈ ls → h' !! l = h !! l) → lseg h p ls vs → lseg h' p ls vs.
Proof.
  revert p vs. induction ls as [|l ls IH]; intros p [|v vs] Hag; simpl; try done.
  intros (-> & nx & Hl & Hrest). split; [done|]. exists nx. split.
  - rewrite Hag; [done|]. apply elem_of_cons; by left.
  - apply IH; [|done]. intros l' Hin. apply Hag, elem_of_cons; by right.
Qed.

(** Linking a fresh node behind the last node of a chain extends the chain
    by that node. *)
Lemma lseg_link h p ls r vs l' x :
  NoDup (ls ++ [r]) → l' ∉ ls ++ [r] →
  lseg h p (ls ++ [r]) vs →
  ∃ v, h !! r = Some (mkNode v None) ∧
       lseg (<[r := mkNode v (Some l')]> (<[l' := mkNode x None]> h))
            p (ls ++ [r; l']) (vs ++ [x]).
Proof.
  revert p vs. induction ls as [|l ls IH]; intros p vs Hnd Hfresh.
  - destruct vs as [|v [|v' vs]]; simpl; try done.
    + intros (-> & nx & Hr & ->). exists v. split; [done|].
      assert (l' ≠ r) by (intros ->; apply Hfresh; simpl; apply elem_of_cons; by left).
      split; [done|]. exists (Some l'). rewrite lookup_insert_eq. split; [done|].
      split; [done|]. exists None.
      rewrite lookup_insert_ne by done. by rewrite lookup_insert_eq.
    + intros (_ & nx & _ & []).
  - destruct vs as [|v vs]; simpl; [done|].
    intros (-> & nx & Hl & Hrest).
    simpl in Hnd. apply NoDup_cons in Hnd as [Hl_notin Hnd].
    assert ((l' ∉ ls ++ [r]) ∧ l' ≠ l) as [Hfresh' Hne].
    { split; [intros ?|intros ->]; apply Hfresh; simpl; apply elem_of_cons; auto. }
    destruct (IH nx vs Hnd Hfresh' Hrest) as (v0 & Hr & Hseg).
    exists v0. split; [done|]. split; [done|]. exists nx. split; [|done].
    assert (l ≠ r) by (intros ->; apply Hl_notin, elem_of_app; right; apply elem_of_cons; by left).
    rewrite !lookup_insert_ne by done. done.
Qed.

Lemma snoc_two {A} (l : list A) a b : l ++ [a; b] = (l ++ [a]) ++ [b].
Proof. by rewrite <- app_assoc. Qed.

Lemma alloc_fresh (h : gmap loc Node) : h !! alloc h = None.
Proof. apply not_elem_of_dom. unfold alloc. apply is_fresh. Qed.

Lemma addElement_inv x q vs :
  queue_inv q vs → ∃ q', addElement x q = Some q' ∧ queue_inv q' (vs ++ [x]).
Proof.
  intros (ls & Hseg & Hrear & Hnd). unfold addElement.
  pose proof (alloc_fresh (heap q)) as Hfresh.
  set (l' := alloc (heap q)) in *.
  assert (l' ∉ ls) as Hnotin.
  { intros Hin. destruct (lseg_allocated _ _ _ _ _ Hseg Hin) as [n Hn]. congruence. }
  destruct ls as [|l0 ls0 _] using rev_ind.
  - (* empty queue *)
    destruct vs; simpl in Hseg; [|done]. simpl in Hrear. rewrite Hrear.
    eexists; split; [done|]. exists [l']. simpl. repeat split.
    + exists None. by rewrite lookup_insert_eq.
    + apply NoDup_singleton.
  - rewrite last_snoc in Hrear. rewrite Hrear.
    destruct (lseg_link _ _ _ _ _ l' x Hnd Hnotin Hseg) as (v & Hr & Hseg').
    assert (l' ≠ l0).
    { intros ->. apply Hnotin, elem_of_app; right; apply elem_of_cons; by left. }
    rewrite lookup_insert_ne by done. rewrite Hr. simpl.
    eexists; split; [done|]. exists (ls0 ++ [l0; l']). simpl. repeat split.
    + done.
    + by rewrite snoc_two, last_snoc.
    + rewrite snoc_two. apply NoDup_app. repeat split.
      * done.
      * intros y Hy Hy'. apply list_elem_of_singleton in Hy' as ->. done.
      * apply NoDup_singleton.
Qed.

Lemma removeElement_inv q vs :
  queue_inv q vs →
  ∃ q', removeElement q = Some (hd 0 vs, q') ∧ queue_inv q' (tail vs) ∧
        (vs = [] → q' = q).
Proof.
  intros (ls & Hseg & Hrear & Hnd). unfold removeElement.
  destruct ls as [|l ls], vs as [|v vs]; simpl in Hseg; try done.
  - rewrite Hseg. eexists; split; [done|]. split; [|done].
    exists []. by rewrite Hseg.
  - destruct Hseg as (-> & nx & Hl & Hrest). rewrite Hl. simpl.
    eexists; split; [done|]. split; [|done].
    exists ls. simpl. apply NoDup_cons in Hnd as [_ Hnd]. repeat split; [done| |done].
    destruct ls as [|l1 ls], vs as [|v1 vs]; simpl in Hrest; try done.
    + by rewrite Hrest.
    + destruct Hrest as (-> & _). rewrite Hrear. done.
Qed.

Lemma queue_inv_nil_iff q vs :
  queue_inv q vs → (front q = None ↔ rear q = None) ∧ (front q = None ↔ vs = []).
Proof.
  intros (ls & Hseg & Hrear & _).
  destruct ls as [|l ls _] using rev_ind.
  - destruct vs; simpl in Hseg; [|done]. simpl in Hrear. by rewrite Hseg, Hrear.
  - rewrite last_snoc in Hrear. rewrite Hrear.
    pose proof (lseg_length _ _ _ _ Hseg) as Hlen. rewrite length_app in Hlen. simpl in Hlen.
    destruct vs as [|v vs]; [simpl in Hlen; lia|].
    destruct ls; simpl in Hseg; destruct Hseg as (-> & _); split; split; done.
Qed.

Lemma newQueue_inv : queue_inv newQueue [].
Proof. exists []. simpl. repeat split. apply NoDup_nil_2. Qed.

(** Any sequence of calls behaves as the first-in first-out list does. *)
Lemma run_refines ops : ∀ q vs,
  queue_inv q vs →
  ∃ q', run ops q = Some ((fifo ops vs).1, q') ∧ queue_inv q' (fifo ops vs).2.
Proof.
  induction ops as [|[x|] ops IH]; intros q vs Hinv; simpl.
  - eauto.
  - destruct (addElement_inv x q vs Hinv) as (q1 & -> & Hinv1). simpl. eauto.
  - destruct (removeElement_inv q vs Hinv) as (q1 & -> & Hinv1 & _). simpl.
    destruct (IH q1 (tail vs) Hinv1) as (q2 & -> & Hinv2). simpl. eauto.
Qed.

(** C7: every sequence of [addElement] and [removeElement] calls on the
    empty queue runs without a nil dereference and keeps the invariant:
    [front == nil] exactly when [rear == nil], and [rear] is the last node
    of the chain from [front].  The removed values are those of a FIFO
    list; removing the only remaining element sets [rear] (and [front]) to
    nil; removing from the empty queue returns 0 and changes nothing. *)
Theorem queue_fifo_invariant :
  ∀ ops : list op,
    ∃ q, run ops newQueue = Some ((fifo ops []).1, q) ∧
         (front q = None ↔ rear q = None) ∧
         (∃ ls, lseg (heap q) (front q) ls (fifo ops []).2 ∧ rear q = last ls) ∧
         (∀ v, (fifo ops []).2 = [v] →
               ∃ q', removeElement q = Some (v, q') ∧ front q' = None ∧ rear q' = None) ∧
         ((fifo ops []).2 = [] →
               removeElement q = Some (0, q) ∧ front q = None ∧ rear q = None).
Proof.
  intros ops.
  destruct (run_refines ops newQueue [] newQueue_inv) as (q & Hrun & Hinv).
  exists q. split; [done|].
  destruct (queue_inv_nil_iff _ _ Hinv) as [Hfr Hfv].
  split; [done|]. split.
  { destruct Hinv as (ls & ? & ? & _). eauto. }
  destruct (removeElement_inv _ _ Hinv) as (q' & Hrem & Hinv' & Hsame).
  split.
  - intros v Hv. rewrite Hv in *. simpl in *. exists q'. split; [done|].
    destruct (queue_inv_nil_iff _ _ Hinv') as [Hfr' Hfv'].
    assert (front q' = None) by by apply Hfv'.
    split; [done|]. by apply Hfr'.
  - intros Hnil. rewrite Hnil in *. simpl in *. rewrite (Hsame eq_refl) in Hrem.
    split; [done|]. assert (front q = None) by by apply Hfv.
    split; [done|]. by apply Hfr.
Qed.

(** *** peek, isEmpty and display *)

(** [for curr := q.front; curr != nil; curr = curr.next]: the values
    printed.  [None] stands for a pointer to no node or a loop that has not
    ended within [fuel] iterations. *)
Fixpoint traverse (fuel : nat) (h : gmap loc Node) (p : option loc) : option (list Z) :=
  match p with
  | None => Some []
  | Some l =>
      match fuel with
      | O => None
      | S fuel => n ← h !! l; (λ vs, val n :: vs) <$> traverse fuel h (next n)
      end
  end.

Lemma traverse_lseg h : ∀ ls p vs k,
  lseg h p ls vs → traverse (length vs + k) h p = Some vs.
Proof.
  induction ls as [|l ls IH]; intros p [|v vs] k; simpl; try done.
  - intros ->. by destruct k.
  - intros (-> & nx & Hl & Hrest). rewrite Hl. simpl.
    by rewrite (IH nx vs k Hrest).
Qed.

Lemma peek_inv q vs :
  queue_inv q vs → peek q = Some (hd 0 vs, bool_decide (vs ≠ [])) ∧
                   (isEmpty q = true ↔ vs = []).
Proof.
  intros (ls & Hseg & _). unfold peek, isEmpty.
  destruct ls as [|l ls], vs as [|v vs]; simpl in Hseg; try done.
  - by rewrite Hseg.
  - destruct Hseg as (-> & nx & -> & _). done.
Qed.

(** X2: after any sequence of [addElement] and [removeElement] calls on a
    new queue, [peek] returns the oldest value still queued with [true], or
    0 with [false] when nothing is queued, and [isEmpty] says whether
    nothing is queued. *)
Theorem peek_is_fifo_head :
  ∀ ops : list op,
    ∃ q, run ops newQueue = Some ((fifo ops []).1, q) ∧
         peek q = Some (hd 0 (fifo ops []).2, bool_decide ((fifo ops []).2 ≠ [])) ∧
         (isEmpty q = true ↔ (fifo ops []).2 = []).
Proof.
  intros ops.
  destruct (run_refines ops newQueue [] newQueue_inv) as (q & Hrun & Hinv).
  exists q. split; [done|]. by apply peek_inv.
Qed.

(** X3: after any sequence of calls on a new queue, the loop of [display]
    ends (one iteration per queued value) and prints the queued values
    oldest first. *)
Theorem display_in_insertion_order :
  ∀ (ops : list op) (k : nat),
    ∃ q, run ops newQueue = Some ((fifo ops []).1, q) ∧
         traverse (length (fifo ops []).2 + k) (heap q) (front q) = Some (fifo ops []).2.
Proof.
  intros ops k.
  destruct (run_refines ops newQueue [] newQueue_inv) as (q & Hrun & ls & Hseg & _).
  exists q. split; [done|]. by eapply traverse_lseg.
Qed.

End LinkedQueue.

(** ** The singly linked list (the linked-list demo) *)
Module LinkedList.

(** [type LinkList struct { head *Node }], with the nodes allocated so
    far; nodes and locations are those of the queue. *)
Record LinkList : Type := mkLinkList {
  nodes : gmap LinkedQueue.loc LinkedQueue.Node;
  head : option LinkedQueue.loc
}.

(** [new(LinkList)] *)
Definition newLinkList : LinkList := {| nodes := ∅; head := None |}.

(** [for current.next != nil { current = current.next }]: the node the
    loop stops at; [None] for a pointer to no node or a loop that has not
    ended within [fuel] tests. *)
Fixpoint last_node (fuel : nat) (h : gmap LinkedQueue.loc LinkedQueue.Node)
    (current : LinkedQueue.loc) : option LinkedQueue.loc :=
  match fuel with
  | O => None
  | S fuel =>
      n ← h !! current;
      match LinkedQueue.next n with
      | None => Some current
      | Some nx => last_node fuel h nx
      end
  end.

Definition addElement (fuel : nat) (val : Z) (ll : LinkList) : option LinkList :=
  let newNode := LinkedQueue.alloc (nodes ll) in
  let h := <[newNode := LinkedQueue.mkNode val None]> (nodes ll) in
  match head ll with
  | None => Some {| nodes := h; head := Some newNode |}
  | Some hd =>
      current ← last_node fuel h hd;
      n ← h !! current;
      Some {| nodes := <[current := LinkedQueue.mkNode (LinkedQueue.val n) (Some newNode)]> h;
              head := head ll |}
  end.

(** The values [display] prints. *)
Definition display (fuel : nat) (ll : LinkList) : option (list Z) :=
  LinkedQueue.traverse fuel (nodes ll) (head ll).

(** [addElement] called with each value of [xs] in turn. *)
Fixpoint add_all (fuel : nat) (xs : list Z) (ll : LinkList) : option LinkList :=
  match xs with
  | [] => Some ll
  | x :: xs' => ll' ← addElement fuel x ll; add_all fuel xs' ll'
  end.

(** [head] starts a chain without repeated nodes that holds [vs]. *)
Definition list_inv (ll : LinkList) (vs : list Z) : Prop :=
  ∃ ls, LinkedQueue.lseg (nodes ll) (head ll) ls vs ∧ NoDup ls.

Example main_display :
  add_all 5 [2; 4; 45; 3; 23] newLinkList ≫= display 5 = Some [2; 4; 45; 3; 23].
Proof. vm_compute. reflexivity. Qed.

Lemma last_node_lseg h : ∀ ls r l0 vs k,
  LinkedQueue.lseg h (Some l0) (ls ++ [r]) vs →
  last_node (S (length ls) + k) h l0 = Some r.
Proof.
  induction ls as [|l ls IH]; intros r l0 vs k Hseg.
  - destruct vs as [|v [|v' vs]]; simpl in Hseg; try done.
    + destruct Hseg as ([= ->] & nx & Hr & ->). simpl. by rewrite Hr.
    + by destruct Hseg as (_ & nx & _ & ?).
  - destruct vs as [|v vs]; simpl in Hseg; [done|].
    destruct Hseg as ([= ->] & nx & Hl & Hrest).
    change (last_node (S (length (l :: ls)) + k) h l)
      with (n ← h !! l;
            match LinkedQueue.next n with
            | None => Some l
            | Some nx => last_node (S (length ls) + k) h nx
            end).
    rewrite Hl. simpl.
    destruct nx as [l1|].
    + by apply (IH r l1 vs k).
    + destruct ls, vs; simpl in Hrest; by destruct Hrest.
Qed.

(** With fewer loop tests than the chain has nodes the walk does not
    reach the last node. *)
Lemma last_node_short h : ∀ ls l0 vs fuel,
  LinkedQueue.lseg h (Some l0) ls vs → (fuel < length ls)%nat →
  last_node fuel h l0 = None.
Proof.
  induction ls as [|l ls IH]; intros l0 vs fuel Hseg Hfuel; [simpl in Hfuel; lia|].
  destruct fuel as [|fuel]; [done|].
  destruct vs as [|v vs]; simpl in Hseg; [done|].
  destruct Hseg as ([= ->] & nx & Hl & Hrest). simpl. rewrite Hl. simpl.
  destruct nx as [l1|].
  - apply (IH l1 vs fuel Hrest). simpl in Hfuel. lia.
  - destruct ls, vs; simpl in Hrest; try (by destruct Hrest); simpl in Hfuel; lia.
Qed.

Lemma fresh_not_in_chain (ll : LinkList) ls vs :
  LinkedQueue.lseg (nodes ll) (head ll) ls vs → LinkedQueue.alloc (nodes ll) ∉ ls.
Proof.
  intros Hseg Hin.
  destruct (LinkedQueue.lseg_allocated _ _ _ _ _ Hseg Hin) as [n Hn].
  pose proof (LinkedQueue.alloc_fresh (nodes ll)). congruence.
Qed.

Lemma append_inv fuel x ll vs :
  list_inv ll vs → (length vs <= fuel)%nat →
  ∃ ll', addElement fuel x ll = Some ll' ∧ list_inv ll' (vs ++ [x]).
Proof.
  intros (ls & Hseg & Hnd) Hfuel. unfold addElement.
  pose proof (fresh_not_in_chain ll ls vs Hseg) as Hnotin.
  set (l' := LinkedQueue.alloc (nodes ll)) in *.
  pose proof (LinkedQueue.lseg_length _ _ _ _ Hseg) as Hlen.
  destruct ls as [|r ls0 _] using rev_ind.
  - destruct vs; simpl in Hseg; [|done]. rewrite Hseg.
    eexists; split; [done|]. exists [l']. simpl. split.
    + split; [done|]. exists None. by rewrite lookup_insert_eq.
    + apply NoDup_singleton.
  - destruct (head ll) as [hd|] eqn:Hhead.
    2:{ destruct ls0, vs; simpl in Hseg; by destruct Hseg. }
    assert (LinkedQueue.lseg (<[l' := LinkedQueue.mkNode x None]> (nodes ll))
              (Some hd) (ls0 ++ [r]) vs) as Hseg1.
    { apply (LinkedQueue.lseg_agree (nodes ll)); [|done].
      intros l Hin. rewrite lookup_insert_ne; [done|]. by intros <-. }
    rewrite length_app in Hlen. simpl in Hlen.
    replace fuel with (S (length ls0) + (fuel - S (length ls0)))%nat by lia.
    rewrite (last_node_lseg _ _ _ _ _ _ Hseg1). simpl.
    destruct (LinkedQueue.lseg_link _ _ _ _ _ l' x Hnd Hnotin Hseg) as (v & Hr & Hseg').
    assert (l' ≠ r).
    { intros ->. apply Hnotin, elem_of_app; right; apply elem_of_cons; by left. }
    rewrite lookup_insert_ne by done. rewrite Hr. simpl.
    eexists; split; [done|]. exists (ls0 ++ [r; l']). simpl. split; [done|].
    rewrite LinkedQueue.snoc_two. apply NoDup_app. repeat split.
    + done.
    + intros y Hy Hy'. apply list_elem_of_singleton in Hy' as ->. done.
    + apply NoDup_singleton.
Qed.

Lemma add_all_inv fuel xs : ∀ ll vs,
  list_inv ll vs → (length vs + length xs <= fuel)%nat →
  ∃ ll', add_all fuel xs ll = Some ll' ∧ list_inv ll' (vs ++ xs).
Proof.
  induction xs as [|x xs IH]; intros ll vs Hinv Hfuel; simpl.
  - exists ll. by rewrite app_nil_r.
  - destruct (append_inv fuel x ll vs Hinv) as (ll1 & -> & Hinv1); [lia|]. simpl.
    destruct (IH ll1 (vs ++ [x]) Hinv1) as (ll2 & -> & Hinv2).
    { rewrite length_app. simpl in *. lia. }
    exists ll2. split; [done|]. by rewrite <- app_assoc in Hinv2.
Qed.

Lemma newLinkList_inv : list_inv newLinkList [].
Proof. exists []. split; [done|]. apply NoDup_nil_2. Qed.

(** X21: values added one after the other to a new list with [addElement]
    are kept in the order they were added: every call finds the last node
    and returns, within as many loop tests as the list has nodes, and
    [display] then prints the values first to last. *)
Theorem display_in_added_order :
  ∀ (xs : list Z) (k : nat),
    ∃ ll, add_all (length xs + k) xs newLinkList = Some ll ∧
          display (length xs + k) ll = Some xs.
Proof.
  intros xs k.
  destruct (add_all_inv (length xs + k) xs newLinkList [] newLinkList_inv)
    as (ll & Hrun & ls & Hseg & _); [simpl; lia|].
  exists ll. split; [done|]. by eapply LinkedQueue.traverse_lseg.
Qed.

(** X22: [addElement] walks the whole list.  On a list built from the
    non-empty sequence [xs], a call needs one loop test per node: it does
    not return within fewer than [length xs] tests and does within that
    many; the list then holds [xs] followed by the new value, and [head]
    is the node it was unless the list was empty. *)
Theorem addElement_walks_all :
  ∀ (xs : list Z) (x : Z) (fuel : nat),
    ∃ ll, add_all (length xs) xs newLinkList = Some ll ∧
      (xs ≠ [] → (fuel < length xs)%nat → addElement fuel x ll = None) ∧
      ((length xs <= fuel)%nat →
         ∃ ll', addElement fuel x ll = Some ll' ∧
                display (S (length xs)) ll' = Some (xs ++ [x]) ∧
                head ll' = (if head ll is Some _ then head ll else head ll')).
Proof.
  intros xs x fuel.
  destruct (add_all_inv (length xs) xs newLinkList [] newLinkList_inv)
    as (ll & Hrun & Hinv); [simpl; lia|].
  exists ll. split; [done|]. simpl in Hinv. split.
  - intros Hne Hfuel. destruct Hinv as (ls & Hseg & Hnd).
    pose proof (LinkedQueue.lseg_length _ _ _ _ Hseg) as Hlen.
    unfold addElement.
    destruct (head ll) as [hd|] eqn:Hhead.
    2:{ destruct ls, xs; simpl in Hseg; try done. by destruct Hseg. }
    assert (LinkedQueue.lseg (<[LinkedQueue.alloc (nodes ll) := LinkedQueue.mkNode x None]>
                                (nodes ll)) (Some hd) ls xs) as Hseg1.
    { apply (LinkedQueue.lseg_agree (nodes ll)); [|done].
      intros l Hin. rewrite lookup_insert_ne; [done|]. intros <-.
      rewrite <- Hhead in Hseg. by apply (fresh_not_in_chain ll ls xs Hseg). }
    rewrite (last_node_short _ _ _ _ _ Hseg1) by lia. done.
  - intros Hfuel.
    destruct (append_inv fuel x ll xs Hinv Hfuel) as (ll' & Hadd & ls & Hseg & _).
    exists ll'. split; [done|]. split.
    + unfold display.
      replace (S (length xs)) with (length (xs ++ [x]) + 0)%nat
        by (rewrite length_app; simpl; lia).
      by eapply LinkedQueue.traverse_lseg.
    + unfold addElement in Hadd. destruct (head ll) as [hd|]; [|done].
      destruct (last_node _ _ _); simpl in Hadd; [|done].
      destruct (_ !! _); simpl in Hadd; [|done]. by injection Hadd as <-.
Qed.

End LinkedList.

(** ** The book REST service (data-structures/link-list/linked-list/main.go,
    third program) *)
Module BookService.

(** [time.Time], as an instant on the clock. *)
Definition Time : Type := Z.

(** [type Book struct].  [Price] is a [float64]: a binary64 float. *)
Record Book : Type := mkBook {
  ID : Z;
  Title : string;
  Author : string;
  Price : float;
  CreatedAt : Time
}.

(** The zero value of [Book], which a map read of an absent key yields. *)
Definition zeroBook : Book :=
  {| ID := 0; Title := ""; Author := ""; Price := 0%float; CreatedAt := 0 |}.

(** [type BookStore struct].  The embedded [sync.RWMutex] makes each method
    one atomic step; the methods are state transformers. *)
Record BookStore : Type := mkBookStore {
  books : gmap Z Book;
  nextID : Z;
  idCounter : Z
}.

(** [v, ok := m[k]] *)
Definition index (m : gmap Z Book) (k : Z) : Book * bool :=
  match m !! k with
  | Some b => (b, true)
  | None => (zeroBook, false)
  end.

Definition GetBook (id : Z) (bs : BookStore) : Book * bool := index (books bs) id.

(** [AddBook]; [now] is the reading of [time.Now()]. *)
Definition AddBook (now : Time) (book : Book) (bs : BookStore) : Z * BookStore :=
  let book := {| ID := nextID bs; Title := Title book; Author := Author book;
                 Price := Price book; CreatedAt := now |} in
  (ID book,
   {| books := <[ID book := book]> (books bs);
      nextID := wrap64 (nextID bs + 1);
      idCounter := idCounter bs |}).

Definition UpdateBook (id : Z) (book : Book) (bs : BookStore) : bool * BookStore :=
  let exists_ := (index (books bs) id).2 in
  if negb exists_ then (false, bs)
  else
    let book := {| ID := id; Title := Title book; Author := Author book;
                   Price := Price book;
                   CreatedAt := CreatedAt (index (books bs) id).1 |} in
    (true,
     {| books := <[id := book]> (books bs);
        nextID := nextID bs;
        idCounter := idCounter bs |}).

Definition DeleteBook (id : Z) (bs : BookStore) : bool * BookStore :=
  if (index (books bs) id).2
  then (true, {| books := delete id (books bs); nextID := nextID bs; idCounter := idCounter bs |})
  else (false, bs).

(** What a handler does with its [http.ResponseWriter]: one of the two
    calls the handlers of this file end with. *)
Inductive Reply : Type :=
| Error (msg : string) (code : Z)          (* http.Error(w, msg, code) *)
| RespondWithJSON (code : Z) (data : Book) (* respondWithJSON(w, code, data) *).

Definition StatusCreated : Z := 201.
Definition StatusBadRequest : Z := 400.
Definition StatusMethodNotAllowed : Z := 405.
Definition MethodPost : string := "POST".

(** The part of [*http.Request] the handler reads. *)
Record Request : Type := mkRequest { Method : string; Body : string }.

Section Handlers.

(** [json.NewDecoder(r.Body).Decode(&book)]: the book read from the body,
    or [None] when decoding returns an error. *)
Variable Decode : string → option Book.

Definition handleCreateBook (now : Time) (r : Request) (store : BookStore)
  : Reply * BookStore :=
  if negb (bool_decide (Method r = MethodPost)) then
    (Error "Method not allowed" StatusMethodNotAllowed, store)
  else
    match Decode (Body r) with
    | None => (Error "Invalid request body" StatusBadRequest, store)
    | Some book =>
        if bool_decide (Title book = "") || bool_decide (Author book = "")
           || PrimFloat.leb (Price book) 0
        then (Error "Invalid book data: title, author and price are required"
                    StatusBadRequest, store)
        else
          let '(id, store') := AddBook now book store in
          let createdBook := (GetBook id store').1 in
          (RespondWithJSON StatusCreated createdBook, store')
    end.

End Handlers.

(** [NewBookStore], with the three clock readings of its [AddBook] calls. *)
Definition NewBookStore (t1 t2 t3 : Time) : BookStore :=
  let store := {| books := ∅; nextID := 1; idCounter := 0 |} in
  let store := (AddBook t1 {| ID := 0; Title := "The Go Programming Language";
                              Author := "Alan A. A. Donovan and Brian W. Kernighan";
                              Price := 0x1.07eb851eb851fp+5%float; CreatedAt := 0 |} store).2 in
  let store := (AddBook t2 {| ID := 0; Title := "Concurrency in Go";
                              Author := "Katherine Cox-Buday";
                              Price := 0x1.17eb851eb851fp+5%float; CreatedAt := 0 |} store).2 in
  let store := (AddBook t3 {| ID := 0; Title := "Go in Action";
                              Author := "William Kennedy";
                              Price := 0x1.8fd70a3d70a3dp+4%float; CreatedAt := 0 |} store).2 in
  store.

Example NewBookStore_ids :
  let s := NewBookStore 10 20 30 in
  (nextID s, Title <$> books s !! 2, CreatedAt <$> books s !! 3)
  = (4, Some "Concurrency in Go", Some 30).
Proof. vm_compute. reflexivity. Qed.

Lemma index_Some m k b : m !! k = Some b → index m k = (b, true).
Proof. unfold index. by intros ->. Qed.

Lemma index_None m k : m !! k = None → index m k = (zeroBook, false).
Proof. unfold index. by intros ->. Qed.

(** C10: [UpdateBook id b] on any store.  When [id] is present it returns
    true, the entry under [id] gets [ID = id], keeps its previous
    [CreatedAt] and takes [Title], [Author] and [Price] from [b]; all other
    entries and [nextID] are unchanged.  When [id] is absent it returns
    false and the store is unchanged. *)
Theorem UpdateBook_frame :
  ∀ (bs : BookStore) (id : Z) (b : Book),
    (∀ old, books bs !! id = Some old →
       ∃ bs', UpdateBook id b bs = (true, bs') ∧
              books bs' !! id = Some {| ID := id; Title := Title b; Author := Author b;
                                        Price := Price b; CreatedAt := CreatedAt old |} ∧
              (∀ j, j ≠ id → books bs' !! j = books bs !! j) ∧
              nextID bs' = nextID bs ∧ idCounter bs' = idCounter bs) ∧
    (books bs !! id = None → UpdateBook id b bs = (false, bs)).
Proof.
  intros bs id b. split.
  - intros old Hold. unfold UpdateBook. rewrite (index_Some _ _ _ Hold). simpl.
    eexists. split; [done|]. simpl. split; [by rewrite lookup_insert_eq|].
    split; [|done]. intros j Hj. by rewrite lookup_insert_ne.
  - intros Hnone. unfold UpdateBook. by rewrite (index_None _ _ Hnone).
Qed.

(** A decoded book without a title, as the body
    [{author: Jon Bodner, price: 29.99}] gives. *)
Definition untitled : Book :=
  {| ID := 0; Title := ""; Author := "Jon Bodner";
     Price := 0x1.dfd70a3d70a3dp+4%float; CreatedAt := 0 |}.

Definition learningGo : Book :=
  {| ID := 0; Title := "Learning Go"; Author := "Jon Bodner";
     Price := 0x1.dfd70a3d70a3dp+4%float; CreatedAt := 0 |}.

(** C3, as stated, fails: a book that decodes without error but has an
    empty title is answered with 400 and is not stored. *)
Lemma handleCreateBook_rejects_decoded_book :
  ¬ (∀ (Decode : string → option Book) now r store book,
       Method r = MethodPost → Decode (Body r) = Some book →
       ∃ data store',
         handleCreateBook Decode now r store = (RespondWithJSON StatusCreated data, store') ∧
         is_Some (books store' !! nextID store)).
Proof.
  intros H.
  destruct (H (λ _, Some untitled) 0 {| Method := "POST"; Body := "" |}
              {| books := ∅; nextID := 1; idCounter := 0 |} untitled
              eq_refl eq_refl) as (data & store' & Heq & _).
  vm_compute in Heq. discriminate Heq.
Qed.

(** C3, amended: a decoded book is validated.  With a non-empty title, a
    non-empty author and a price that is not [<= 0] the book is stored
    under the next ID with the current time and returned with 201 Created;
    otherwise the answer is 400 Bad Request and the store is unchanged. *)
Theorem handleCreateBook_validates :
  ∀ (Decode : string → option Book) (now : Time) (r : Request)
    (store : BookStore) (book : Book),
    Method r = MethodPost → Decode (Body r) = Some book →
    (Title book ≠ "" ∧ Author book ≠ "" ∧ PrimFloat.leb (Price book) 0 = false →
       let created := {| ID := nextID store; Title := Title book; Author := Author book;
                         Price := Price book; CreatedAt := now |} in
       handleCreateBook Decode now r store =
         (RespondWithJSON StatusCreated created,
          {| books := <[nextID store := created]> (books store);
             nextID := wrap64 (nextID store + 1);
             idCounter := idCounter store |})) ∧
    (Title book = "" ∨ Author book = "" ∨ PrimFloat.leb (Price book) 0 = true →
       handleCreateBook Decode now r store =
         (Error "Invalid book data: title, author and price are required" StatusBadRequest,
          store)).
Proof.
  intros Decode now r store book Hm Hd. unfold handleCreateBook.
  rewrite Hd, bool_decide_true by done. simpl. split.
  - intros (Ht & Ha & Hp).
    rewrite !bool_decide_false, Hp by done. simpl.
    unfold GetBook, index. simpl. by rewrite lookup_insert_eq.
  - intros [Ht | [Ha | Hp]].
    + by rewrite (bool_decide_true _ Ht).
    + rewrite (bool_decide_true _ Ha). by rewrite orb_true_r.
    + rewrite Hp. by rewrite orb_true_r.
Qed.

(** The amended C3 on the sample store: a complete book is created with
    ID 4, a book without a title is refused. *)
Lemma handleCreateBook_validates_witness :
  let Decode := λ body : string, if bool_decide (body = "learning-go") then Some learningGo
                                 else Some untitled in
  let store := NewBookStore 10 20 30 in
  (handleCreateBook Decode 40 {| Method := "POST"; Body := "learning-go" |} store).1
    = RespondWithJSON 201 {| ID := 4; Title := "Learning Go"; Author := "Jon Bodner";
                             Price := 0x1.dfd70a3d70a3dp+4%float; CreatedAt := 40 |} ∧
  handleCreateBook Decode 40 {| Method := "POST"; Body := "no-title" |} store
    = (Error "Invalid book data: title, author and price are required" 400, store).
Proof.
  pose proof (handleCreateBook_validates
    (λ body : string, if bool_decide (body = "learning-go") then Some learningGo
                      else Some untitled)
    40 {| Method := "POST"; Body := "learning-go" |} (NewBookStore 10 20 30) learningGo
    eq_refl eq_refl) as [Hok _].
  pose proof (handleCreateBook_validates
    (λ body : string, if bool_decide (body = "learning-go") then Some learningGo
                      else Some untitled)
    40 {| Method := "POST"; Body := "no-title" |} (NewBookStore 10 20 30) untitled
    eq_refl eq_refl) as [_ Hbad].
  split.
  - rewrite Hok; [reflexivity|]. repeat split; done.
  - apply Hbad. by left.
Defined.

(** *** The rest of the store and of the handlers *)

(** [s[n:]] on a string; [None] is the slice-bounds panic. *)
Fixpoint string_drop (n : nat) (s : string) : string :=
  match n, s with
  | O, _ => s
  | S n, String _ s' => string_drop n s'
  | S _, EmptyString => EmptyString
  end.

Definition slice_from (s : string) (n : nat) : option string :=
  if (n <=? String.length s)%nat then Some (string_drop n s) else None.

Definition StatusOK : Z := 200.
Definition StatusNoContent : Z := 204.
Definition StatusNotFound : Z := 404.
Definition MethodGet : string := "GET".
Definition MethodPut : string := "PUT".
Definition MethodDelete : string := "DELETE".

(** A request to [/books/{id}]: method and body as before, and
    [r.URL.Path]. *)
Record PathRequest : Type := mkPathRequest { request : Request; URLPath : string }.

(** What the handlers of this file do with the response writer. *)
Inductive Answer : Type :=
| Replied (r : Reply)
| WroteHeader (code : Z)             (* w.WriteHeader(code) *)
| RespondWithBooks (code : Z) (data : list Book)
                                     (* respondWithJSON(w, code, books) *).

Section MoreHandlers.

Variable Decode : string → option Book.

(** [strconv.Atoi]: the integer a string spells, or [None] for its error. *)
Variable Atoi : string → option Z.

(** The order in which [range] visits a map is not fixed; [Range] stands
    for the order of one visit. *)
Variable Range : gmap Z Book → list Book.

(** [extractIDFromPath]: the outer [None] is the panic of
    [path[len(prefix):]], the inner one the returned error. *)
Definition extractIDFromPath (path prefix : string) : option (option Z) :=
  idStr ← slice_from path (String.length prefix);
  match Atoi idStr with
  | None => Some None
  | Some id => if id <=? 0 then Some None else Some (Some id)
  end.

Definition GetBooks (bs : BookStore) : list Book := Range (books bs).

Definition handleGetBooks (r : Request) (store : BookStore) : Answer * BookStore :=
  if negb (bool_decide (Method r = MethodGet)) then
    (Replied (Error "Method not allowed" StatusMethodNotAllowed), store)
  else (RespondWithBooks StatusOK (GetBooks store), store).

Definition handleGetBook (r : PathRequest) (store : BookStore)
  : option (Answer * BookStore) :=
  if negb (bool_decide (Method (request r) = MethodGet)) then
    Some (Replied (Error "Method not allowed" StatusMethodNotAllowed), store)
  else
    id ← extractIDFromPath (URLPath r) "/books/";
    match id with
    | None => Some (Replied (Error "Invalid book ID" StatusBadRequest), store)
    | Some id =>
        let '(book, exists_) := GetBook id store in
        if negb exists_ then Some (Replied (Error "Book not found" StatusNotFound), store)
        else Some (Replied (RespondWithJSON StatusOK book), store)
    end.

Definition handleUpdateBook (r : PathRequest) (store : BookStore)
  : option (Answer * BookStore) :=
  if negb (bool_decide (Method (request r) = MethodPut)) then
    Some (Replied (Error "Method not allowed" StatusMethodNotAllowed), store)
  else
    id ← extractIDFromPath (URLPath r) "/books/";
    match id with
    | None => Some (Replied (Error "Invalid book ID" StatusBadRequest), store)
    | Some id =>
        match Decode (Body (request r)) with
        | None => Some (Replied (Error "Invalid request body" StatusBadRequest), store)
        | Some book =>
            if bool_decide (Title book = "") || bool_decide (Author book = "")
               || PrimFloat.leb (Price book) 0
            then Some (Replied (Error "Invalid book data: title, author and price are required"
                                      StatusBadRequest), store)
            else
              let '(success, store') := UpdateBook id book store in
              if negb success then
                Some (Replied (Error "Book not found" StatusNotFound), store')
              else
                let updatedBook := (GetBook id store').1 in
                Some (Replied (RespondWithJSON StatusOK updatedBook), store')
        end
    end.

Definition handleDeleteBook (r : PathRequest) (store : BookStore)
  : option (Answer * BookStore) :=
  if negb (bool_decide (Method (request r) = MethodDelete)) then
    Some (Replied (Error "Method not allowed" StatusMethodNotAllowed), store)
  else
    id ← extractIDFromPath (URLPath r) "/books/";
    match id with
    | None => Some (Replied (Error "Invalid book ID" StatusBadRequest), store)
    | Some id =>
        let '(success, store') := DeleteBook id store in
        if negb success then
          Some (Replied (Error "Book not found" StatusNotFound), store')
        else Some (WroteHeader StatusNoContent, store')
    end.

(** The two functions [main] registers, under [/books] and [/books/]; the
    logging middleware around them only writes to the log. *)
Definition books_route (now : Time) (r : Request) (store : BookStore)
  : Answer * BookStore :=
  if bool_decide (Method r = MethodGet) then handleGetBooks r store
  else if bool_decide (Method r = MethodPost) then
    let '(reply, store') := handleCreateBook Decode now r store in (Replied reply, store')
  else (Replied (Error "Method not allowed" StatusMethodNotAllowed), store).

Definition book_route (r : PathRequest) (store : BookStore)
  : option (Answer * BookStore) :=
  if bool_decide (Method (request r) = MethodGet) then handleGetBook r store
  else if bool_decide (Method (request r) = MethodPut) then handleUpdateBook r store
  else if bool_decide (Method (request r) = MethodDelete) then handleDeleteBook r store
  else Some (Replied (Error "Method not allowed" StatusMethodNotAllowed), store).

End MoreHandlers.

(** The calls that change a store. *)
Inductive store_op : Type :=
| OpAdd (now : Time) (book : Book)
| OpUpdate (id : Z) (book : Book)
| OpDelete (id : Z).

Definition apply_op (bs : BookStore) (o : store_op) : BookStore :=
  match o with
  | OpAdd now book => (AddBook now book bs).2
  | OpUpdate id book => (UpdateBook id book bs).2
  | OpDelete id => (DeleteBook id bs).2
  end.

Definition is_add (o : store_op) : bool :=
  match o with OpAdd _ _ => true | _ => false end.

(** Every book is stored under its own [ID], and all IDs handed out are
    below [nextID]. *)
Definition store_ok (bs : BookStore) : Prop :=
  1 <= nextID bs ∧ ∀ k b, books bs !! k = Some b → ID b = k ∧ 1 <= k < nextID bs.

Lemma AddBook_ok now book bs :
  store_ok bs → nextID bs < MaxInt → store_ok (AddBook now book bs).2.
Proof.
  intros [Hn Hk] Hmax. unfold store_ok, AddBook. simpl.
  rewrite wrap64_id by (unfold MinInt, MaxInt in *; lia).
  split; [lia|]. intros k b.
  destruct (decide (nextID bs = k)) as [<-|Hne].
  - rewrite lookup_insert_eq. intros [= <-]. simpl. lia.
  - rewrite lookup_insert_ne by done. intros Hb. destruct (Hk k b Hb). lia.
Qed.

Lemma UpdateBook_ok id book bs : store_ok bs → store_ok (UpdateBook id book bs).2.
Proof.
  intros [Hn Hk]. unfold store_ok, UpdateBook, index.
  destruct (books bs !! id) as [old|] eqn:Hold; simpl; [|done].
  split; [done|]. intros k b.
  destruct (decide (id = k)) as [<-|Hne].
  - rewrite lookup_insert_eq. intros [= <-]. simpl. split; [done|]. by apply (Hk id old).
  - rewrite lookup_insert_ne by done. apply Hk.
Qed.

Lemma DeleteBook_ok id bs : store_ok bs → store_ok (DeleteBook id bs).2.
Proof.
  intros [Hn Hk]. unfold store_ok, DeleteBook, index.
  destruct (books bs !! id) as [old|] eqn:Hold; simpl; [|done].
  split; [done|]. intros k b Hb. apply lookup_delete_Some in Hb as [_ Hb]. by apply Hk.
Qed.

Lemma NewBookStore_ok t1 t2 t3 : store_ok (NewBookStore t1 t2 t3) ∧ nextID (NewBookStore t1 t2 t3) = 4.
Proof.
  split; [|reflexivity].
  unfold NewBookStore. repeat apply AddBook_ok; try (vm_compute; done).
Qed.

Lemma apply_ops_ok ops : ∀ bs,
  store_ok bs → nextID bs + Z.of_nat (length ops) <= MaxInt →
  store_ok (foldl apply_op bs ops) ∧
  nextID (foldl apply_op bs ops) = nextID bs + Z.of_nat (length (filter is_add ops)).
Proof.
  induction ops as [|o ops IH]; intros bs Hok Hlen; simpl.
  - split; [done|lia].
  - simpl length in Hlen.
    assert (store_ok (apply_op bs o) ∧
            nextID (apply_op bs o) = nextID bs + (if is_add o then 1 else 0)) as [Hok' Hn'].
    { destruct o as [now b|id b|id]; simpl.
      - split; [apply AddBook_ok; [done|lia]|].
        rewrite wrap64_id; [done|]. destruct Hok. unfold MinInt, MaxInt in *. lia.
      - split; [by apply UpdateBook_ok|]. unfold UpdateBook. case_match; simpl; lia.
      - split; [by apply DeleteBook_ok|]. unfold DeleteBook. case_match; simpl; lia. }
    destruct (IH (apply_op bs o) Hok') as [Hok'' Hn''].
    { destruct (is_add o); lia. }
    split; [done|]. rewrite Hn'', Hn'.
    rewrite filter_cons. destruct o; simpl; rewrite ?decide_True, ?decide_False by done;
      simpl length; lia.
Qed.

(** X4: on a store in which every book sits under its own ID below
    [nextID] (and [nextID] is short of the largest [int]), [AddBook]
    returns [nextID], an ID no stored book has; [GetBook] on that ID then
    finds the new book with that ID and the current time; no other entry
    changes; and the store is again of that kind. *)
Theorem AddBook_fresh_id :
  ∀ (now : Time) (book : Book) (bs : BookStore),
    store_ok bs → nextID bs < MaxInt →
    let id := (AddBook now book bs).1 in
    let bs' := (AddBook now book bs).2 in
    id = nextID bs ∧
    books bs !! id = None ∧
    GetBook id bs' = ({| ID := id; Title := Title book; Author := Author book;
                         Price := Price book; CreatedAt := now |}, true) ∧
    (∀ k, k ≠ id → GetBook k bs' = GetBook k bs) ∧
    nextID bs' = nextID bs + 1 ∧
    store_ok bs'.
Proof.
  intros now book bs Hok Hmax id bs'.
  split; [done|]. split.
  { destruct (books bs !! id) as [b|] eqn:Hb; [|done].
    destruct Hok as [_ Hk]. destruct (Hk id b Hb) as [_ Hlt]. subst id. simpl in Hlt. lia. }
  split.
  { subst id bs'. unfold GetBook, index, AddBook. simpl. by rewrite lookup_insert_eq. }
  split.
  { intros k Hk. subst id bs'. unfold GetBook, index, AddBook in *. simpl in *.
    by rewrite lookup_insert_ne. }
  split.
  { subst bs'. unfold AddBook. simpl. destruct Hok.
    rewrite wrap64_id; [done|]. unfold MinInt, MaxInt in *. lia. }
  by apply AddBook_ok.
Qed.

(** X4 on the sample store. *)
Lemma AddBook_fresh_id_witness :
  let bs := NewBookStore 10 20 30 in
  let id := (AddBook 40 learningGo bs).1 in
  let bs' := (AddBook 40 learningGo bs).2 in
  id = nextID bs ∧
  books bs !! id = None ∧
  GetBook id bs' = ({| ID := id; Title := Title learningGo; Author := Author learningGo;
                       Price := Price learningGo; CreatedAt := 40 |}, true) ∧
  (∀ k, k ≠ id → GetBook k bs' = GetBook k bs) ∧
  nextID bs' = nextID bs + 1 ∧
  store_ok bs'.
Proof.
  apply (AddBook_fresh_id 40 learningGo (NewBookStore 10 20 30)).
  - apply NewBookStore_ok.
  - vm_compute. reflexivity.
Defined.

(** X5: after any sequence of [AddBook], [UpdateBook] and [DeleteBook]
    calls on the store of [NewBookStore], every book is stored under its
    own ID, all IDs are between 1 and [nextID], and [nextID] is 4 plus the
    number of [AddBook] calls: deleting a book does not free its ID. *)
Theorem store_ids_never_reused :
  ∀ (t1 t2 t3 : Time) (ops : list store_op),
    Z.of_nat (length ops) < MaxInt - 4 →
    let bs := foldl apply_op (NewBookStore t1 t2 t3) ops in
    (∀ k b, books bs !! k = Some b → ID b = k ∧ 1 <= k < nextID bs) ∧
    nextID bs = 4 + Z.of_nat (length (filter is_add ops)).
Proof.
  intros t1 t2 t3 ops Hlen bs.
  destruct (NewBookStore_ok t1 t2 t3) as [Hok Hn].
  destruct (apply_ops_ok ops (NewBookStore t1 t2 t3) Hok) as [[_ Hk] Hn'].
  { rewrite Hn. lia. }
  split; [exact Hk|]. subst bs. by rewrite Hn', Hn.
Qed.

(** X5 on: add a book (ID 4), delete it, add another (ID 5). *)
Lemma store_ids_never_reused_witness :
  let bs := foldl apply_op (NewBookStore 10 20 30)
              [OpAdd 40 learningGo; OpDelete 4; OpAdd 50 learningGo] in
  (∀ k b, books bs !! k = Some b → ID b = k ∧ 1 <= k < nextID bs) ∧
  nextID bs = 6 ∧ GetBook 4 bs = (zeroBook, false) ∧ (GetBook 5 bs).2 = true.
Proof.
  destruct (store_ids_never_reused 10 20 30
              [OpAdd 40 learningGo; OpDelete 4; OpAdd 50 learningGo]) as [Hk Hn].
  - vm_compute. reflexivity.
  - split; [exact Hk|]. split; [exact Hn|]. split; vm_compute; reflexivity.
Defined.

(** X6: [DeleteBook id] on any store.  When [id] is present it returns
    true, [GetBook id] then finds nothing, and every other entry, [nextID]
    and [idCounter] are unchanged; when [id] is absent it returns false and
    the store is unchanged. *)
Theorem DeleteBook_frame :
  ∀ (bs : BookStore) (id : Z),
    (∀ old, books bs !! id = Some old →
       ∃ bs', DeleteBook id bs = (true, bs') ∧
              GetBook id bs' = (zeroBook, false) ∧
              (∀ j, j ≠ id → GetBook j bs' = GetBook j bs) ∧
              nextID bs' = nextID bs ∧ idCounter bs' = idCounter bs) ∧
    (books bs !! id = None → DeleteBook id bs = (false, bs)).
Proof.
  intros bs id. split.
  - intros old Hold. unfold DeleteBook. rewrite (index_Some _ _ _ Hold). simpl.
    eexists. split; [done|]. unfold GetBook, index. simpl.
    rewrite lookup_delete_eq. split; [done|]. split; [|done].
    intros j Hj. by rewrite lookup_delete_ne.
  - intros Hnone. unfold DeleteBook. by rewrite (index_None _ _ Hnone).
Qed.

Lemma string_drop_app (prefix rest : string) :
  string_drop (String.length prefix) (prefix +:+ rest) = rest.
Proof. induction prefix as [|c prefix IH]; [done|]. exact IH. Qed.

Lemma string_length_app (a b : string) :
  String.length (a +:+ b) = (String.length a + String.length b)%nat.
Proof. induction a as [|c a IH]; [done|]. simpl. by rewrite <- IH. Qed.

Lemma slice_from_app (prefix rest : string) :
  slice_from (prefix +:+ rest) (String.length prefix) = Some rest.
Proof.
  unfold slice_from. rewrite string_length_app, string_drop_app.
  by rewrite (proj2 (Nat.leb_le _ _)) by lia.
Qed.

Lemma extractIDFromPath_routed Atoi (prefix rest : string) :
  extractIDFromPath Atoi (prefix +:+ rest) prefix
  = Some (match Atoi rest with
          | None => None
          | Some id => if id <=? 0 then None else Some id
          end).
Proof.
  unfold extractIDFromPath. rewrite slice_from_app. simpl.
  destruct (Atoi rest) as [id|]; [|done]. by destruct (id <=? 0).
Qed.

(** X7: a PUT on [/books/{id}] with a positive [id] and a body that decodes
    to a book with a title, an author and a price that is not [<= 0].  If a
    book is stored under [id], the answer is 200 with the stored book:
    title, author and price from the body, [ID] from the path and
    [CreatedAt] from the old entry, whatever the body said for those two.
    If none is stored, the answer is 404 and the store is unchanged. *)
Theorem handleUpdateBook_keeps_id_and_time :
  ∀ (Decode Atoi : string → _) (r : PathRequest) (store : BookStore)
    (rest : string) (id : Z) (book : Book),
    Method (request r) = MethodPut →
    URLPath r = "/books/" +:+ rest →
    Atoi rest = Some id → 0 < id →
    Decode (Body (request r)) = Some book →
    Title book ≠ "" ∧ Author book ≠ "" ∧ PrimFloat.leb (Price book) 0 = false →
    (∀ old, books store !! id = Some old →
       let updated := {| ID := id; Title := Title book; Author := Author book;
                         Price := Price book; CreatedAt := CreatedAt old |} in
       handleUpdateBook Decode Atoi r store =
         Some (Replied (RespondWithJSON StatusOK updated),
               {| books := <[id := updated]> (books store);
                  nextID := nextID store; idCounter := idCounter store |})) ∧
    (books store !! id = None →
       handleUpdateBook Decode Atoi r store =
         Some (Replied (Error "Book not found" StatusNotFound), store)).
Proof.
  intros Decode Atoi r store rest id book Hm Hpath Hatoi Hid Hdec (Ht & Ha & Hp).
  unfold handleUpdateBook.
  rewrite Hpath, extractIDFromPath_routed, Hatoi, bool_decide_true by done. simpl.
  rewrite (proj2 (Z.leb_gt _ _)) by lia.
  rewrite Hdec, !bool_decide_false, Hp by done. simpl.
  split.
  - intros old Hold. unfold UpdateBook. rewrite (index_Some _ _ _ Hold). simpl.
    unfold GetBook, index. simpl. by rewrite lookup_insert_eq.
  - intros Hnone. unfold UpdateBook. by rewrite (index_None _ _ Hnone).
Qed.

Definition sampleAtoi (s : string) : option Z :=
  if bool_decide (s = "2") then Some 2
  else if bool_decide (s = "4") then Some 4
  else if bool_decide (s = "0") then Some 0
  else None.

(** X7 on the sample store: book 2 is replaced and keeps its time. *)
Lemma handleUpdateBook_keeps_id_and_time_witness :
  let r := {| request := {| Method := "PUT"; Body := "" |}; URLPath := "/books/2" |} in
  let store := NewBookStore 10 20 30 in
  handleUpdateBook (λ _, Some learningGo) sampleAtoi r store =
    Some (Replied (RespondWithJSON 200
                     {| ID := 2; Title := "Learning Go"; Author := "Jon Bodner";
                        Price := Price learningGo; CreatedAt := 20 |}),
          {| books := <[2 := {| ID := 2; Title := "Learning Go"; Author := "Jon Bodner";
                                Price := Price learningGo; CreatedAt := 20 |}]> (books store);
             nextID := 4; idCounter := 0 |}).
Proof.
  destruct (handleUpdateBook_keeps_id_and_time (λ _, Some learningGo) sampleAtoi
      {| request := {| Method := "PUT"; Body := "" |}; URLPath := "/books/2" |}
      (NewBookStore 10 20 30) "2" 2 learningGo) as [Hfound _].
  - reflexivity.
  - reflexivity.
  - reflexivity.
  - lia.
  - reflexivity.
  - repeat split; discriminate.
  - refine (Hfound {| ID := 2; Title := "Concurrency in Go"; Author := "Katherine Cox-Buday";
                      Price := 0x1.17eb851eb851fp+5%float; CreatedAt := 20 |} _).
    vm_compute. reflexivity.
Defined.

(** X8: on a store in which all IDs are below [nextID], a POST on [/books]
    that creates a book answers 201 with the book, and a GET on
    [/books/{id}] for the ID it was given then answers 200 with the same
    book and leaves the store as it is. *)
Theorem create_then_get :
  ∀ (Decode Atoi : string → _) (now : Time) (post : Request) (get : PathRequest)
    (store : BookStore) (book : Book) (rest : string),
    store_ok store →
    Method post = MethodPost → Decode (Body post) = Some book →
    Title book ≠ "" ∧ Author book ≠ "" ∧ PrimFloat.leb (Price book) 0 = false →
    Method (request get) = MethodGet → URLPath get = "/books/" +:+ rest →
    Atoi rest = Some (nextID store) →
    let created := {| ID := nextID store; Title := Title book; Author := Author book;
                      Price := Price book; CreatedAt := now |} in
    let store1 := (handleCreateBook Decode now post store).2 in
    (handleCreateBook Decode now post store).1 = RespondWithJSON StatusCreated created ∧
    handleGetBook Atoi get store1 =
      Some (Replied (RespondWithJSON StatusOK created), store1).
Proof.
  intros Decode Atoi now post get store book rest [Hn _] Hm Hdec (Ht & Ha & Hp)
    Hg Hpath Hatoi created store1.
  subst store1. unfold handleCreateBook.
  rewrite Hdec, bool_decide_true, !bool_decide_false, Hp by done. simpl.
  unfold GetBook at 1, index. simpl. rewrite lookup_insert_eq. simpl.
  split; [done|].
  unfold handleGetBook.
  rewrite Hpath, extractIDFromPath_routed, Hatoi, bool_decide_true by done. simpl.
  rewrite (proj2 (Z.leb_gt _ _)) by lia.
  unfold GetBook, index. simpl. by rewrite lookup_insert_eq.
Qed.

(** X8 on the sample store: the created book is found under ID 4. *)
Lemma create_then_get_witness :
  let post := {| Method := "POST"; Body := "" |} in
  let get := {| request := {| Method := "GET"; Body := "" |}; URLPath := "/books/4" |} in
  let store := NewBookStore 10 20 30 in
  let created := {| ID := nextID store; Title := Title learningGo;
                    Author := Author learningGo;
                    Price := Price learningGo; CreatedAt := 40 |} in
  let store1 := (handleCreateBook (λ _, Some learningGo) 40 post store).2 in
  (handleCreateBook (λ _, Some learningGo) 40 post store).1
    = RespondWithJSON StatusCreated created ∧
  handleGetBook sampleAtoi get store1 =
    Some (Replied (RespondWithJSON StatusOK created), store1).
Proof.
  apply (create_then_get (λ _, Some learningGo) sampleAtoi 40
           {| Method := "POST"; Body := "" |}
           {| request := {| Method := "GET"; Body := "" |}; URLPath := "/books/4" |}
           (NewBookStore 10 20 30) learningGo "4").
  - apply NewBookStore_ok.
  - reflexivity.
  - reflexivity.
  - repeat split; discriminate.
  - reflexivity.
  - reflexivity.
  - reflexivity.
Defined.

(** X9: a DELETE on [/books/{id}] with a positive [id] answers 204 exactly
    when a book was stored under [id] and 404 otherwise; either way a GET
    on the same path then answers 404. *)
Theorem delete_then_get :
  ∀ (Atoi : string → option Z) (del get : PathRequest) (store : BookStore)
    (rest : string) (id : Z),
    Method (request del) = MethodDelete → URLPath del = "/books/" +:+ rest →
    Method (request get) = MethodGet → URLPath get = "/books/" +:+ rest →
    Atoi rest = Some id → 0 < id →
    ∃ ans store1,
      handleDeleteBook Atoi del store = Some (ans, store1) ∧
      (is_Some (books store !! id) → ans = WroteHeader StatusNoContent) ∧
      (books store !! id = None →
         ans = Replied (Error "Book not found" StatusNotFound) ∧ store1 = store) ∧
      handleGetBook Atoi get store1 =
        Some (Replied (Error "Book not found" StatusNotFound), store1).
Proof.
  intros Atoi del get store rest id Hd Hpd Hg Hpg Hatoi Hid.
  unfold handleDeleteBook, handleGetBook.
  rewrite Hpd, Hpg, !extractIDFromPath_routed, Hatoi, !bool_decide_true by done. simpl.
  rewrite (proj2 (Z.leb_gt _ _)) by lia.
  unfold DeleteBook, GetBook, index.
  destruct (books store !! id) as [old|] eqn:Hold; simpl.
  - eexists _, _. split; [done|]. split; [done|]. split; [done|].
    simpl. by rewrite lookup_delete_eq.
  - eexists _, _. split; [done|]. split; [by intros [? ?]|]. split; [done|].
    by rewrite Hold.
Qed.

(** X9 on the sample store and book 2. *)
Lemma delete_then_get_witness :
  ∃ ans store1,
    handleDeleteBook sampleAtoi
      {| request := {| Method := "DELETE"; Body := "" |}; URLPath := "/books/2" |}
      (NewBookStore 10 20 30) = Some (ans, store1) ∧
    (is_Some (books (NewBookStore 10 20 30) !! 2) → ans = WroteHeader StatusNoContent) ∧
    (books (NewBookStore 10 20 30) !! 2 = None →
       ans = Replied (Error "Book not found" StatusNotFound) ∧
       store1 = NewBookStore 10 20 30) ∧
    handleGetBook sampleAtoi
      {| request := {| Method := "GET"; Body := "" |}; URLPath := "/books/2" |} store1 =
      Some (Replied (Error "Book not found" StatusNotFound), store1).
Proof.
  apply (delete_then_get sampleAtoi
           {| request := {| Method := "DELETE"; Body := "" |}; URLPath := "/books/2" |}
           {| request := {| Method := "GET"; Body := "" |}; URLPath := "/books/2" |}
           (NewBookStore 10 20 30) "2" 2); reflexivity.
Defined.

(** X10: the function registered under [/books/], on a path that starts
    with [/books/]: it does not panic; whenever it answers with an error,
    and whenever the method is GET, the store is unchanged; and [nextID]
    never changes. *)
Theorem book_route_errors_change_nothing :
  ∀ (Decode Atoi : string → _) (r : PathRequest) (store : BookStore) (rest : string),
    URLPath r = "/books/" +:+ rest →
    ∃ ans store',
      book_route Decode Atoi r store = Some (ans, store') ∧
      (∀ msg code, ans = Replied (Error msg code) → store' = store) ∧
      (Method (request r) = MethodGet → store' = store) ∧
      nextID store' = nextID store.
Proof.
  intros Decode Atoi r store rest Hpath.
  unfold book_route, handleGetBook, handleUpdateBook, handleDeleteBook.
  rewrite Hpath, extractIDFromPath_routed.
  unfold MethodGet, MethodPut, MethodDelete.
  destruct (decide (Method (request r) = "GET")) as [Hg|Hg].
  { rewrite !(bool_decide_true _ Hg). simpl.
    destruct (Atoi rest) as [id|]; [destruct (id <=? 0)|]; simpl;
      try (eexists _, _; split; [done|]; by repeat split).
    unfold GetBook, index. destruct (books store !! id); simpl;
      eexists _, _; (split; [done|]); by repeat split. }
  rewrite !(bool_decide_false _ Hg).
  destruct (decide (Method (request r) = "PUT")) as [Hp|Hp].
  { rewrite !(bool_decide_true _ Hp). simpl.
    destruct (Atoi rest) as [id|]; [destruct (id <=? 0)|]; simpl;
      try (eexists _, _; split; [done|]; by repeat split).
    destruct (Decode (Body (request r))) as [book|];
      [|eexists _, _; split; [done|]; by repeat split].
    destruct (bool_decide (Title book = "") || bool_decide (Author book = "")
              || PrimFloat.leb (Price book) 0);
      [eexists _, _; split; [done|]; by repeat split|].
    unfold UpdateBook, index. destruct (books store !! id); simpl;
      eexists _, _; (split; [done|]); by repeat split. }
  rewrite !(bool_decide_false _ Hp).
  destruct (decide (Method (request r) = "DELETE")) as [Hd|Hd].
  { rewrite !(bool_decide_true _ Hd). simpl.
    destruct (Atoi rest) as [id|]; [destruct (id <=? 0)|]; simpl;
      try (eexists _, _; split; [done|]; by repeat split).
    unfold DeleteBook, index. destruct (books store !! id); simpl;
      eexists _, _; (split; [done|]); by repeat split. }
  rewrite !(bool_decide_false _ Hd).
  eexists _, _. split; [done|]. by repeat split.
Qed.

(** X10 on a PUT with an ID that is not a positive number. *)
Lemma book_route_errors_change_nothing_witness :
  ∃ ans store',
    book_route (λ _, Some learningGo) sampleAtoi
      {| request := {| Method := "PUT"; Body := "" |}; URLPath := "/books/0" |}
      (NewBookStore 10 20 30) = Some (ans, store') ∧
    (∀ msg code, ans = Replied (Error msg code) → store' = NewBookStore 10 20 30) ∧
    (Method {| Method := "PUT"; Body := "" |} = MethodGet → store' = NewBookStore 10 20 30) ∧
    nextID store' = nextID (NewBookStore 10 20 30).
Proof.
  apply (book_route_errors_change_nothing (λ _, Some learningGo) sampleAtoi
           {| request := {| Method := "PUT"; Body := "" |}; URLPath := "/books/0" |}
           (NewBookStore 10 20 30) "0").
  reflexivity.
Defined.

(** X28: with [range] visiting every entry of the map once, in whatever
    order: after a POST on [/books] that creates a book on a store whose
    IDs are all below [nextID], a GET on [/books] answers 200 with the
    books that were there before and the created one, each once, and
    leaves the store as it is. *)
Theorem create_then_list :
  ∀ (Decode : string → option Book) (Range : gmap Z Book → list Book) (now : Time)
    (post get : Request) (store : BookStore) (book : Book),
    (∀ m, Range m ≡ₚ (map_to_list m).*2) →
    store_ok store →
    Method post = MethodPost → Decode (Body post) = Some book →
    Title book ≠ "" ∧ Author book ≠ "" ∧ PrimFloat.leb (Price book) 0 = false →
    Method get = MethodGet →
    let created := {| ID := nextID store; Title := Title book; Author := Author book;
                      Price := Price book; CreatedAt := now |} in
    let store1 := (books_route Decode Range now post store).2 in
    (books_route Decode Range now post store).1
      = Replied (RespondWithJSON StatusCreated created) ∧
    ∃ data, books_route Decode Range now get store1
              = (RespondWithBooks StatusOK data, store1) ∧
            data ≡ₚ created :: Range (books store) ∧
            length data = S (size (books store)).
Proof.
  intros Decode Range now post get store book HRange [Hn Hk] Hm Hdec (Ht & Ha & Hp)
    Hg created store1.
  assert (books store !! nextID store = None) as Hfresh.
  { destruct (books store !! nextID store) as [b|] eqn:Hb; [|done].
    destruct (Hk _ _ Hb). lia. }
  assert (books_route Decode Range now post store =
          (Replied (RespondWithJSON StatusCreated created),
           {| books := <[nextID store := created]> (books store);
              nextID := wrap64 (nextID store + 1);
              idCounter := idCounter store |})) as Hpost.
  { unfold books_route.
    rewrite Hm, (bool_decide_false (MethodPost = MethodGet)) by done.
    rewrite bool_decide_true by done. unfold handleCreateBook.
    rewrite Hm, Hdec, bool_decide_true, !bool_decide_false, Hp by done. simpl.
    unfold GetBook, index. simpl. by rewrite lookup_insert_eq. }
  subst store1. rewrite Hpost. simpl. split; [done|].
  unfold books_route, handleGetBooks. rewrite Hg, !bool_decide_true by done. simpl.
  eexists. split; [done|]. unfold GetBooks. simpl.
  assert (Range (<[nextID store := created]> (books store))
          ≡ₚ created :: Range (books store)) as Hperm.
  { rewrite !HRange, map_to_list_insert by done. done. }
  split; [exact Hperm|].
  rewrite Hperm. simpl. f_equal.
  by rewrite HRange, length_fmap, length_map_to_list.
Qed.

(** X28 on the sample store, [range] visiting the keys in increasing
    order. *)
Lemma create_then_list_witness :
  let Range := λ m : gmap Z Book, (map_to_list m).*2 in
  let post := {| Method := "POST"; Body := "" |} in
  let get := {| Method := "GET"; Body := "" |} in
  let store := NewBookStore 10 20 30 in
  let created := {| ID := nextID store; Title := Title learningGo;
                    Author := Author learningGo;
                    Price := Price learningGo; CreatedAt := 40 |} in
  let store1 := (books_route (λ _, Some learningGo) Range 40 post store).2 in
  (books_route (λ _, Some learningGo) Range 40 post store).1
    = Replied (RespondWithJSON StatusCreated created) ∧
  ∃ data, books_route (λ _, Some learningGo) Range 40 get store1
            = (RespondWithBooks StatusOK data, store1) ∧
          data ≡ₚ created :: Range (books store) ∧
          length data = S (size (books store)).
Proof.
  apply (create_then_list (λ _, Some learningGo) (λ m : gmap Z Book, (map_to_list m).*2) 40
           {| Method := "POST"; Body := "" |} {| Method := "GET"; Body := "" |}
           (NewBookStore 10 20 30) learningGo).
  - done.
  - apply NewBookStore_ok.
  - reflexivity.
  - reflexivity.
  - repeat split; discriminate.
  - reflexivity.
Defined.

End BookService.

(** ** Writing JSON responses (basic-concepts/07_http_testing.go and the
    book REST service) *)
Module Respond.

(** What an [http.ResponseWriter] has been given, as
    [httptest.ResponseRecorder] records it: the header map, the status
    code once [WriteHeader] has run, and the bytes written. *)
Record ResponseWriter : Type := mkResponseWriter {
  Header : gmap string string;
  Code : option Z;
  Written : string
}.

Definition NewRecorder : ResponseWriter :=
  {| Header := ∅; Code := None; Written := "" |}.

(** [w.Header().Set(k, v)] *)
Definition HeaderSet (k v : string) (w : ResponseWriter) : ResponseWriter :=
  {| Header := <[k := v]> (Header w); Code := Code w; Written := Written w |}.

(** [w.WriteHeader(code)]: only the first call sets the status, and that
    call panics ([None]) on a code outside 100..999. *)
Definition WriteHeader (code : Z) (w : ResponseWriter) : option ResponseWriter :=
  match Code w with
  | Some _ => Some w
  | None =>
      if (code <? 100) || (999 <? code) then None
      else Some {| Header := Header w; Code := Some code; Written := Written w |}
  end.

Definition StatusOK : Z := 200.
Definition StatusInternalServerError : Z := 500.

(** [w.Write(b)]: sends status 200 first when no status was sent yet.
    The two functions below only write once the status has been sent; the
    Content-Type that a recorder finds by sniffing, on a write that is the
    first thing done to it, is set where a handler writes that way
    ([MiddlewareServer.Sniff]). *)
Definition Write (b : string) (w : ResponseWriter) : option ResponseWriter :=
  w ← WriteHeader StatusOK w;
  Some {| Header := Header w; Code := Code w; Written := Written w +:+ b |}.

Definition newline : string := String "010"%char "".

(** [json.NewEncoder(w).Encode(v)] for a [Marshal] standing for
    [json.Marshal]: the encoding of [v] followed by a newline goes out in
    one [Write]; nothing is written when [v] cannot be encoded. *)
Definition Encode {payload : Type} (Marshal : payload → option string)
    (v : payload) (w : ResponseWriter) : option ResponseWriter :=
  match Marshal v with
  | Some b => Write (b +:+ newline) w
  | None => Some w
  end.

(** basic-concepts/07_http_testing.go *)
Module HTTPTesting.
Definition respondWithJSON {payload : Type} (Marshal : payload → option string)
    (code : Z) (p : payload) (w : ResponseWriter) : option ResponseWriter :=
  match Marshal p with
  | None => WriteHeader StatusInternalServerError w
  | Some response =>
      let w := HeaderSet "Content-Type" "application/json" w in
      w ← WriteHeader code w;
      Write response w
  end.
End HTTPTesting.

(** The book REST service. *)
Module BookREST.
Definition respondWithJSON {payload : Type} (Marshal : payload → option string)
    (status : Z) (data : payload) (w : ResponseWriter) : option ResponseWriter :=
  let w := HeaderSet "Content-Type" "application/json" w in
  w ← WriteHeader status w;
  Encode Marshal data w.
End BookREST.

(** A few Go values and their [json.Marshal] output: [nil], booleans, and a
    channel, which has no JSON encoding. *)
Inductive sample : Type := Nil | Bool (b : bool) | Chan.

Definition sampleMarshal (v : sample) : option string :=
  match v with
  | Nil => Some "null"
  | Bool true => Some "true"
  | Bool false => Some "false"
  | Chan => None
  end.

Lemma string_app_assoc (a b c : string) : (a +:+ b) +:+ c = a +:+ (b +:+ c).
Proof.
  induction a as [|x a IH]; [done|].
  change (String x ((a +:+ b) +:+ c) = String x (a +:+ (b +:+ c))).
  by rewrite IH.
Qed.

Lemma string_app_newline_ne (a : string) : a ≠ a +:+ newline.
Proof.
  induction a as [|x a IH]; [done|].
  change (String x a ≠ String x (a +:+ newline)). congruence.
Qed.

(** After a successful [WriteHeader] a status is set, so the implicit
    [WriteHeader(200)] of [Write] changes nothing. *)
Lemma WriteHeader_Some code w w' :
  WriteHeader code w = Some w' →
  Header w' = Header w ∧ Written w' = Written w ∧ is_Some (Code w') ∧
  (Code w = None → Code w' = Some code).
Proof.
  unfold WriteHeader. destruct (Code w) eqn:E.
  - intros [= <-]. rewrite E. repeat split; eauto. done.
  - case_match; [done|]. intros [= <-]. simpl. repeat split; eauto.
Qed.

Lemma Write_after_header b w :
  is_Some (Code w) →
  Write b w = Some {| Header := Header w; Code := Code w; Written := Written w +:+ b |}.
Proof. intros [c Hc]. unfold Write, WriteHeader. rewrite Hc. simpl. by rewrite Hc. Qed.

(** C4, as stated, fails: for the payload [nil] and status 200 on a fresh
    writer the two functions write different bodies. *)
Lemma respondWithJSON_bodies_differ :
  Written <$> HTTPTesting.respondWithJSON sampleMarshal 200 Nil NewRecorder = Some "null" ∧
  Written <$> BookREST.respondWithJSON sampleMarshal 200 Nil NewRecorder
    = Some ("null" +:+ newline) ∧
  Written <$> HTTPTesting.respondWithJSON sampleMarshal 200 Nil NewRecorder
    ≠ Written <$> BookREST.respondWithJSON sampleMarshal 200 Nil NewRecorder.
Proof. repeat split. vm_compute. discriminate. Qed.

(** C4, amended: for every status code and every payload that
    [json.Marshal] can encode, the two functions panic on the same inputs
    (an invalid status code on a writer without a status), and otherwise
    leave the same status code and the same headers (with Content-Type
    application/json), while the body written by the book service's
    function is the body written by the HTTP testing file's function
    followed by one newline byte; so the bodies are never equal. *)
Theorem respondWithJSON_same_up_to_newline :
  ∀ (payload : Type) (Marshal : payload → option string)
    (code : Z) (p : payload) (w : ResponseWriter) (b : string),
    Marshal p = Some b →
    let r1 := HTTPTesting.respondWithJSON Marshal code p w in
    let r2 := BookREST.respondWithJSON Marshal code p w in
    (r1 = None ↔ r2 = None) ∧
    (r1 = None ↔ Code w = None ∧ (code < 100 ∨ 999 < code)) ∧
    (∀ w1 w2, r1 = Some w1 → r2 = Some w2 →
       Code w1 = Code w2 ∧
       Header w1 = Header w2 ∧
       Header w1 !! "Content-Type" = Some "application/json" ∧
       (Code w = None → Code w1 = Some code) ∧
       Written w1 = Written w +:+ b ∧
       Written w2 = Written w1 +:+ newline ∧
       Written w1 ≠ Written w2).
Proof.
  intros payload Marshal code p w b Hb r1 r2. subst r1 r2.
  unfold HTTPTesting.respondWithJSON, BookREST.respondWithJSON, Encode.
  rewrite Hb.
  set (w0 := HeaderSet "Content-Type" "application/json" w).
  destruct (WriteHeader code w0) as [wh|] eqn:Hwh; simpl.
  - destruct (WriteHeader_Some _ _ _ Hwh) as (Hh & Hwr & Hc & Hcode).
    rewrite !Write_after_header by done.
    split; [done|]. split.
    + split; [done|]. intros [Hnone Hbad]. exfalso.
      unfold WriteHeader in Hwh. simpl in Hwh. rewrite Hnone in Hwh.
      destruct Hbad as [Hbad|Hbad].
      * by rewrite (proj2 (Z.ltb_lt _ _) Hbad) in Hwh.
      * rewrite (proj2 (Z.ltb_lt _ _) Hbad) in Hwh. by rewrite orb_true_r in Hwh.
    + intros w1 w2 [= <-] [= <-]. simpl. rewrite Hh, Hwr. simpl.
      rewrite lookup_insert_eq, string_app_assoc.
      repeat split; try done.
      rewrite <- string_app_assoc. apply string_app_newline_ne.
  - split; [done|]. split; [|done]. split; [intros _|done].
    unfold WriteHeader in Hwh. simpl in Hwh.
    destruct (Code w); [done|]. split; [done|].
    destruct ((code <? 100) || (999 <? code)) eqn:E; [|done].
    apply orb_true_iff in E as [E|E]; apply Z.ltb_lt in E; lia.
Qed.

(** The amended C4 at the payload [true], status 201 and a fresh writer. *)
Lemma respondWithJSON_same_up_to_newline_witness :
  let r1 := HTTPTesting.respondWithJSON sampleMarshal 201 (Bool true) NewRecorder in
  let r2 := BookREST.respondWithJSON sampleMarshal 201 (Bool true) NewRecorder in
  (r1 = None ↔ r2 = None) ∧
  (r1 = None ↔ Code NewRecorder = None ∧ (201 < 100 ∨ 999 < 201)) ∧
  (∀ w1 w2, r1 = Some w1 → r2 = Some w2 →
     Code w1 = Code w2 ∧
     Header w1 = Header w2 ∧
     Header w1 !! "Content-Type" = Some "application/json" ∧
     (Code NewRecorder = None → Code w1 = Some 201) ∧
     Written w1 = Written NewRecorder +:+ "true" ∧
     Written w2 = Written w1 +:+ newline ∧
     Written w1 ≠ Written w2).
Proof.
  exact (respondWithJSON_same_up_to_newline sample sampleMarshal 201 (Bool true)
           NewRecorder "true" eq_refl).
Defined.

Example respondWithJSON_created :
  (HTTPTesting.respondWithJSON sampleMarshal 201 (Bool true) NewRecorder,
   BookREST.respondWithJSON sampleMarshal 201 (Bool true) NewRecorder)
  = (Some {| Header := {[ "Content-Type" := "application/json" ]};
             Code := Some 201; Written := "true" |},
     Some {| Header := {[ "Content-Type" := "application/json" ]};
             Code := Some 201; Written := "true" +:+ newline |}).
Proof. vm_compute. reflexivity. Qed.

End Respond.

(** ** The rate-limiting middleware (the middleware demo) *)
Module Middleware.

Definition Time : Type := Z.

(** [time.Duration] counts nanoseconds in an [int64]. *)
Definition Minute : Z := 60 * 1000000000.

(** [time.Since(t)] at the clock reading [now]; [Time.Sub] saturates at the
    ends of the [int64] range. *)
Definition Since (now t : Time) : Z := Z.max MinInt (Z.min MaxInt (now - t)).

Definition StatusTooManyRequests : Z := 429.

(** The variables the returned closure captures: [requestCounts] and
    [lastResetTime].  The mutex [mu] serialises the handlers; the model
    runs each request to completion before the next. *)
Record Limiter : Type := mkLimiter {
  requestCounts : gmap string Z;
  lastResetTime : Time
}.

(** [RateLimitMiddleware(n)] called at clock reading [t0]. *)
Definition RateLimitMiddleware (t0 : Time) : Limiter :=
  {| requestCounts := ∅; lastResetTime := t0 |}.

(** A request, with the three clock readings its handler takes: the two
    [time.Since] calls and the [time.Now] of the reset. *)
Record Request : Type := mkRequest {
  RemoteAddr : string;
  tick1 : Time;
  tick2 : Time;
  tick3 : Time
}.

(** What the handler does with the request. *)
Inductive Outcome : Type :=
| Next                               (* next.ServeHTTP(w, r) *)
| Error (msg : string) (code : Z)    (* http.Error(w, msg, code) *).

(** [m[k]] on a [map[string]int] *)
Definition count (m : gmap string Z) (k : string) : Z := default 0 (m !! k).

(** Whether the handler takes the reset branch. *)
Definition resets (r : Request) (st : Limiter) : bool :=
  (Minute <? Since (tick1 r) (lastResetTime st)) &&
  (Minute <? Since (tick2 r) (lastResetTime st)).

(** The handler built by the middleware for limit [requestsPerMinute]. *)
Definition ServeHTTP (requestsPerMinute : Z) (r : Request) (st : Limiter)
  : Outcome * Limiter :=
  let clientIP := RemoteAddr r in
  let st :=
    if Minute <? Since (tick1 r) (lastResetTime st) then
      if Minute <? Since (tick2 r) (lastResetTime st) then
        {| requestCounts := ∅; lastResetTime := tick3 r |}
      else st
    else st in
  let counts := <[clientIP := wrap64 (count (requestCounts st) clientIP + 1)]>
                  (requestCounts st) in
  let count := count counts clientIP in
  let st := {| requestCounts := counts; lastResetTime := lastResetTime st |} in
  if requestsPerMinute <? count
  then (Error "Rate limit exceeded" StatusTooManyRequests, st)
  else (Next, st).

(** The limiter after serving a sequence of requests, oldest first. *)
Definition served (n : Z) (t0 : Time) (reqs : list Request) : Limiter :=
  fold_left (λ st r, (ServeHTTP n r st).2) reqs (RateLimitMiddleware t0).

(** The outcomes of a sequence of requests. *)
Fixpoint outcomes (n : Z) (reqs : list Request) (st : Limiter) : list Outcome :=
  match reqs with
  | [] => []
  | r :: reqs' => (ServeHTTP n r st).1 :: outcomes n reqs' (ServeHTTP n r st).2
  end.

Example three_in_a_minute :
  let r t := {| RemoteAddr := "10.0.0.1:5000"; tick1 := t; tick2 := t; tick3 := t |} in
  outcomes 2 [r 1; r 2; r 3; r (Minute + 1); r (Minute + 2)] (RateLimitMiddleware 0)
  = [Next; Next; Error "Rate limit exceeded" 429; Next; Next].
Proof. vm_compute. reflexivity. Qed.

(** Counts stay between 0 and the number of requests served. *)
Definition bounded (k : Z) (st : Limiter) : Prop :=
  ∀ ip, 0 <= count (requestCounts st) ip <= k.

Lemma count_insert m k v k' :
  count (<[k := v]> m) k' = if decide (k = k') then v else count m k'.
Proof. unfold count. rewrite lookup_insert. by destruct (decide (k = k')). Qed.

Lemma count_empty k : count ∅ k = 0.
Proof. unfold count. by rewrite lookup_empty. Qed.

Lemma ServeHTTP_bounded n r st k :
  0 <= k < MaxInt → bounded k st → bounded (k + 1) (ServeHTTP n r st).2.
Proof.
  intros Hk Hb ip. unfold ServeHTTP.
  set (st1 := if Minute <? Since (tick1 r) (lastResetTime st) then _ else _).
  assert (bounded k st1) as Hb1.
  { subst st1. repeat case_match; try done. intros ip'. simpl. rewrite count_empty. lia. }
  assert (∀ ip', 0 <= count (<[RemoteAddr r := wrap64 (count (requestCounts st1) (RemoteAddr r) + 1)]>
                         (requestCounts st1)) ip' <= k + 1) as Hgoal.
  { intros ip'. rewrite count_insert. pose proof (Hb1 (RemoteAddr r)). pose proof (Hb1 ip').
    case_decide; [|lia]. rewrite wrap64_id; unfold MinInt, MaxInt in *; lia. }
  case_match; simpl; apply Hgoal.
Qed.

Lemma fold_served_bounded n reqs : ∀ st k,
  0 <= k → k + Z.of_nat (length reqs) <= MaxInt → bounded k st →
  bounded (k + Z.of_nat (length reqs)) (fold_left (λ st r, (ServeHTTP n r st).2) reqs st).
Proof.
  induction reqs as [|r reqs IH]; intros st k Hk Hlen Hb.
  - simpl. by rewrite Z.add_0_r.
  - simpl fold_left.
    replace (k + Z.of_nat (length (r :: reqs))) with ((k + 1) + Z.of_nat (length reqs))
      by (simpl length; lia).
    simpl length in Hlen.
    apply IH; [lia|lia|]. apply ServeHTTP_bounded; [lia|done].
Qed.

Lemma served_bounded n t0 reqs :
  Z.of_nat (length reqs) <= MaxInt →
  bounded (Z.of_nat (length reqs)) (served n t0 reqs).
Proof.
  intros Hlen. unfold served.
  apply (fold_served_bounded n reqs (RateLimitMiddleware t0) 0); [lia|lia|].
  intros ip. simpl. rewrite count_empty. lia.
Qed.

Lemma resets_spec r st :
  resets r st = true ↔
  Minute < tick1 r - lastResetTime st ∧ Minute < tick2 r - lastResetTime st.
Proof.
  unfold resets, Since, Minute, MinInt, MaxInt.
  rewrite andb_true_iff, !Z.ltb_lt. lia.
Qed.

(** C1: the middleware as a state machine over the count map and the last
    reset time.  After any sequence of requests (short of overflowing the
    [int] counter), a request that arrives while no more than a minute has
    elapsed since the last reset, from a client that already has [n]
    requests counted, is not passed to the wrapped handler: it is answered
    with 429 and the message Rate limit exceeded.  The map only ever changes
    by counting the client of the request, after a full reset when both
    clock checks find more than a minute elapsed; without the reset no
    client's entry is removed or changed but the requesting one. *)
Theorem rate_limit_blocks_until_reset :
  ∀ (n : Z) (t0 : Time) (reqs : list Request) (r : Request),
    Z.of_nat (length reqs) < MaxInt →
    let st := served n t0 reqs in
    let st' := (ServeHTTP n r st).2 in
    let ip := RemoteAddr r in
    (tick1 r - lastResetTime st <= Minute ∨ tick2 r - lastResetTime st <= Minute →
     n <= count (requestCounts st) ip →
       (ServeHTTP n r st).1 = Error "Rate limit exceeded" StatusTooManyRequests ∧
       (ServeHTTP n r st).1 ≠ Next) ∧
    (resets r st = true ↔
       Minute < tick1 r - lastResetTime st ∧ Minute < tick2 r - lastResetTime st) ∧
    (resets r st = true →
       requestCounts st' = {[ ip := 1 ]} ∧ lastResetTime st' = tick3 r) ∧
    (resets r st = false →
       requestCounts st' = <[ ip := count (requestCounts st) ip + 1 ]> (requestCounts st) ∧
       lastResetTime st' = lastResetTime st ∧
       (∀ k, k ≠ ip → requestCounts st' !! k = requestCounts st !! k) ∧
       (∀ k, is_Some (requestCounts st !! k) → is_Some (requestCounts st' !! k))).
Proof.
  intros n t0 reqs r Hlen st st' ip.
  pose proof (served_bounded n t0 reqs ltac:(lia)) as Hb. fold st in Hb.
  pose proof (resets_spec r st) as Hspec.
  assert (resets r st = false →
          ServeHTTP n r st =
          (if n <? count (requestCounts st) ip + 1
           then Error "Rate limit exceeded" StatusTooManyRequests else Next,
           {| requestCounts := <[ ip := count (requestCounts st) ip + 1 ]> (requestCounts st);
              lastResetTime := lastResetTime st |})) as Hno.
  { intros Hr. unfold ServeHTTP. fold ip.
    assert ((if Minute <? Since (tick1 r) (lastResetTime st)
             then if Minute <? Since (tick2 r) (lastResetTime st)
                  then {| requestCounts := ∅; lastResetTime := tick3 r |} else st
             else st) = st) as ->.
    { unfold resets in Hr. by repeat case_match. }
    rewrite count_insert, decide_True by done.
    pose proof (Hb ip). rewrite wrap64_id by (unfold MinInt, MaxInt in *; lia).
    by case_match. }
  split; [|split; [done|split]].
  - intros Hwin Hn.
    assert (resets r st = false) as Hr.
    { destruct (resets r st); [|done]. destruct (proj1 Hspec eq_refl). lia. }
    rewrite (Hno Hr). simpl.
    rewrite (proj2 (Z.ltb_lt _ _)) by lia. done.
  - intros Hr. subst st'. unfold ServeHTTP. fold ip.
    unfold resets in Hr. apply andb_true_iff in Hr as [-> ->]. simpl.
    rewrite count_empty. rewrite wrap64_id by (unfold MinInt, MaxInt; lia).
    rewrite insert_empty. clear Hno. case_match; split; reflexivity.
  - intros Hr. subst st'. rewrite (Hno Hr). simpl. repeat split.
    + intros k Hk. by rewrite lookup_insert_ne.
    + intros k Hk. destruct (decide (ip = k)) as [->|].
      * rewrite lookup_insert_eq. eauto.
      * by rewrite lookup_insert_ne.
Qed.

(** C1 with limit 2: the third request of a client within the minute is
    refused, and a request after the minute resets the map. *)
Lemma rate_limit_blocks_until_reset_witness :
  let r t := {| RemoteAddr := "10.0.0.1:5000"; tick1 := t; tick2 := t; tick3 := t |} in
  let st := served 2 0 [r 1; r 2] in
  count (requestCounts st) "10.0.0.1:5000" = 2 ∧
  (ServeHTTP 2 (r 3) st).1 = Error "Rate limit exceeded" 429 ∧
  requestCounts (ServeHTTP 2 (r (Minute + 1)) st).2 = {[ "10.0.0.1:5000" := 1 ]}.
Proof.
  set (r t := {| RemoteAddr := "10.0.0.1:5000"; tick1 := t; tick2 := t; tick3 := t |}).
  pose proof (rate_limit_blocks_until_reset 2 0 [r 1; r 2] (r 3) ltac:(vm_compute; reflexivity))
    as (Hblock & _).
  pose proof (rate_limit_blocks_until_reset 2 0 [r 1; r 2] (r (Minute + 1))
                ltac:(vm_compute; reflexivity)) as (_ & _ & Hreset & _).
  split; [vm_compute; reflexivity|]. split.
  - apply Hblock; [left|]; vm_compute; discriminate.
  - apply Hreset. vm_compute. reflexivity.
Defined.

(** The number of requests of [reqs] sent from [ip]. *)
Definition sent_from (ip : string) (reqs : list Request) : Z :=
  Z.of_nat (length (filter (λ r, RemoteAddr r = ip) reqs)).

(** A request for which one of the two clock checks finds no more than a
    minute elapsed since [t]. *)
Definition within_minute (t : Time) (r : Request) : Prop :=
  tick1 r - t <= Minute ∨ tick2 r - t <= Minute.

Lemma ServeHTTP_no_reset n r st k :
  0 <= k < MaxInt → bounded k st → within_minute (lastResetTime st) r →
  ServeHTTP n r st =
    (if n <? count (requestCounts st) (RemoteAddr r) + 1
     then Error "Rate limit exceeded" StatusTooManyRequests else Next,
     {| requestCounts := <[ RemoteAddr r := count (requestCounts st) (RemoteAddr r) + 1 ]>
                           (requestCounts st);
        lastResetTime := lastResetTime st |}).
Proof.
  intros Hk Hb Hwin. unfold ServeHTTP.
  assert (resets r st = false) as Hr.
  { destruct (resets r st) eqn:E; [|done].
    apply resets_spec in E. unfold within_minute in Hwin. lia. }
  assert ((if Minute <? Since (tick1 r) (lastResetTime st)
           then if Minute <? Since (tick2 r) (lastResetTime st)
                then {| requestCounts := ∅; lastResetTime := tick3 r |} else st
           else st) = st) as ->.
  { unfold resets in Hr. by repeat case_match. }
  rewrite count_insert, decide_True by done.
  pose proof (Hb (RemoteAddr r)). rewrite wrap64_id by (unfold MinInt, MaxInt in *; lia).
  by case_match.
Qed.

Lemma sent_from_cons ip r reqs :
  sent_from ip (r :: reqs) = (if decide (RemoteAddr r = ip) then 1 else 0) + sent_from ip reqs.
Proof.
  unfold sent_from. rewrite filter_cons. case_decide; simpl length; lia.
Qed.

Lemma sent_from_nonneg ip reqs : 0 <= sent_from ip reqs.
Proof. unfold sent_from. lia. Qed.

Lemma window_from n t0 reqs : ∀ st k,
  lastResetTime st = t0 → 0 <= k → k + Z.of_nat (length reqs) < MaxInt →
  bounded k st → Forall (within_minute t0) reqs →
  (∀ ip, count (requestCounts (fold_left (λ st r, (ServeHTTP n r st).2) reqs st)) ip
         = count (requestCounts st) ip + sent_from ip reqs) ∧
  lastResetTime (fold_left (λ st r, (ServeHTTP n r st).2) reqs st) = t0 ∧
  ∀ i r, reqs !! i = Some r →
    outcomes n reqs st !! i =
      Some (if n <? count (requestCounts st) (RemoteAddr r)
                    + sent_from (RemoteAddr r) (take i reqs) + 1
            then Error "Rate limit exceeded" StatusTooManyRequests else Next).
Proof.
  induction reqs as [|r reqs IH]; intros st k Ht Hk Hlen Hb Hall.
  - simpl. split; [intros ip; unfold sent_from; simpl; lia|]. split; [done|].
    by intros i r' ?.
  - apply Forall_cons in Hall as [Hr Hall]. simpl length in Hlen.
    assert (within_minute (lastResetTime st) r) as Hr' by by rewrite Ht.
    pose proof (ServeHTTP_no_reset n r st k ltac:(lia) Hb Hr') as Hstep.
    pose proof (ServeHTTP_bounded n r st k ltac:(lia) Hb) as Hb'.
    destruct (IH (ServeHTTP n r st).2 (k + 1)) as (Hc & Hl & Ho);
      [by rewrite Hstep|lia|lia|done|done|].
    simpl fold_left. simpl outcomes. split; [|split; [done|]].
    + intros ip. rewrite Hc, sent_from_cons, Hstep. simpl.
      rewrite count_insert. case_decide; subst; lia.
    + intros [|i] r' Hi; simpl in Hi.
      * injection Hi as <-. simpl. rewrite Hstep. simpl.
        unfold sent_from. simpl. by rewrite Z.add_0_r.
      * simpl lookup. rewrite (Ho i r' Hi). f_equal.
        rewrite Hstep. simpl. rewrite count_insert.
        change (take (S i) (r :: reqs)) with (r :: take i reqs).
        rewrite sent_from_cons.
        destruct (decide (RemoteAddr r = RemoteAddr r')) as [e|e]; [rewrite e|].
        all: match goal with
          | |- (if _ <? ?a then _ else _) = (if _ <? ?b then _ else _) =>
              replace a with b by lia
          end; done.
Qed.

(** X11: a limiter made at time [t0] and a sequence of requests all served
    within the minute (none resets the map): a request is passed on
    exactly when fewer than [n] earlier requests of the sequence came from
    its address, and is answered 429 otherwise; the refused requests are
    counted too, so that in the end each address's count is the number of
    requests it sent. *)
Theorem window_admits_first_n :
  ∀ (n : Z) (t0 : Time) (reqs : list Request),
    Z.of_nat (length reqs) < MaxInt →
    Forall (within_minute t0) reqs →
    (∀ ip, count (requestCounts (served n t0 reqs)) ip = sent_from ip reqs) ∧
    lastResetTime (served n t0 reqs) = t0 ∧
    ∀ i r, reqs !! i = Some r →
      outcomes n reqs (RateLimitMiddleware t0) !! i =
        Some (if n <=? sent_from (RemoteAddr r) (take i reqs)
              then Error "Rate limit exceeded" StatusTooManyRequests else Next).
Proof.
  intros n t0 reqs Hlen Hall.
  destruct (window_from n t0 reqs (RateLimitMiddleware t0) 0) as (Hc & Hl & Ho);
    [done|lia|lia| |done|].
  { intros ip. simpl. rewrite count_empty. lia. }
  split; [|split; [done|]].
  - intros ip. unfold served. rewrite Hc. simpl. rewrite count_empty. lia.
  - intros i r Hi. rewrite (Ho i r Hi). simpl. rewrite count_empty. f_equal.
    destruct (n <=? sent_from (RemoteAddr r) (take i reqs)) eqn:E.
    + apply Z.leb_le in E. by rewrite (proj2 (Z.ltb_lt _ _)) by lia.
    + apply Z.leb_gt in E. by rewrite (proj2 (Z.ltb_ge _ _)) by lia.
Qed.

(** X11 with limit 1 and two clients: each client's second request is
    refused. *)
Lemma window_admits_first_n_witness :
  let r ip t := {| RemoteAddr := ip; tick1 := t; tick2 := t; tick3 := t |} in
  let reqs := [r "a" 1; r "b" 2; r "a" 3; r "b" 4] in
  (∀ ip, count (requestCounts (served 1 0 reqs)) ip = sent_from ip reqs) ∧
  lastResetTime (served 1 0 reqs) = 0 ∧
  ∀ i r, reqs !! i = Some r →
    outcomes 1 reqs (RateLimitMiddleware 0) !! i =
      Some (if 1 <=? sent_from (RemoteAddr r) (take i reqs)
            then Error "Rate limit exceeded" StatusTooManyRequests else Next).
Proof.
  apply (window_admits_first_n 1 0).
  - vm_compute. reflexivity.
  - repeat (apply Forall_cons; split; [left; vm_compute; discriminate|]).
    apply Forall_nil. exact I.
Defined.

End Middleware.

(** ** The middleware server (the middleware demo, second part)

    Handlers run on a world made of the response writer, the rate limiter's
    captured variables and the lines given to [log.Printf]; a handler
    either returns or panics, and what it had done up to the panic stays
    done. *)
Module MiddlewareServer.
Import Respond.

Definition Time : Type := Middleware.Time.

(** What the handlers read of an [*http.Request], and the clock readings
    taken while it is served. *)
Record HRequest : Type := mkHRequest {
  Method : string;
  RequestURI : string;
  APIKey : string;              (* r.Header.Get("X-API-Key") *)
  conn : Middleware.Request;    (* r.RemoteAddr and the limiter's readings *)
  start : Time;                 (* time.Now() of the logging handler *)
  finish : Time                 (* the clock at its time.Since(start) *)
}.

Definition RemoteAddr (r : HRequest) : string := Middleware.RemoteAddr (conn r).

Inductive LogLine : Type :=
| Access (method uri addr : string) (elapsed : Z)   (* "%s %s %s %s" *)
| PanicLine (v : string)                            (* "Panic: %v" *).

Record World : Type := mkWorld {
  w : ResponseWriter;
  limiter : Middleware.Limiter;
  log : list LogLine
}.

Inductive Result : Type :=
| Returned (wd : World)
| Panicked (v : string) (wd : World).

Definition and_then (res : Result) (k : World → Result) : Result :=
  match res with
  | Returned wd => k wd
  | Panicked v wd => Panicked v wd
  end.

Definition Handler : Type := HRequest → World → Result.
Definition Middleware : Type := Handler → Handler.

Definition with_w (wd : World) (w' : ResponseWriter) : World :=
  {| w := w'; limiter := limiter wd; log := log wd |}.

(** [w.Header().Del(k)] *)
Definition HeaderDel (k : string) (w : ResponseWriter) : ResponseWriter :=
  {| Header := delete k (Header w); Code := Code w; Written := Written w |}.

Definition WriteHeaderW (code : Z) (wd : World) : Result :=
  match WriteHeader code (w wd) with
  | Some w' => Returned (with_w wd w')
  | None => Panicked "invalid WriteHeader code" wd
  end.

Definition WriteW (b : string) (wd : World) : Result :=
  match Write b (w wd) with
  | Some w' => Returned (with_w wd w')
  | None => Panicked "invalid WriteHeader code" wd
  end.

Definition Printf (l : LogLine) (wd : World) : World :=
  {| w := w wd; limiter := limiter wd; log := log wd ++ [l] |}.

Definition StatusUnauthorized : Z := 401.

(** [http.Error(w, msg, code)]: drops Content-Length, sets the two
    headers, sends the status and writes the message and a newline. *)
Definition Error (msg : string) (code : Z) (wd : World) : Result :=
  let wd := with_w wd (HeaderDel "Content-Length" (w wd)) in
  let wd := with_w wd (HeaderSet "Content-Type" "text/plain; charset=utf-8" (w wd)) in
  let wd := with_w wd (HeaderSet "X-Content-Type-Options" "nosniff" (w wd)) in
  and_then (WriteHeaderW code wd) (WriteW (msg +:+ newline)).

Definition LoggingMiddleware (next : Handler) : Handler := λ r wd,
  let start := start r in
  and_then (next r wd) (λ wd,
    Returned (Printf (Access (Method r) (RequestURI r) (RemoteAddr r)
                             (Middleware.Since (finish r) start)) wd)).

Definition AuthMiddleware (next : Handler) : Handler := λ r wd,
  let apiKey := APIKey r in
  if bool_decide (apiKey ≠ "valid-api-key")
  then Error "Unauthorized: Invalid API key" StatusUnauthorized wd
  else next r wd.

(** The handler of [RateLimitMiddleware(requestsPerMinute)], with the
    captured variables kept in the world. *)
Definition RateLimitMiddleware (requestsPerMinute : Z) (next : Handler) : Handler :=
  λ r wd,
  let '(o, st) := Middleware.ServeHTTP requestsPerMinute (conn r) (limiter wd) in
  let wd := {| w := w wd; limiter := st; log := log wd |} in
  match o with
  | Middleware.Error msg code => Error msg code wd
  | Middleware.Next => next r wd
  end.

(** The deferred function runs when [next] panics: it logs the value and
    answers 500; the handler then returns normally. *)
Definition RecoveryMiddleware (next : Handler) : Handler := λ r wd,
  match next r wd with
  | Returned wd => Returned wd
  | Panicked err wd =>
      Error "Internal Server Error" StatusInternalServerError (Printf (PanicLine err) wd)
  end.

Definition CORSMiddleware (next : Handler) : Handler := λ r wd,
  let wd := with_w wd (HeaderSet "Access-Control-Allow-Origin" "*" (w wd)) in
  let wd := with_w wd (HeaderSet "Access-Control-Allow-Methods"
                                 "GET, POST, PUT, DELETE, OPTIONS" (w wd)) in
  let wd := with_w wd (HeaderSet "Access-Control-Allow-Headers"
                                 "Content-Type, Authorization" (w wd)) in
  if bool_decide (Method r = "OPTIONS") then WriteHeaderW StatusOK wd
  else next r wd.

Definition Chain (h : Handler) (middlewares : list Middleware) : Handler :=
  foldl (λ h middleware, middleware h) h middlewares.

(** What a [Write] does before anything else when no status has been
    sent: a writer with neither a Content-Type nor a Transfer-Encoding
    gets the Content-Type [http.DetectContentType] finds in the bytes
    written, here [sniffed]. *)
Definition Sniff (sniffed : string) (wd : World) : World :=
  if bool_decide (Code (w wd) = None ∧ Header (w wd) !! "Content-Type" = None
                  ∧ default "" (Header (w wd) !! "Transfer-Encoding") = "")
  then with_w wd (HeaderSet "Content-Type" sniffed (w wd))
  else wd.

(** [fmt.Fprintf(w, "Hello, World!")] is one [Write] of the greeting,
    which [http.DetectContentType] takes for plain text. *)
Definition HelloHandler : Handler := λ r wd,
  WriteW "Hello, World!" (Sniff "text/plain; charset=utf-8" wd).

Definition PanicHandler : Handler := λ r wd, Panicked "This is a deliberate panic!" wd.

(** The two routes of [SetupMiddlewareServer]. *)
Definition hello_route : Handler :=
  Chain HelloHandler
    [LoggingMiddleware; AuthMiddleware; RateLimitMiddleware 10; CORSMiddleware].

Definition panic_route : Handler :=
  Chain PanicHandler [RecoveryMiddleware; LoggingMiddleware].

(** The world a request meets: a new response writer, and the limiter and
    the log as the earlier requests left them. *)
Definition arrive (lim : Middleware.Limiter) (lg : list LogLine) : World :=
  {| w := NewRecorder; limiter := lim; log := lg |}.

(** Requests served one after the other by [h], each on a new writer;
    [None] when a panic leaves [h]. *)
Fixpoint serve (h : Handler) (reqs : list HRequest) (lim : Middleware.Limiter)
    (lg : list LogLine) : option (list ResponseWriter * Middleware.Limiter * list LogLine) :=
  match reqs with
  | [] => Some ([], lim, lg)
  | r :: reqs' =>
      match h r (arrive lim lg) with
      | Panicked _ _ => None
      | Returned wd =>
          '(ws, lim', lg') ← serve h reqs' (limiter wd) (log wd);
          Some (w wd :: ws, lim', lg')
      end
  end.

(** The requests the limiter of [hello_route] gets to see. *)
Definition counted (reqs : list HRequest) : list Middleware.Request :=
  conn <$> filter (λ r, Method r ≠ "OPTIONS") reqs.

(** The status [hello_route] answers with to a client that has [c]
    requests counted. *)
Definition hello_status (c : Z) (r : HRequest) : Z :=
  if bool_decide (Method r = "OPTIONS") then 200
  else if 10 <=? c then 429
  else if bool_decide (APIKey r = "valid-api-key") then 200
  else 401.

Definition cors_headers (h : gmap string string) : Prop :=
  h !! "Access-Control-Allow-Origin" = Some "*" ∧
  h !! "Access-Control-Allow-Methods" = Some "GET, POST, PUT, DELETE, OPTIONS" ∧
  h !! "Access-Control-Allow-Headers" = Some "Content-Type, Authorization".

Lemma Chain_snoc h ms m : Chain h (ms ++ [m]) = m (Chain h ms).
Proof. unfold Chain. by rewrite foldl_app. Qed.

Lemma Error_returns msg code wd :
  100 <= code <= 999 → Code (w wd) = None →
  Error msg code wd =
    Returned {| w := {| Header := <["X-Content-Type-Options" := "nosniff"]>
                                    (<["Content-Type" := "text/plain; charset=utf-8"]>
                                       (delete "Content-Length" (Header (w wd))));
                        Code := Some code;
                        Written := Written (w wd) +:+ (msg +:+ newline) |};
                limiter := limiter wd; log := log wd |}.
Proof.
  intros Hcode Hnone. unfold Error, WriteHeaderW, WriteHeader. simpl. rewrite Hnone.
  rewrite (proj2 (Z.ltb_ge _ _)), (proj2 (Z.ltb_ge _ _)) by lia. reflexivity.
Qed.

Lemma Error_returns_any msg code wd :
  100 <= code <= 999 →
  ∃ wd', Error msg code wd = Returned wd' ∧ limiter wd' = limiter wd ∧ log wd' = log wd
         ∧ is_Some (Code (w wd')).
Proof.
  intros Hcode. unfold Error, WriteHeaderW, WriteHeader. simpl.
  destruct (Code (w wd)) as [c|] eqn:Hc; simpl.
  - unfold WriteW, Write, WriteHeader. simpl. rewrite Hc. simpl.
    eexists. split; [done|]. simpl. rewrite Hc. eauto.
  - rewrite (proj2 (Z.ltb_ge _ _)), (proj2 (Z.ltb_ge _ _)) by lia. simpl.
    eexists. split; [done|]. simpl. eauto.
Qed.

(** One request on [hello_route], whatever the limiter holds. *)
Lemma hello_route_step r lim lg :
  ∃ wd, hello_route r (arrive lim lg) = Returned wd ∧
    cors_headers (Header (w wd)) ∧
    (Method r = "OPTIONS" →
       Code (w wd) = Some 200 ∧ Written (w wd) = "" ∧ limiter wd = lim ∧ log wd = lg) ∧
    (Method r ≠ "OPTIONS" →
       limiter wd = (Middleware.ServeHTTP 10 (conn r) lim).2 ∧
       match (Middleware.ServeHTTP 10 (conn r) lim).1 with
       | Middleware.Error _ _ =>
           Code (w wd) = Some 429 ∧ Written (w wd) = "Rate limit exceeded" +:+ newline
           ∧ log wd = lg
       | Middleware.Next =>
           if bool_decide (APIKey r = "valid-api-key")
           then Code (w wd) = Some 200 ∧ Written (w wd) = "Hello, World!" ∧
                log wd = lg ++ [Access (Method r) (RequestURI r) (RemoteAddr r)
                                       (Middleware.Since (finish r) (start r))]
           else Code (w wd) = Some 401 ∧
                Written (w wd) = "Unauthorized: Invalid API key" +:+ newline ∧
                log wd = lg
       end).
Proof.
  unfold hello_route, Chain. simpl foldl. unfold CORSMiddleware.
  destruct (decide (Method r = "OPTIONS")) as [Ho|Ho].
  { rewrite (bool_decide_true _ Ho). eexists. split; [reflexivity|].
    split; [by vm_compute|]. split; [done|done]. }
  rewrite (bool_decide_false _ Ho). unfold RateLimitMiddleware.
  cbn [limiter with_w arrive w log].
  destruct (Middleware.ServeHTTP 10 (conn r) lim) as [o st] eqn:Hserve.
  pose proof (f_equal fst Hserve) as Ho1. simpl in Ho1.
  assert (o = Middleware.Next ∨ o = Middleware.Error "Rate limit exceeded" 429) as Hcases.
  { revert Ho1. unfold Middleware.ServeHTTP. case_match; simpl; intros <-; auto. }
  destruct Hcases as [-> | ->].
  - unfold AuthMiddleware.
    destruct (decide (APIKey r = "valid-api-key")) as [Hk|Hk].
    + rewrite bool_decide_false by (intros ?; done).
      eexists. split; [reflexivity|]. split; [by vm_compute|]. split; [done|].
      intros _. split; [done|]. simpl. by rewrite (bool_decide_true _ Hk).
    + rewrite bool_decide_true by done.
      eexists. split; [reflexivity|]. split; [by vm_compute|]. split; [done|].
      intros _. split; [done|]. simpl. by rewrite (bool_decide_false _ Hk).
  - eexists. split; [reflexivity|]. split; [by vm_compute|]. split; [done|].
    intros _. split; [done|]. done.
Qed.

(** [Chain] wraps in the order of the list, so that the middleware
    listed last is the outermost one and sees the request first; with no
    middleware the handler is returned as it is. *)
Theorem Chain_last_is_outermost :
  ∀ (h : Handler) (ms : list Middleware) (m : Middleware),
    Chain h [] = h ∧
    Chain h (ms ++ [m]) = m (Chain h ms) ∧
    hello_route =
      CORSMiddleware (RateLimitMiddleware 10 (AuthMiddleware (LoggingMiddleware HelloHandler))) ∧
    panic_route = LoggingMiddleware (RecoveryMiddleware PanicHandler).
Proof. intros h ms m. split; [done|]. split; [apply Chain_snoc|]. done. Qed.

(** X12: a preflight request (method OPTIONS) on /hello is answered 200
    with an empty body and the CORS headers, whatever its API key and
    however many requests its client has made: it is neither counted by
    the rate limiter nor logged. *)
Theorem hello_preflight_untracked :
  ∀ (r : HRequest) (lim : Middleware.Limiter) (lg : list LogLine),
    Method r = "OPTIONS" →
    ∃ wd, hello_route r (arrive lim lg) = Returned wd ∧
      Code (w wd) = Some 200 ∧ Written (w wd) = "" ∧
      cors_headers (Header (w wd)) ∧
      limiter wd = lim ∧ log wd = lg.
Proof.
  intros r lim lg Ho.
  destruct (hello_route_step r lim lg) as (wd & Hr & Hc & Hopt & _).
  destruct (Hopt Ho) as (? & ? & ? & ?). by exists wd.
Qed.

Definition sample_conn (t : Time) : Middleware.Request :=
  {| Middleware.RemoteAddr := "10.0.0.1:5000";
     Middleware.tick1 := t; Middleware.tick2 := t; Middleware.tick3 := t |}.

Definition sample_request (method key : string) (t : Time) : HRequest :=
  {| Method := method; RequestURI := "/hello"; APIKey := key;
     conn := sample_conn t; start := t; finish := t + 5 |}.

(** The greeting goes out as plain text, under the CORS headers. *)
Example hello_greeting :
  (λ res, match res with
          | Returned wd => (Code (w wd), Written (w wd), Header (w wd) !! "Content-Type")
          | Panicked _ _ => (None, "", None)
          end)
    (hello_route (sample_request "GET" "valid-api-key" 1)
       (arrive (Middleware.RateLimitMiddleware 0) []))
  = (Some 200, "Hello, World!", Some "text/plain; charset=utf-8").
Proof. vm_compute. reflexivity. Qed.

(** X12 on a preflight request without an API key. *)
Lemma hello_preflight_untracked_witness :
  ∃ wd, hello_route (sample_request "OPTIONS" "" 1)
          (arrive (Middleware.RateLimitMiddleware 0) []) = Returned wd ∧
    Code (w wd) = Some 200 ∧ Written (w wd) = "" ∧
    cors_headers (Header (w wd)) ∧
    limiter wd = Middleware.RateLimitMiddleware 0 ∧ log wd = [].
Proof.
  apply (hello_preflight_untracked (sample_request "OPTIONS" "" 1)
           (Middleware.RateLimitMiddleware 0) []).
  reflexivity.
Defined.

(** X13: on /hello the rate limiter runs before the API key is looked at.
    Every request other than a preflight is counted, whether its key is
    valid or not; a request over the limit is answered 429 even with a
    valid key; one within the limit is answered 401 without a valid key
    and 200 with the greeting with one.  Only the requests that reach the
    greeting are logged. *)
Theorem hello_limit_before_auth :
  ∀ (r : HRequest) (lim : Middleware.Limiter) (lg : list LogLine),
    Method r ≠ "OPTIONS" →
    ∃ wd, hello_route r (arrive lim lg) = Returned wd ∧
      limiter wd = (Middleware.ServeHTTP 10 (conn r) lim).2 ∧
      ((Middleware.ServeHTTP 10 (conn r) lim).1 ≠ Middleware.Next →
         Code (w wd) = Some 429 ∧ log wd = lg) ∧
      ((Middleware.ServeHTTP 10 (conn r) lim).1 = Middleware.Next →
         APIKey r ≠ "valid-api-key" →
         Code (w wd) = Some 401 ∧ log wd = lg) ∧
      ((Middleware.ServeHTTP 10 (conn r) lim).1 = Middleware.Next →
         APIKey r = "valid-api-key" →
         Code (w wd) = Some 200 ∧ Written (w wd) = "Hello, World!" ∧
         log wd = lg ++ [Access (Method r) (RequestURI r) (RemoteAddr r)
                                (Middleware.Since (finish r) (start r))]).
Proof.
  intros r lim lg Ho.
  destruct (hello_route_step r lim lg) as (wd & Hr & Hc & _ & Hrest).
  destruct (Hrest Ho) as (Hlim & Hcase).
  exists wd. split; [done|]. split; [done|].
  destruct (Middleware.ServeHTTP 10 (conn r) lim).1 as [|msg code].
  - split; [done|]. split.
    + intros _ Hk. rewrite (bool_decide_false _ Hk) in Hcase. by destruct Hcase as (? & ? & ?).
    + intros _ Hk. by rewrite (bool_decide_true _ Hk) in Hcase.
  - destruct Hcase as (? & ? & ?). split; [done|]. split; intros; done.
Qed.

(** X13 on the first request of a client, sent without a key: it is
    answered 401 and counted. *)
Lemma hello_limit_before_auth_witness :
  ∃ wd, hello_route (sample_request "GET" "" 1)
          (arrive (Middleware.RateLimitMiddleware 0) []) = Returned wd ∧
    Code (w wd) = Some 401 ∧
    Middleware.count (Middleware.requestCounts (limiter wd)) "10.0.0.1:5000" = 1.
Proof.
  destruct (hello_limit_before_auth (sample_request "GET" "" 1)
              (Middleware.RateLimitMiddleware 0) []) as (wd & Hr & Hlim & _ & H401 & _).
  - discriminate.
  - exists wd. split; [exact Hr|]. split.
    + apply H401; [reflexivity|discriminate].
    + rewrite Hlim. reflexivity.
Defined.

(** X14: /hello never panics, and every answer it gives, whatever the
    method, the key and the limiter's state, has a status and carries the
    three CORS headers. *)
Theorem hello_always_cors :
  ∀ (r : HRequest) (lim : Middleware.Limiter) (lg : list LogLine),
    ∃ wd, hello_route r (arrive lim lg) = Returned wd ∧
      is_Some (Code (w wd)) ∧ cors_headers (Header (w wd)).
Proof.
  intros r lim lg.
  destruct (hello_route_step r lim lg) as (wd & Hr & Hc & Hopt & Hrest).
  exists wd. split; [done|]. split; [|done].
  destruct (decide (Method r = "OPTIONS")) as [Ho|Ho].
  - destruct (Hopt Ho) as (-> & _). eauto.
  - destruct (Hrest Ho) as (_ & Hcase).
    destruct (Middleware.ServeHTTP 10 (conn r) lim).1.
    + destruct (bool_decide _); destruct Hcase as (-> & _); eauto.
    + destruct Hcase as (-> & _). eauto.
Qed.

(** X15: a handler wrapped in [RecoveryMiddleware] never panics.  When the
    wrapped handler returns, the wrapper changes nothing; when it panics,
    the panic value is logged after what the handler had logged, the
    limiter is as the handler left it, and if no status had been sent the
    answer is 500 with the text Internal Server Error appended to what had
    been written. *)
Theorem Recovery_catches :
  ∀ (next : Handler) (r : HRequest) (wd : World),
    ∃ wd', RecoveryMiddleware next r wd = Returned wd' ∧
      (∀ wd1, next r wd = Returned wd1 → wd' = wd1) ∧
      (∀ v wd1, next r wd = Panicked v wd1 →
         log wd' = log wd1 ++ [PanicLine v] ∧ limiter wd' = limiter wd1 ∧
         (Code (w wd1) = None →
            Code (w wd') = Some 500 ∧
            Written (w wd') = Written (w wd1) +:+ ("Internal Server Error" +:+ newline))).
Proof.
  intros next r wd. unfold RecoveryMiddleware.
  destruct (next r wd) as [wd1|v wd1] eqn:Hnext.
  - exists wd1. split; [done|]. split; [by intros ? [= <-]|]. intros ? ? [=].
  - destruct (Error_returns_any "Internal Server Error" StatusInternalServerError
                (Printf (PanicLine v) wd1)) as (wd' & Herr & Hlim & Hlog & _).
    { unfold StatusInternalServerError. lia. }
    exists wd'. split; [done|]. split; [intros ? [=]|].
    intros v' wd1' [= <- <-]. split; [done|]. split; [done|].
    intros Hnone. rewrite Error_returns in Herr;
      [|unfold StatusInternalServerError; lia|done].
    injection Herr as <-. done.
Qed.

(** X16: /panic answers 500 with the text Internal Server Error and never
    panics, and logs two lines: the panic, then the request.  With the two
    middlewares listed in the other order the answer is the same but the
    request line is lost, the logging handler being left by the panic
    before it logs. *)
Theorem panic_route_logs_both :
  ∀ (r : HRequest) (lim : Middleware.Limiter) (lg : list LogLine),
    let answer := {| Header := <["X-Content-Type-Options" := "nosniff"]>
                                 {["Content-Type" := "text/plain; charset=utf-8"]};
                     Code := Some 500;
                     Written := "Internal Server Error" +:+ newline |} in
    panic_route r (arrive lim lg) =
      Returned {| w := answer; limiter := lim;
                  log := lg ++ [PanicLine "This is a deliberate panic!";
                                Access (Method r) (RequestURI r) (RemoteAddr r)
                                       (Middleware.Since (finish r) (start r))] |} ∧
    Chain PanicHandler [LoggingMiddleware; RecoveryMiddleware] r (arrive lim lg) =
      Returned {| w := answer; limiter := lim;
                  log := lg ++ [PanicLine "This is a deliberate panic!"] |}.
Proof.
  intros r lim lg answer. subst answer.
  unfold panic_route, Chain. simpl foldl.
  unfold LoggingMiddleware, RecoveryMiddleware, PanicHandler. cbn beta iota.
  rewrite !Error_returns by (done || (unfold StatusInternalServerError; lia)).
  simpl. unfold Printf. simpl. rewrite <- (assoc_L (++)). simpl.
  rewrite delete_empty, insert_empty. done.
Qed.

Lemma hello_status_step r lim lg k :
  0 <= k < MaxInt → Middleware.bounded k lim →
  Middleware.within_minute (Middleware.lastResetTime lim) (conn r) →
  ∃ wd, hello_route r (arrive lim lg) = Returned wd ∧
    Code (w wd) = Some (hello_status (Middleware.count (Middleware.requestCounts lim) (RemoteAddr r)) r) ∧
    Middleware.lastResetTime (limiter wd) = Middleware.lastResetTime lim ∧
    Middleware.bounded (k + 1) (limiter wd) ∧
    ∀ ip, Middleware.count (Middleware.requestCounts (limiter wd)) ip =
          Middleware.count (Middleware.requestCounts lim) ip
          + Middleware.sent_from ip (counted [r]).
Proof.
  intros Hk Hb Hwin.
  destruct (hello_route_step r lim lg) as (wd & Hr & Hc & Hopt & Hrest).
  exists wd. split; [done|]. unfold hello_status, counted.
  destruct (decide (Method r = "OPTIONS")) as [Ho|Ho].
  - destruct (Hopt Ho) as (-> & _ & -> & _). rewrite (bool_decide_true _ Ho).
    split; [done|]. split; [done|]. split.
    + intros ip. specialize (Hb ip). lia.
    + intros ip. rewrite filter_cons_False by (intros ?; done).
      unfold Middleware.sent_from. simpl. lia.
  - destruct (Hrest Ho) as (Hlim & Hcase). rewrite (bool_decide_false _ Ho).
    pose proof (Middleware.ServeHTTP_bounded 10 (conn r) lim k Hk Hb) as Hb'.
    rewrite (Middleware.ServeHTTP_no_reset 10 (conn r) lim k Hk Hb Hwin) in Hlim, Hcase.
    simpl in Hlim, Hcase.
    rewrite (Middleware.ServeHTTP_no_reset 10 (conn r) lim k Hk Hb Hwin) in Hb'.
    simpl in Hb'. rewrite Hlim. simpl. split; [|split; [done|split; [done|]]].
    + unfold RemoteAddr.
      destruct (10 <=? Middleware.count (Middleware.requestCounts lim)
                         (Middleware.RemoteAddr (conn r))) eqn:E.
      * apply Z.leb_le in E. rewrite (proj2 (Z.ltb_lt _ _)) in Hcase by lia.
        by destruct Hcase as (-> & _).
      * apply Z.leb_gt in E. rewrite (proj2 (Z.ltb_ge _ _)) in Hcase by lia.
        destruct (bool_decide (APIKey r = "valid-api-key")); by destruct Hcase as (-> & _).
    + intros ip. rewrite filter_cons_True by done. rewrite filter_nil.
      rewrite Middleware.count_insert. unfold Middleware.sent_from. simpl.
      rewrite filter_cons. rewrite filter_nil.
      destruct (decide (Middleware.RemoteAddr (conn r) = ip)); subst; simpl; lia.
Qed.

Lemma counted_cons r reqs : counted (r :: reqs) = counted [r] ++ counted reqs.
Proof.
  unfold counted. rewrite !filter_cons, filter_nil. by case_decide.
Qed.

Lemma sent_from_app ip a b :
  Middleware.sent_from ip (a ++ b) = Middleware.sent_from ip a + Middleware.sent_from ip b.
Proof. unfold Middleware.sent_from. rewrite filter_app, length_app. lia. Qed.

Lemma serve_hello_from t0 reqs : ∀ lim lg k,
  Middleware.lastResetTime lim = t0 → 0 <= k → k + Z.of_nat (length reqs) < MaxInt →
  Middleware.bounded k lim →
  Forall (λ r, Middleware.within_minute t0 (conn r)) reqs →
  ∃ ws lim' lg',
    serve hello_route reqs lim lg = Some (ws, lim', lg') ∧
    length ws = length reqs ∧
    (∀ ip, Middleware.count (Middleware.requestCounts lim') ip
           = Middleware.count (Middleware.requestCounts lim) ip
             + Middleware.sent_from ip (counted reqs)) ∧
    ∀ i r, reqs !! i = Some r →
      Code <$> ws !! i =
        Some (Some (hello_status
                      (Middleware.count (Middleware.requestCounts lim) (RemoteAddr r)
                       + Middleware.sent_from (RemoteAddr r) (counted (take i reqs))) r)).
Proof.
  induction reqs as [|r reqs IH]; intros lim lg k Ht Hk Hlen Hb Hall.
  - simpl. eexists _, _, _. split; [done|]. split; [done|]. split.
    + intros ip. unfold Middleware.sent_from. simpl. lia.
    + by intros i r ?.
  - apply Forall_cons in Hall as [Hr Hall]. simpl length in Hlen.
    destruct (hello_status_step r lim lg k) as (wd & Hrun & Hcode & Hlast & Hb' & Hcount);
      [lia|done|by rewrite Ht|].
    destruct (IH (limiter wd) (log wd) (k + 1)) as (ws & lim' & lg' & Hs & Hws & Hc & Hi);
      [by rewrite Hlast|lia|lia|done|done|].
    simpl serve. rewrite Hrun, Hs. simpl.
    eexists _, _, _. split; [done|]. split; [simpl; by rewrite Hws|]. split.
    + intros ip. rewrite Hc, Hcount, (counted_cons r reqs), sent_from_app. lia.
    + intros [|i] r' Hi'; simpl in Hi'.
      * injection Hi' as <-. simpl. rewrite Hcode. do 3 f_equal.
        unfold Middleware.sent_from, counted. simpl. lia.
      * simpl. rewrite (Hi i r' Hi'). do 3 f_equal.
        change (take (S i) (r :: reqs)) with (r :: take i reqs).
        rewrite Hcount, (counted_cons r (take i reqs)), sent_from_app. lia.
Qed.

(** X17: requests served one after the other on /hello by a server set up
    at time [t0], all within the first minute.  None panics; a preflight
    is answered 200; any other request is answered 429 once its address
    has sent ten earlier requests that were not preflights, whatever their
    keys were, and otherwise 200 with a valid key and 401 without. *)
Theorem hello_statuses :
  ∀ (t0 : Time) (reqs : list HRequest),
    Z.of_nat (length reqs) < MaxInt →
    Forall (λ r, Middleware.within_minute t0 (conn r)) reqs →
    ∃ ws lim lg,
      serve hello_route reqs (Middleware.RateLimitMiddleware t0) [] = Some (ws, lim, lg) ∧
      length ws = length reqs ∧
      ∀ i r, reqs !! i = Some r →
        Code <$> ws !! i =
          Some (Some (hello_status
                        (Middleware.sent_from (RemoteAddr r) (counted (take i reqs))) r)).
Proof.
  intros t0 reqs Hlen Hall.
  destruct (serve_hello_from t0 reqs (Middleware.RateLimitMiddleware t0) [] 0)
    as (ws & lim & lg & Hs & Hws & _ & Hi); [done|lia|lia| |done|].
  { intros ip. simpl. rewrite Middleware.count_empty. lia. }
  exists ws, lim, lg. split; [done|]. split; [done|].
  intros i r Hr. rewrite (Hi i r Hr). simpl. by rewrite Middleware.count_empty.
Qed.

(** X17 on twelve requests of one client, the first ten without a valid
    key: the last two are refused although their key is valid. *)
Lemma hello_statuses_witness :
  let reqs := replicate 10 (sample_request "GET" "" 1)
              ++ [sample_request "GET" "valid-api-key" 2;
                  sample_request "OPTIONS" "" 3] in
  ∃ ws lim lg,
    serve hello_route reqs (Middleware.RateLimitMiddleware 0) [] = Some (ws, lim, lg) ∧
    length ws = length reqs ∧
    ∀ i r, reqs !! i = Some r →
      Code <$> ws !! i =
        Some (Some (hello_status
                      (Middleware.sent_from (RemoteAddr r) (counted (take i reqs))) r)).
Proof.
  apply (hello_statuses 0).
  - vm_compute. reflexivity.
  - repeat (apply Forall_cons; split; [left; vm_compute; discriminate|]).
    apply Forall_nil. exact I.
Defined.

End MiddlewareServer.

(** ** The user handlers (the HTTP testing demo) *)
Module UserService.

Record User : Type := mkUser {
  ID : Z;
  FirstName : string;
  LastName : string;
  Email : string;
  Age : Z
}.

(** [ValidateUser]: the error's text, [None] for [nil]. *)
Definition ValidateUser (u : User) : option string :=
  if bool_decide (FirstName u = "") then Some "first name cannot be empty"
  else if bool_decide (LastName u = "") then Some "last name cannot be empty"
  else if bool_decide (Email u = "") then Some "email cannot be empty"
  else if Age u <? 0 then Some "age cannot be negative"
  else None.

(** [Data] is [None] where the literal leaves the field out. *)
Record Response : Type := mkResponse {
  Status : string;
  Message : string;
  Data : option User;
  Error : string
}.

Inductive Reply : Type :=
| HTTPError (msg : string) (code : Z)             (* http.Error *)
| RespondWithJSON (code : Z) (payload : Response) (* respondWithJSON *).

(** A [UserHandler] is its [users] map, a [gmap string User]. *)

Definition john : User :=
  {| ID := 1; FirstName := "John"; LastName := "Doe";
     Email := "john@example.com"; Age := 30 |}.

Definition NewUserHandler : gmap string User := {[ "1" := john ]}.

(** What the handlers read of a request; [QueryID] is
    [r.URL.Query().Get("id")]. *)
Record Request : Type := mkRequest {
  Method : string;
  QueryID : string;
  Body : string
}.

Definition MethodGet : string := "GET".
Definition MethodPost : string := "POST".
Definition StatusOK : Z := 200.
Definition StatusCreated : Z := 201.
Definition StatusBadRequest : Z := 400.
Definition StatusNotFound : Z := 404.
Definition StatusMethodNotAllowed : Z := 405.

Definition GetUser (r : Request) (h : gmap string User) : Reply :=
  if bool_decide (Method r ≠ MethodGet)
  then HTTPError "Method not allowed" StatusMethodNotAllowed
  else
    let userID := QueryID r in
    if bool_decide (userID = "")
    then RespondWithJSON StatusBadRequest
           {| Status := "error"; Message := ""; Data := None;
              Error := "user ID is required" |}
    else
      match h !! userID with
      | None => RespondWithJSON StatusNotFound
                  {| Status := "error"; Message := ""; Data := None;
                     Error := "user not found" |}
      | Some user => RespondWithJSON StatusOK
                       {| Status := "success"; Message := ""; Data := Some user;
                          Error := "" |}
      end.

Section Create.
(** [json.NewDecoder(r.Body).Decode(&user)], [None] for an error. *)
Variable Decode : string → option User.

(** [fmt.Sprintf("%d", user.ID)] is the decimal numeral, [pretty]. *)
Definition CreateUser (r : Request) (h : gmap string User) : Reply * gmap string User :=
  if bool_decide (Method r ≠ MethodPost)
  then (HTTPError "Method not allowed" StatusMethodNotAllowed, h)
  else
    match Decode (Body r) with
    | None => (RespondWithJSON StatusBadRequest
                 {| Status := "error"; Message := ""; Data := None;
                    Error := "invalid request payload" |}, h)
    | Some user =>
        match ValidateUser user with
        | Some err => (RespondWithJSON StatusBadRequest
                         {| Status := "error"; Message := ""; Data := None;
                            Error := err |}, h)
        | None =>
            let userID := pretty (ID user) in
            let h := <[userID := user]> h in
            (RespondWithJSON StatusCreated
               {| Status := "success"; Message := "User created successfully";
                  Data := Some user; Error := "" |}, h)
        end
    end.

(** The map after a sequence of requests to [CreateUser]. *)
Definition created (reqs : list Request) (h : gmap string User) : gmap string User :=
  foldl (λ h r, (CreateUser r h).2) h reqs.
End Create.

(** Every user is filed under the numeral of its ID and passes
    [ValidateUser]. *)
Definition users_ok (h : gmap string User) : Prop :=
  ∀ k u, h !! k = Some u → k = pretty (ID u) ∧ ValidateUser u = None.

Lemma pretty_N_go_length (x : N) : ∀ s,
  (String.length s <= String.length (pretty_N_go x s))%nat.
Proof.
  induction (N.lt_wf_0 x) as [x _ IH]; intros s.
  assert (x = 0 ∨ 0 < x)%N as [->|?] by lia; [by rewrite pretty_N_go_0|].
  rewrite pretty_N_go_step by done.
  etrans; [|by eapply IH, N.div_lt]. simpl. lia.
Qed.

Lemma pretty_N_nonempty (x : N) : pretty x ≠ "".
Proof.
  unfold pretty, pretty_N. case_decide; [done|].
  rewrite pretty_N_go_step by lia. intros Hnil.
  pose proof (pretty_N_go_length (x `div` 10)
                (String (pretty_N_char (x `mod` 10)) "")) as Hlen.
  rewrite Hnil in Hlen. simpl in Hlen. lia.
Qed.

Lemma pretty_Z_nonempty (x : Z) : pretty x ≠ "".
Proof.
  destruct x as [|p|p]; [done| |done].
  apply (pretty_N_nonempty (Npos p)).
Qed.

Lemma ValidateUser_nil u :
  ValidateUser u = None ↔
  FirstName u ≠ "" ∧ LastName u ≠ "" ∧ Email u ≠ "" ∧ 0 <= Age u.
Proof.
  unfold ValidateUser. repeat case_bool_decide; try (split; [done|tauto]).
  destruct (Age u <? 0) eqn:E.
  - apply Z.ltb_lt in E. split; [done|]. intros (_ & _ & _ & ?). lia.
  - apply Z.ltb_ge in E. done.
Qed.

Lemma NewUserHandler_ok : users_ok NewUserHandler.
Proof.
  intros k u. unfold NewUserHandler. rewrite lookup_singleton_Some.
  intros [<- <-]. split; [|done]. vm_compute. reflexivity.
Qed.

Lemma CreateUser_ok Decode r h : users_ok h → users_ok (CreateUser Decode r h).2.
Proof.
  intros Hok. unfold CreateUser.
  case_bool_decide; [done|].
  destruct (Decode (Body r)) as [user|]; [|done].
  destruct (ValidateUser user) eqn:Hv; [done|]. simpl.
  intros k u. destruct (decide (pretty (ID user) = k)) as [<-|Hne].
  - rewrite lookup_insert_eq. by intros [= <-].
  - rewrite lookup_insert_ne by done. apply Hok.
Qed.

Lemma created_ok Decode reqs : ∀ h, users_ok h → users_ok (created Decode reqs h).
Proof.
  induction reqs as [|r reqs IH]; intros h Hok; [done|].
  apply IH. by apply CreateUser_ok.
Qed.

(** X18: a POST whose body decodes to a user that passes [ValidateUser]
    is answered 201 with the user; a GET with the numeral of its ID then
    answers 200 with the same user, whether or not a user was stored
    under that ID before, and the users filed under other keys are as
    they were. *)
Theorem CreateUser_then_GetUser :
  ∀ (Decode : string → option User) (post get : Request) (h : gmap string User) (u : User),
    Method post = MethodPost → Decode (Body post) = Some u →
    ValidateUser u = None →
    Method get = MethodGet → QueryID get = pretty (ID u) →
    let h' := (CreateUser Decode post h).2 in
    (CreateUser Decode post h).1 =
      RespondWithJSON StatusCreated
        {| Status := "success"; Message := "User created successfully";
           Data := Some u; Error := "" |} ∧
    GetUser get h' =
      RespondWithJSON StatusOK
        {| Status := "success"; Message := ""; Data := Some u; Error := "" |} ∧
    ∀ k, k ≠ pretty (ID u) → h' !! k = h !! k.
Proof.
  intros Decode post get h u Hp Hdec Hv Hg Hq h'. subst h'.
  unfold CreateUser. rewrite bool_decide_false by (intros ?; done).
  rewrite Hdec, Hv. simpl. split; [done|]. split.
  - unfold GetUser. rewrite bool_decide_false by (intros ?; done).
    rewrite Hq, bool_decide_false by apply pretty_Z_nonempty.
    by rewrite lookup_insert_eq.
  - intros k Hk. by rewrite lookup_insert_ne.
Qed.

Definition jane : User :=
  {| ID := 1; FirstName := "Jane"; LastName := "Roe";
     Email := "jane@example.com"; Age := 0 |}.

(** X18 on a user with the ID of the one already stored: the new user
    replaces the old one. *)
Lemma CreateUser_then_GetUser_witness :
  let post := {| Method := "POST"; QueryID := ""; Body := "" |} in
  let get := {| Method := "GET"; QueryID := "1"; Body := "" |} in
  let h' := (CreateUser (λ _, Some jane) post NewUserHandler).2 in
  (CreateUser (λ _, Some jane) post NewUserHandler).1 =
    RespondWithJSON StatusCreated
      {| Status := "success"; Message := "User created successfully";
         Data := Some jane; Error := "" |} ∧
  GetUser get h' =
    RespondWithJSON StatusOK
      {| Status := "success"; Message := ""; Data := Some jane; Error := "" |} ∧
  ∀ k, k ≠ pretty (ID jane) → h' !! k = NewUserHandler !! k.
Proof.
  apply (CreateUser_then_GetUser (λ _, Some jane)
           {| Method := "POST"; QueryID := ""; Body := "" |}
           {| Method := "GET"; QueryID := "1"; Body := "" |} NewUserHandler jane);
    reflexivity.
Defined.

(** X19: [CreateUser] changes the map in one case only: the method is
    POST and the body decodes to a user with a first name, a last name, an
    email and an age that is not negative; it then files the user under
    the numeral of its ID and answers 201.  In every other case the map is
    unchanged and the answer is 405 or 400. *)
Theorem CreateUser_stores_only_valid :
  ∀ (Decode : string → option User) (r : Request) (h : gmap string User),
    (∃ u, Method r = MethodPost ∧ Decode (Body r) = Some u ∧
          FirstName u ≠ "" ∧ LastName u ≠ "" ∧ Email u ≠ "" ∧ 0 <= Age u ∧
          CreateUser Decode r h =
            (RespondWithJSON StatusCreated
               {| Status := "success"; Message := "User created successfully";
                  Data := Some u; Error := "" |},
             <[pretty (ID u) := u]> h)) ∨
    ((CreateUser Decode r h).2 = h ∧
     ((CreateUser Decode r h).1 = HTTPError "Method not allowed" StatusMethodNotAllowed ∨
      ∃ err, (CreateUser Decode r h).1 =
               RespondWithJSON StatusBadRequest
                 {| Status := "error"; Message := ""; Data := None; Error := err |})).
Proof.
  intros Decode r h. unfold CreateUser.
  case_bool_decide as Hm; [right; split; [done|by left]|].
  destruct (Decode (Body r)) as [u|] eqn:Hdec; [|right; split; [done|right; eauto]].
  destruct (ValidateUser u) as [err|] eqn:Hv; [right; split; [done|right; eauto]|].
  left. exists u. apply ValidateUser_nil in Hv as (? & ? & ? & ?).
  split; [by destruct (decide (Method r = MethodPost)); [|destruct Hm]|]. done.
Qed.

(** X20: after any sequence of requests to [CreateUser] on the map of
    [NewUserHandler], [GetUser] never changes anything and answers 200
    only with a user that passes [ValidateUser] and whose ID, written in
    decimal, is the [id] asked for; and it answers 200 for every key that
    is in the map. *)
Theorem GetUser_returns_valid :
  ∀ (Decode : string → option User) (reqs : list Request) (r : Request),
    let h := created Decode reqs NewUserHandler in
    (∀ resp, GetUser r h = RespondWithJSON StatusOK resp →
       ∃ u, Data resp = Some u ∧ pretty (ID u) = QueryID r ∧
            ValidateUser u = None ∧ Method r = MethodGet) ∧
    (Method r = MethodGet → ∀ u, h !! QueryID r = Some u →
       GetUser r h = RespondWithJSON StatusOK
         {| Status := "success"; Message := ""; Data := Some u; Error := "" |}).
Proof.
  intros Decode reqs r h.
  pose proof (created_ok Decode reqs NewUserHandler NewUserHandler_ok) as Hok.
  fold h in Hok. unfold GetUser. split.
  - intros resp. case_bool_decide as Hm; [done|].
    case_bool_decide; [done|].
    destruct (h !! QueryID r) as [u|] eqn:Hu; [|done].
    intros [= <-]. exists u. destruct (Hok _ _ Hu) as [Hk Hv].
    split; [done|]. split; [done|]. split; [done|].
    by destruct (decide (Method r = MethodGet)); [|destruct Hm].
  - intros Hm u Hu. rewrite bool_decide_false by (intros ?; done).
    destruct (Hok _ _ Hu) as [Hk _].
    rewrite bool_decide_false by (rewrite Hk; apply pretty_Z_nonempty).
    by rewrite Hu.
Qed.

End UserService.

(** ** The functions under test (the testing demo) *)
Module Testing.

(** [s[i]] on a Go string: the byte at index [i].  Every read below is
    within [0, len(s)). *)
Definition byte_at (s : string) (i : nat) : ascii :=
  default "000"%char (String.get i s).

Definition is_space_byte (c : ascii) : bool := bool_decide (c = " "%char).

(** The body of the [for i := 0; i < len(s); i++] loop. *)
Definition count_step (s : string) (count : Z) (i : nat) : Z :=
  if is_space_byte (byte_at s i) && (0 <? i)%nat && negb (is_space_byte (byte_at s (i - 1)))
  then wrap64 (count + 1)
  else count.

Definition WordCount (s : string) : Z :=
  if (String.length s =? 0)%nat then 0
  else
    let count := 1 in
    let count := foldl (count_step s) count (seq 0 (String.length s)) in
    let count := if is_space_byte (byte_at s 0) then wrap64 (count - 1) else count in
    let count := if is_space_byte (byte_at s (String.length s - 1))
                 then wrap64 (count - 1) else count in
    count.

(** The number of maximal runs of non-space bytes: a run starts at every
    non-space byte that is first or follows a space. *)
Fixpoint runs_from (prev_space : bool) (s : string) : Z :=
  match s with
  | EmptyString => 0
  | String c s' =>
      if is_space_byte c then runs_from true s'
      else (if prev_space then 1 else 0) + runs_from false s'
  end.

Definition runs (s : string) : Z := runs_from true s.

(** The table of [TestWordCount]. *)
Definition TestWordCount_table : list (string * Z) :=
  [("hello world", 2); ("", 0); ("oneword", 1); ("   spaced   words   ", 2);
   ("1 2 3 4 5", 5)].

Example runs_table :
  Forall (λ tc, runs tc.1 = tc.2) TestWordCount_table.
Proof. repeat constructor. Qed.

(** C8 fails on the code: on the fourth row of the test table the function
    returns 1 where the table, and the count of runs, give 2.  The other
    two values named by the claim are as stated. *)
Theorem WordCount_spaced_words :
  WordCount "   spaced   words   " = 1 ∧
  runs "   spaced   words   " = 2 ∧
  WordCount "" = 0 ∧
  WordCount "hello world" = 2 ∧
  map (λ tc, bool_decide (WordCount tc.1 = tc.2)) TestWordCount_table
    = [true; true; true; false; true].
Proof. repeat split. Qed.

(** The same happens for every leading space: a string of one space gives
    a negative count. *)
Example WordCount_leading_space :
  WordCount " x" = 0 ∧ runs " x" = 1 ∧ WordCount " " = -1 ∧ runs " " = 0.
Proof. repeat split. Qed.

(** *** What the code computes in general *)

(** The number of spaces that follow a non-space byte, for a string whose
    predecessor byte is a space exactly when [prev_space]. *)
Fixpoint ends_from (prev_space : bool) (s : string) : Z :=
  match s with
  | EmptyString => 0
  | String c s' =>
      (if is_space_byte c && negb prev_space then 1 else 0)
      + ends_from (is_space_byte c) s'
  end.

(** Whether the last byte is a space. *)
Fixpoint last_space (prev_space : bool) (s : string) : bool :=
  match s with
  | EmptyString => prev_space
  | String c s' => last_space (is_space_byte c) s'
  end.

(** The loop body seen from a suffix of the string: [prev] is the byte
    before the suffix. *)
Definition suffix_step (prev : ascii) (s : string) (count : Z) (i : nat) : Z :=
  if is_space_byte (byte_at s i)
     && negb (is_space_byte (match i with O => prev | S j => byte_at s j end))
  then wrap64 (count + 1)
  else count.

Lemma foldl_ext {A B} (f g : A → B → A) (l : list B) : ∀ a,
  (∀ a b, f a b = g a b) → foldl f a l = foldl g a l.
Proof.
  induction l as [|b l IH]; intros a Hfg; simpl; [done|].
  rewrite Hfg. by apply IH.
Qed.

Lemma count_step_S c s count i :
  count_step (String c s) count (S i) = suffix_step c s count i.
Proof.
  unfold count_step, suffix_step.
  change (0 <? S i)%nat with true. rewrite andb_true_r.
  change (S i - 1)%nat with (i - 0)%nat. rewrite Nat.sub_0_r.
  destruct i; reflexivity.
Qed.

Lemma suffix_step_S prev c s count i :
  suffix_step prev (String c s) count (S i) = suffix_step c s count i.
Proof. unfold suffix_step. destruct i; reflexivity. Qed.

Lemma foldl_suffix_step s : ∀ prev count,
  0 <= count → count + Z.of_nat (String.length s) <= MaxInt →
  foldl (suffix_step prev s) count (seq 0 (String.length s))
  = count + ends_from (is_space_byte prev) s.
Proof.
  induction s as [|c s IH]; intros prev count Hc Hlen; simpl.
  - lia.
  - rewrite <- fmap_S_seq, foldl_fmap.
    rewrite (foldl_ext _ (suffix_step c s)) by (intros; apply suffix_step_S).
    simpl String.length in Hlen.
    unfold suffix_step at 2. simpl.
    change (byte_at (String c s) 0) with c.
    destruct (is_space_byte c && negb (is_space_byte prev)).
    + rewrite wrap64_id by (unfold MinInt, MaxInt in *; lia).
      rewrite IH by lia. lia.
    + rewrite IH by lia. lia.
Qed.

Lemma ends_from_nonneg s : ∀ p, 0 <= ends_from p s <= Z.of_nat (String.length s).
Proof.
  induction s as [|c s IH]; intros p; simpl; [lia|].
  specialize (IH (is_space_byte c)). case_match; lia.
Qed.

(** Runs that have started are the runs that have ended plus the one
    still open at the end. *)
Lemma runs_ends s : ∀ p : bool,
  (if p then 0 else 1) + runs_from p s
  = ends_from p s + (if last_space p s then 0 else 1).
Proof.
  induction s as [|c s IH]; intros p; simpl; [lia|].
  specialize (IH (is_space_byte c)).
  destruct (is_space_byte c), p; simpl in *; lia.
Qed.

Lemma byte_at_last c s :
  is_space_byte (byte_at (String c s) (String.length s)) = last_space (is_space_byte c) s.
Proof.
  revert c. induction s as [|d s IH]; intros c; [done|].
  simpl String.length. simpl last_space. rewrite <- IH. done.
Qed.

(** On a non-empty string the result is the number of runs, less one when
    the string starts with a space. *)
Lemma foldl_count_step c s :
  Z.of_nat (String.length s) < MaxInt - 1 →
  foldl (count_step (String c s)) 1 (seq 0 (S (String.length s)))
  = 1 + ends_from (is_space_byte c) s.
Proof.
  intros Hlen.
  change (seq 0 (S (String.length s))) with (0%nat :: seq 1 (String.length s)).
  rewrite <- fmap_S_seq. simpl foldl. rewrite foldl_fmap.
  rewrite (foldl_ext _ (suffix_step c s)) by (intros; apply count_step_S).
  assert (count_step (String c s) 1 0 = 1) as ->.
  { unfold count_step. change (0 <? 0)%nat with false. by rewrite andb_false_r. }
  apply foldl_suffix_step; lia.
Qed.

Lemma WordCount_runs c s :
  Z.of_nat (String.length s) < MaxInt - 1 →
  WordCount (String c s) = runs (String c s) - (if is_space_byte c then 1 else 0).
Proof.
  intros Hlen. unfold WordCount, runs.
  change (String.length (String c s)) with (S (String.length s)).
  change (S (String.length s) =? 0)%nat with false. cbv iota zeta.
  rewrite Nat.sub_succ, Nat.sub_0_r, byte_at_last, foldl_count_step by done.
  change (byte_at (String c s) 0) with c.
  pose proof (runs_ends s (is_space_byte c)) as Hruns.
  pose proof (ends_from_nonneg s (is_space_byte c)) as Hends.
  change (runs_from true (String c s))
    with (if is_space_byte c then runs_from true s else 1 + runs_from false s).
  destruct (is_space_byte c), (last_space _ s);
    rewrite ?wrap64_id by (rewrite ?wrap64_id; unfold MinInt, MaxInt in *; lia);
    simpl in *; lia.
Qed.

(** X29: what [WordCount] returns, for every string (shorter than the
    largest [int]): the number of maximal runs of non-space bytes, less one
    when the string starts with a space.  So the count is the number of
    words exactly for the strings that do not start with a space, and one
    too small for all the others. *)
Theorem WordCount_counts_runs :
  ∀ s : string,
    Z.of_nat (String.length s) < MaxInt →
    WordCount s = runs s - (if is_space_byte (byte_at s 0) then 1 else 0) ∧
    (WordCount s = runs s ↔ is_space_byte (byte_at s 0) = false).
Proof.
  intros s Hlen.
  assert (WordCount s = runs s - (if is_space_byte (byte_at s 0) then 1 else 0)) as Heq.
  { destruct s as [|c s]; [reflexivity|].
    apply WordCount_runs. simpl String.length in Hlen. lia. }
  split; [done|]. rewrite Heq. destruct (is_space_byte (byte_at s 0)); split; (done || lia).
Qed.

(** X29 on the fourth row of the table of [TestWordCount]. *)
Lemma WordCount_counts_runs_witness :
  WordCount "   spaced   words   "
    = runs "   spaced   words   "
      - (if is_space_byte (byte_at "   spaced   words   " 0) then 1 else 0) ∧
  (WordCount "   spaced   words   " = runs "   spaced   words   "
   ↔ is_space_byte (byte_at "   spaced   words   " 0) = false).
Proof.
  apply (WordCount_counts_runs "   spaced   words   ").
  vm_compute. reflexivity.
Defined.

End Testing.

(** ** The sorting routines (the sorting demo) *)
Module Sorting.

(** How a call ends: with a value, with a run-time panic (an index out of
    range), or not within the given fuel.  Every call and every loop
    iteration passes the fuel it has, less one, to all that is nested in
    it: the fuel bounds the depth of nested calls and the iterations of
    each single loop, not their total number. *)
Inductive result (A : Type) : Type :=
| Done (a : A)
| Panic
| OutOfFuel.
Arguments Done {A} a.
Arguments Panic {A}.
Arguments OutOfFuel {A}.

#[global] Instance result_bind : MBind result := λ A B f m,
  match m with
  | Done a => f a
  | Panic => Panic
  | OutOfFuel => OutOfFuel
  end.

(** A slice of a (64-bit) Go program holds fewer than [2^62] integers; all
    index arithmetic below stays in range under that bound. *)
Definition maxLen : Z := 2 ^ 62.

Definition len (arr : list Z) : Z := Z.of_nat (length arr).

(** [arr[i]] as a value: panics outside [0, len(arr)). *)
Definition get (arr : list Z) (i : Z) : result Z :=
  if (0 <=? i) && (i <? len arr)
  then match arr !! Z.to_nat i with Some v => Done v | None => Panic end
  else Panic.

(** [arr[i] = v], for an index already read. *)
Definition set (arr : list Z) (i : Z) (v : Z) : list Z := <[Z.to_nat i := v]> arr.

(** *** quickSort *)

(** [for arr[s] < piviot { s++ }] *)
Fixpoint scan_up (fuel : nat) (arr : list Z) (piviot s : Z) : result Z :=
  match fuel with
  | O => OutOfFuel
  | S fuel =>
      v ← get arr s;
      if v <? piviot then scan_up fuel arr piviot (wrap64 (s + 1)) else Done s
  end.

(** [for arr[e] > piviot { e-- }] *)
Fixpoint scan_down (fuel : nat) (arr : list Z) (piviot e : Z) : result Z :=
  match fuel with
  | O => OutOfFuel
  | S fuel =>
      v ← get arr e;
      if piviot <? v then scan_down fuel arr piviot (wrap64 (e - 1)) else Done e
  end.

(** [for s <= e { ... }]: the array and the two cursors when the loop
    exits. *)
Fixpoint partition_loop (fuel : nat) (arr : list Z) (piviot s e : Z)
  : result (list Z * Z * Z) :=
  match fuel with
  | O => OutOfFuel
  | S fuel =>
      if s <=? e then
        s ← scan_up fuel arr piviot s;
        e ← scan_down fuel arr piviot e;
        if s <=? e then
          vs ← get arr s;
          ve ← get arr e;
          (* arr[e], arr[s] = arr[s], arr[e] *)
          let arr := set (set arr e vs) s ve in
          partition_loop fuel arr piviot (wrap64 (s + 1)) (wrap64 (e - 1))
        else partition_loop fuel arr piviot s e
      else Done (arr, s, e)
  end.

Fixpoint quickSort (fuel : nat) (arr : list Z) (low high : Z) : result (list Z) :=
  match fuel with
  | O => OutOfFuel
  | S fuel =>
      if high <=? low then Done arr
      else
        let s := low in
        let e := high in
        let mid := Z.quot (wrap64 (low + high)) 2 in
        piviot ← get arr mid;
        '(arr, s, e) ← partition_loop fuel arr piviot s e;
        arr ← quickSort fuel arr low e;
        quickSort fuel arr s high
  end.

(** *** mergeSort *)

(** [arr[i] = v]: panics outside [0, len(arr)). *)
Definition put (arr : list Z) (i : Z) (v : Z) : result (list Z) :=
  if (0 <=? i) && (i <? len arr) then Done (<[Z.to_nat i := v]> arr) else Panic.

(** [make([]int, n)] *)
Definition make (n : Z) : list Z := replicate (Z.to_nat n) 0.

(** [for i < len(first) && j < len(second) { ... }] *)
Fixpoint merge_both (fuel : nat) (first second mixed : list Z) (i j k : Z)
  : result (list Z * Z * Z * Z) :=
  match fuel with
  | O => OutOfFuel
  | S fuel =>
      if (i <? len first) && (j <? len second) then
        a ← get first i;
        b ← get second j;
        if b <? a then
          mixed ← put mixed k b;
          merge_both fuel first second mixed i (wrap64 (j + 1)) (wrap64 (k + 1))
        else
          mixed ← put mixed k a;
          merge_both fuel first second mixed (wrap64 (i + 1)) j (wrap64 (k + 1))
      else Done (mixed, i, j, k)
  end.

(** [for i < len(src) { mixed[k] = src[i]; k++; i++ }], the shape of the
    second and third loops of [merge]. *)
Fixpoint merge_rest (fuel : nat) (src mixed : list Z) (i k : Z)
  : result (list Z * Z) :=
  match fuel with
  | O => OutOfFuel
  | S fuel =>
      if i <? len src then
        a ← get src i;
        mixed ← put mixed k a;
        merge_rest fuel src mixed (wrap64 (i + 1)) (wrap64 (k + 1))
      else Done (mixed, k)
  end.

Definition merge (fuel : nat) (first second : list Z) : result (list Z) :=
  let mixed := make (wrap64 (len first + len second)) in
  '(mixed, i, j, k) ← merge_both fuel first second mixed 0 0 0;
  '(mixed, k) ← merge_rest fuel first mixed i k;
  '(mixed, k) ← merge_rest fuel second mixed j k;
  Done mixed.

(** The slice expressions [arr[:mid]] and [arr[mid:]] share the array of
    [arr], but [merge] only reads its arguments and writes a fresh slice,
    so slices are carried as lists. *)
Fixpoint mergeSort (fuel : nat) (arr : list Z) : result (list Z) :=
  match fuel with
  | O => OutOfFuel
  | S fuel =>
      if len arr =? 1 then Done arr
      else
        let mid := Z.quot (len arr) 2 in
        left ← mergeSort fuel (take (Z.to_nat mid) arr);
        right ← mergeSort fuel (drop (Z.to_nat mid) arr);
        merge fuel left right
  end.

Definition main_arr : list Z :=
  [23; 54; 24; 1; 4; 3; 6; 90; 21; 87; 546; 42; 12; 45; 87; 1; 2; 7; 8; 0].

Example main_output :
  quickSort 100 main_arr 0 (len main_arr - 1)
  = Done [0; 1; 1; 2; 3; 4; 6; 7; 8; 12; 21; 23; 24; 42; 45; 54; 87; 87; 90; 546].
Proof. vm_compute. reflexivity. Qed.

Example mergeSort_main_arr :
  mergeSort 30 main_arr
  = Done [0; 1; 1; 2; 3; 4; 6; 7; 8; 12; 21; 23; 24; 42; 45; 54; 87; 87; 90; 546].
Proof. vm_compute. reflexivity. Qed.

Example mergeSort_nil_100 : mergeSort 100 [] = OutOfFuel.
Proof. vm_compute. reflexivity. Qed.

(** [arr[i]] for an index known to be in range. *)
Definition sel (arr : list Z) (i : Z) : Z := default 0 (arr !! Z.to_nat i).

Lemma bind_Done {A B} (f : A → result B) (a : A) : (Done a ≫= f) = f a.
Proof. reflexivity. Qed.

Lemma get_in arr i : 0 <= i < len arr → get arr i = Done (sel arr i).
Proof.
  intros Hi. unfold get, sel, len in *.
  rewrite (proj2 (Z.leb_le _ _)), (proj2 (Z.ltb_lt _ _)) by lia. simpl.
  destruct (lookup_lt_is_Some_2 arr (Z.to_nat i) ltac:(lia)) as [v ->]. done.
Qed.

Lemma len_set arr i v : len (set arr i v) = len arr.
Proof. unfold len, set. by rewrite length_insert. Qed.

Lemma sel_set_eq arr i v : 0 <= i < len arr → sel (set arr i v) i = v.
Proof.
  intros Hi. unfold sel, set, len in *.
  rewrite list_lookup_insert_eq by lia. done.
Qed.

Lemma sel_set_ne arr i j v : 0 <= i → 0 <= j → i ≠ j → sel (set arr i v) j = sel arr j.
Proof.
  intros Hi Hj Hne. unfold sel, set.
  rewrite list_lookup_insert_ne by lia. done.
Qed.

Lemma wrap64_small z : - maxLen <= z <= maxLen → wrap64 z = z.
Proof. intros H. apply wrap64_id. unfold maxLen, MinInt, MaxInt in *. lia. Qed.

(** The upward scan stops at the first element not below the pivot, at or
    before any index [k] known to hold such an element. *)
Lemma scan_up_spec arr pv : ∀ fuel s k,
  0 <= s <= k → k < len arr → len arr < maxLen → pv <= sel arr k →
  (Z.to_nat (k - s) < fuel)%nat →
  ∃ s', scan_up fuel arr pv s = Done s' ∧ s <= s' <= k ∧ pv <= sel arr s' ∧
        ∀ i, s <= i < s' → sel arr i < pv.
Proof.
  induction fuel as [|fuel IH]; intros s k Hs Hk Hlen Hpv Hfuel; [lia|].
  simpl. rewrite get_in, bind_Done by lia.
  destruct (sel arr s <? pv) eqn:Hlt.
  - apply Z.ltb_lt in Hlt.
    assert (s ≠ k) by (intros ->; lia).
    rewrite wrap64_small by (unfold maxLen in *; lia).
    destruct (IH (s + 1) k) as (s' & Hrun & Hrange & Hstop & Hbelow); try lia.
    exists s'. split; [done|]. split; [lia|]. split; [done|].
    intros i Hi. destruct (decide (i = s)) as [->|]; [done|]. apply Hbelow. lia.
  - apply Z.ltb_ge in Hlt. exists s. split; [done|]. split; [lia|]. split; [done|].
    intros i Hi. lia.
Qed.

Lemma scan_down_spec arr pv : ∀ fuel e k,
  0 <= k <= e → e < len arr → len arr < maxLen → sel arr k <= pv →
  (Z.to_nat (e - k) < fuel)%nat →
  ∃ e', scan_down fuel arr pv e = Done e' ∧ k <= e' <= e ∧ sel arr e' <= pv ∧
        ∀ i, e' < i <= e → pv < sel arr i.
Proof.
  induction fuel as [|fuel IH]; intros e k He Hk Hlen Hpv Hfuel; [lia|].
  simpl. rewrite get_in, bind_Done by lia.
  destruct (pv <? sel arr e) eqn:Hlt.
  - apply Z.ltb_lt in Hlt.
    assert (e ≠ k) by (intros ->; lia).
    rewrite wrap64_small by (unfold maxLen in *; lia).
    destruct (IH (e - 1) k) as (e' & Hrun & Hrange & Hstop & Habove); try lia.
    exists e'. split; [done|]. split; [lia|]. split; [done|].
    intros i Hi. destruct (decide (i = e)) as [->|]; [done|]. apply Habove. lia.
  - apply Z.ltb_ge in Hlt. exists e. split; [done|]. split; [lia|]. split; [done|].
    intros i Hi. lia.
Qed.

(** Exchanging two elements permutes the list. *)
Lemma insert_head_Permutation (l : list Z) j a b :
  l !! j = Some b → b :: <[j := a]> l ≡ₚ a :: l.
Proof.
  revert j. induction l as [|x l IH]; intros [|j] Hj; simplify_eq/=.
  - apply perm_swap.
  - rewrite perm_swap. rewrite (IH j Hj). apply perm_swap.
Qed.

Lemma swap_Permutation (l : list Z) : ∀ i j a b,
  l !! i = Some a → l !! j = Some b → <[i := b]> (<[j := a]> l) ≡ₚ l.
Proof.
  induction l as [|x l IH]; intros [|i] [|j] a b Hi Hj; simplify_eq/=.
  - done.
  - by apply insert_head_Permutation.
  - by apply insert_head_Permutation.
  - f_equiv. by apply IH.
Qed.

Lemma set_swap_Permutation arr s e :
  0 <= s < len arr → 0 <= e < len arr →
  set (set arr e (sel arr s)) s (sel arr e) ≡ₚ arr.
Proof.
  intros Hs He. unfold set, sel, len in *.
  destruct (lookup_lt_is_Some_2 arr (Z.to_nat s) ltac:(lia)) as [a Ha].
  destruct (lookup_lt_is_Some_2 arr (Z.to_nat e) ltac:(lia)) as [b Hb].
  rewrite Ha, Hb. simpl. by apply swap_Permutation.
Qed.

Lemma sel_swap arr s e i :
  0 <= s < len arr → 0 <= e < len arr → 0 <= i →
  sel (set (set arr e (sel arr s)) s (sel arr e)) i =
    if decide (i = s) then sel arr e
    else if decide (i = e) then sel arr s
    else sel arr i.
Proof.
  intros Hs He Hi. destruct (decide (i = s)) as [->|Hne].
  - rewrite sel_set_eq; [done|]. by rewrite len_set.
  - rewrite sel_set_ne by lia. destruct (decide (i = e)) as [->|Hne'].
    + by rewrite sel_set_eq.
    + by rewrite sel_set_ne by lia.
Qed.

Section Partition.

Variables (arr0 : list Z) (low high pv : Z).
Hypothesis Hlow : 0 <= low.
Hypothesis Hlh : low < high.
Hypothesis Hhigh : high < len arr0.
Hypothesis Hlen : len arr0 < maxLen.

(** The loop invariant of the partition.  [arr] is [arr0] with elements
    exchanged inside [low, high]; everything left of [s] is at most the
    pivot and everything right of [e] is at least the pivot; either the
    loop is at its start with the pivot somewhere in the range, or both
    cursors have moved and, while they have not crossed, each scan still
    has an element to stop at. *)
Definition part_inv (arr : list Z) (s e : Z) : Prop :=
  len arr = len arr0 ∧
  arr ≡ₚ arr0 ∧
  (∀ i, 0 <= i → i < low ∨ high < i → sel arr i = sel arr0 i) ∧
  (∀ i, low <= i <= high → ∃ j, low <= j <= high ∧ sel arr i = sel arr0 j) ∧
  (low <= s <= high + 1 ∧ low - 1 <= e <= high) ∧
  (∀ i, low <= i < s → sel arr i <= pv) ∧
  (∀ i, e < i <= high → pv <= sel arr i) ∧
  ((s = low ∧ e = high ∧ ∃ k, low <= k <= high ∧ sel arr k = pv) ∨
   (low < s ∧ e < high ∧
    (s <= e → (∃ k, s <= k <= high ∧ pv <= sel arr k) ∧
              (∃ k, low <= k <= e ∧ sel arr k <= pv)))).

Lemma partition_loop_spec : ∀ (n fuel : nat) arr s e,
  part_inv arr s e →
  (Z.to_nat (e - s + 1) <= n)%nat →
  (n + length arr0 + 1 <= fuel)%nat →
  ∃ arr' s' e',
    partition_loop fuel arr pv s e = Done (arr', s', e') ∧
    part_inv arr' s' e' ∧ e' < s'.
Proof.
  induction n as [|n IH]; intros fuel arr s e Hinv Hn Hfuel.
  { destruct fuel as [|fuel]; [lia|]. simpl.
    rewrite (proj2 (Z.leb_gt _ _)) by lia.
    exists arr, s, e. repeat split; try apply Hinv. lia. }
  destruct fuel as [|fuel]; [lia|]. simpl.
  destruct (s <=? e) eqn:Hse; cycle 1.
  { apply Z.leb_gt in Hse. exists arr, s, e. split; [done|]. split; [done|lia]. }
  apply Z.leb_le in Hse.
  destruct Hinv as (Hl & Hperm & Hframe & Hmem & Hrange & Hleft & Hright & Hprog).
  assert ((∃ k, s <= k <= high ∧ pv <= sel arr k) ∧
          (∃ k, low <= k <= e ∧ sel arr k <= pv)) as [(k1 & Hk1 & Hpv1) (k2 & Hk2 & Hpv2)].
  { destruct Hprog as [(-> & -> & k & Hk & Hsel)|(_ & _ & Hsent)]; [|by apply Hsent].
    split; exists k; (split; [lia|]); lia. }
  unfold len in *.
  destruct (scan_up_spec arr pv fuel s k1) as (s1 & -> & Hs1 & Hstop1 & Hbelow);
    unfold len; try lia.
  destruct (scan_down_spec arr pv fuel e k2) as (e1 & -> & He1 & Hstop2 & Habove);
    unfold len; try lia.
  rewrite !bind_Done.
  destruct (s1 <=? e1) eqn:Hse1; cycle 1.
  - (* the cursors have crossed: the loop test fails next *)
    apply Z.leb_gt in Hse1.
    apply (IH fuel arr s1 e1); [|lia|lia].
    repeat split; try done; try lia.
    + intros i Hi. destruct (decide (i < s)); [apply Hleft; lia|].
      pose proof (Hbelow i ltac:(lia)). lia.
    + intros i Hi. destruct (decide (e < i)); [apply Hright; lia|].
      pose proof (Habove i ltac:(lia)). lia.
  - (* exchange and move both cursors *)
    apply Z.leb_le in Hse1.
    rewrite !get_in, !bind_Done by (unfold len; lia).
    rewrite !wrap64_small by (unfold maxLen, len in *; lia).
    assert (0 <= s1 < len arr ∧ 0 <= e1 < len arr) as [Hs1r He1r] by (unfold len; lia).
    apply (IH fuel _ (s1 + 1) (e1 - 1)); [|lia|lia].
    split; [by rewrite !len_set|].
    split; [by rewrite set_swap_Permutation|].
    split.
    { intros i Hi Hout. rewrite sel_swap by done.
      rewrite !decide_False by lia. by apply Hframe. }
    split.
    { intros i Hi. rewrite sel_swap by lia.
      destruct (decide (i = s1)); [apply Hmem; lia|].
      destruct (decide (i = e1)); [apply Hmem; lia|]. by apply Hmem. }
    split; [lia|].
    split.
    { intros i Hi. rewrite sel_swap by lia.
      destruct (decide (i = s1)); [done|].
      rewrite decide_False by lia.
      destruct (decide (i < s)); [apply Hleft; lia|].
      pose proof (Hbelow i ltac:(lia)). lia. }
    split.
    { intros i Hi. rewrite sel_swap by lia.
      destruct (decide (i = s1)) as [->|]; [by replace e1 with s1 by lia|].
      destruct (decide (i = e1)); [done|].
      destruct (decide (e < i)); [apply Hright; lia|].
      pose proof (Habove i ltac:(lia)). lia. }
    right. split; [lia|]. split; [lia|]. intros Hcont. split.
    + exists e1. split; [lia|]. rewrite sel_swap by lia.
      rewrite decide_False by lia. by rewrite decide_True.
    + exists s1. split; [lia|]. rewrite sel_swap by lia. by rewrite decide_True.
Qed.

End Partition.

Definition sorted_range (arr : list Z) (low high : Z) : Prop :=
  ∀ i j, low <= i → i <= j → j <= high → sel arr i <= sel arr j.

(** What [quickSort(arr0, low, high)] leaves in the array. *)
Definition qs_post (arr0 arr : list Z) (low high : Z) : Prop :=
  len arr = len arr0 ∧
  arr ≡ₚ arr0 ∧
  (∀ i, 0 <= i → i < low ∨ high < i → sel arr i = sel arr0 i) ∧
  (∀ i, low <= i <= high → ∃ j, low <= j <= high ∧ sel arr i = sel arr0 j) ∧
  sorted_range arr low high.

Lemma part_inv_start arr low high mid :
  low <= mid <= high → part_inv arr low high (sel arr mid) arr low high.
Proof.
  intros Hmid. repeat split; try done; try lia.
  - intros i Hi. by exists i.
  - left. repeat split. by exists mid.
Qed.

Lemma quickSort_spec : ∀ (n fuel : nat) arr low high,
  len arr < maxLen →
  (low < high → 0 <= low ∧ high < len arr) →
  high - low <= Z.of_nat n →
  (n + 2 * length arr + 2 <= fuel)%nat →
  ∃ arr', quickSort fuel arr low high = Done arr' ∧ qs_post arr arr' low high.
Proof.
  induction n as [|n IH]; intros fuel arr low high Hlen Hrange Hn Hfuel;
    (destruct fuel as [|fuel]; [lia|]); simpl.
  { rewrite (proj2 (Z.leb_le _ _)) by lia. exists arr. split; [done|].
    repeat split; try done.
    - intros i Hi. by exists i.
    - intros i j ???. replace j with i by lia. done. }
  destruct (high <=? low) eqn:Hhl.
  { apply Z.leb_le in Hhl. exists arr. split; [done|].
    repeat split; try done.
    - intros i Hi. by exists i.
    - intros i j ???. replace j with i by lia. done. }
  apply Z.leb_gt in Hhl. destruct (Hrange Hhl) as [Hlow Hhigh].
  rewrite wrap64_id by (unfold maxLen, MinInt, MaxInt in *; lia).
  rewrite Z.quot_div_nonneg by lia.
  set (mid := (low + high) / 2).
  assert (low <= mid <= high) as Hmid.
  { subst mid. split; [apply Z.div_le_lower_bound|apply Z.div_le_upper_bound]; lia. }
  rewrite get_in, bind_Done by lia.
  set (pv := sel arr mid).
  destruct (partition_loop_spec arr low high pv Hlow Hhl Hhigh Hlen
              (Z.to_nat (high - low + 1)) fuel arr low high)
    as (arr1 & s' & e' & -> & Hinv & Hcross).
  { by apply part_inv_start. }
  { lia. }
  { unfold len in *. lia. }
  rewrite bind_Done.
  destruct Hinv as (Hl1 & Hperm1 & Hframe1 & Hmem1 & Hrng1 & Hleft1 & Hright1 & Hprog1).
  assert (low < s' ∧ e' < high) as [Hs' He'].
  { destruct Hprog1 as [(-> & -> & _)|(? & ? & _)]; lia. }
  destruct (IH fuel arr1 low e') as (arr2 & -> & Hl2 & Hperm2 & Hframe2 & Hmem2 & Hsort2);
    [lia|lia|lia|unfold len in *; lia|].
  rewrite bind_Done.
  destruct (IH fuel arr2 s' high) as (arr3 & -> & Hl3 & Hperm3 & Hframe3 & Hmem3 & Hsort3);
    [lia|lia|lia|unfold len in *; lia|].
  exists arr3. split; [done|].
  assert (∀ i, low <= i <= e' → sel arr3 i <= pv) as HA.
  { intros i Hi. rewrite Hframe3 by lia.
    destruct (Hmem2 i Hi) as (j & Hj & ->). apply Hleft1. lia. }
  assert (∀ i, s' <= i <= high → pv <= sel arr3 i) as HB.
  { intros i Hi. destruct (Hmem3 i Hi) as (j & Hj & ->).
    rewrite Hframe2 by lia. apply Hright1. lia. }
  assert (∀ i, e' < i < s' → sel arr3 i = pv) as HC.
  { intros i Hi. rewrite Hframe3, Hframe2 by lia.
    pose proof (Hleft1 i ltac:(lia)). pose proof (Hright1 i ltac:(lia)). lia. }
  split; [lia|].
  split; [by rewrite Hperm3, Hperm2|].
  split.
  { intros i Hi Hout. rewrite Hframe3, Hframe2 by lia. by apply Hframe1. }
  split.
  { intros i Hi. destruct (decide (s' <= i)).
    - destruct (Hmem3 i ltac:(lia)) as (j & Hj & ->).
      rewrite Hframe2 by lia. apply Hmem1. lia.
    - rewrite Hframe3 by lia. destruct (decide (i <= e')).
      + destruct (Hmem2 i ltac:(lia)) as (j & Hj & ->). apply Hmem1. lia.
      + rewrite Hframe2 by lia. by apply Hmem1. }
  intros i j Hi Hij Hj.
  destruct (decide (j <= e')).
  { rewrite !Hframe3 by lia. apply Hsort2; lia. }
  destruct (decide (s' <= i)).
  { apply Hsort3; lia. }
  assert (sel arr3 i <= pv).
  { destruct (decide (i <= e')); [apply HA; lia|]. rewrite HC; lia. }
  assert (pv <= sel arr3 j).
  { destruct (decide (s' <= j)); [apply HB; lia|]. rewrite HC; lia. }
  lia.
Qed.

Lemma sel_cons x l i : 0 <= i → sel (x :: l) (i + 1) = sel l i.
Proof.
  intros Hi. unfold sel. by replace (Z.to_nat (i + 1)) with (S (Z.to_nat i)) by lia.
Qed.

Lemma sorted_range_StronglySorted l :
  sorted_range l 0 (len l - 1) → StronglySorted Z.le l.
Proof.
  induction l as [|x l IH]; intros Hs; constructor.
  - apply IH. intros i j Hi Hij Hj.
    rewrite <- (sel_cons x l i), <- (sel_cons x l j) by lia.
    apply Hs; unfold len in *; simpl length in *; lia.
  - apply Forall_lookup. intros k y Hk.
    pose proof (lookup_lt_Some _ _ _ Hk) as Hlt.
    specialize (Hs 0 (Z.of_nat k + 1)). rewrite sel_cons in Hs by lia.
    unfold sel in Hs at 2. rewrite Nat2Z.id, Hk in Hs. simpl in Hs.
    apply Hs; unfold len; simpl length; lia.
Qed.

(** C2: for every integer slice [arr], [quickSort(arr, 0, len(arr)-1)]
    returns (no panic, and with any fuel of at least [3 * len(arr) + 2]
    for the depth of its calls and the iterations of each loop) and leaves
    in [arr] a nondecreasing permutation of its initial contents.  The
    bound on the length is the one every slice of a 64-bit program meets;
    it keeps [low + high] within [int]. *)
Theorem quickSort_sorts :
  ∀ (arr : list Z) (fuel : nat),
    len arr < maxLen →
    (3 * length arr + 2 <= fuel)%nat →
    ∃ arr', quickSort fuel arr 0 (len arr - 1) = Done arr' ∧
            StronglySorted Z.le arr' ∧
            arr' ≡ₚ arr.
Proof.
  intros arr fuel Hlen Hfuel.
  destruct (quickSort_spec (length arr) fuel arr 0 (len arr - 1))
    as (arr' & Hrun & Hl & Hperm & _ & _ & Hsorted);
    [done|lia|unfold len; lia|lia|].
  exists arr'. split; [done|]. split; [|done].
  apply sorted_range_StronglySorted. by rewrite Hl.
Qed.

(** C2 on the array of [main]. *)
Lemma quickSort_sorts_witness :
  ∃ arr', quickSort 62 main_arr 0 (len main_arr - 1) = Done arr' ∧
          StronglySorted Z.le arr' ∧
          arr' ≡ₚ main_arr.
Proof.
  apply (quickSort_sorts main_arr 62).
  - vm_compute. reflexivity.
  - vm_compute. lia.
Defined.

(** *** mergeSort on non-empty slices *)

Lemma put_in arr i v :
  0 <= i < len arr → put arr i v = Done (<[Z.to_nat i := v]> arr).
Proof.
  intros Hi. unfold put.
  by rewrite (proj2 (Z.leb_le _ _)), (proj2 (Z.ltb_lt _ _)) by lia.
Qed.

Lemma take_succ_insert (l : list Z) (k : nat) a :
  (k < length l)%nat → take (S k) (<[k := a]> l) = take k l ++ [a].
Proof.
  intros Hk. rewrite (take_S_r _ _ a) by (by apply list_lookup_insert_eq).
  by rewrite take_insert_ge by lia.
Qed.

Lemma drop_sel (l : list Z) (i : Z) :
  0 <= i < len l → drop (Z.to_nat i) l = sel l i :: drop (Z.to_nat (i + 1)) l.
Proof.
  intros Hi. unfold sel, len in *.
  destruct (lookup_lt_is_Some_2 l (Z.to_nat i) ltac:(lia)) as [v Hv].
  rewrite Hv. simpl. replace (Z.to_nat (i + 1)) with (S (Z.to_nat i)) by lia.
  by rewrite <- drop_S.
Qed.

(** The copying loops append the rest of their source. *)
Lemma merge_rest_spec src : ∀ fuel mixed i k,
  len src < maxLen →
  0 <= i <= len src → 0 <= k → k + (len src - i) <= len mixed → len mixed < maxLen →
  (Z.to_nat (len src - i) < fuel)%nat →
  ∃ mixed',
    merge_rest fuel src mixed i k = Done (mixed', k + (len src - i)) ∧
    len mixed' = len mixed ∧
    take (Z.to_nat (k + (len src - i))) mixed'
      = take (Z.to_nat k) mixed ++ drop (Z.to_nat i) src.
Proof.
  induction fuel as [|fuel IH]; intros mixed i k Hsrc Hi Hk Hroom Hmax Hfuel; [lia|].
  simpl. destruct (i <? len src) eqn:E.
  - apply Z.ltb_lt in E.
    rewrite get_in, bind_Done, put_in, bind_Done by lia.
    rewrite !wrap64_small by (unfold maxLen in *; lia).
    destruct (IH (<[Z.to_nat k := sel src i]> mixed) (i + 1) (k + 1))
      as (mixed' & Hrun & Hlen & Htake);
      try (unfold len in *; rewrite ?length_insert; lia).
    exists mixed'. replace (k + (len src - i)) with (k + 1 + (len src - (i + 1))) by lia.
    split; [done|]. split; [by rewrite Hlen; unfold len; rewrite length_insert|].
    rewrite Htake. replace (Z.to_nat (k + 1)) with (S (Z.to_nat k)) by lia.
    rewrite take_succ_insert by (unfold len in *; lia).
    rewrite (drop_sel src i) by lia. by rewrite <- app_assoc.
  - apply Z.ltb_ge in E. assert (i = len src) as -> by lia.
    exists mixed. replace (k + (len src - len src)) with k by lia.
    split; [done|]. split; [done|].
    unfold len. rewrite Nat2Z.id, drop_all. by rewrite app_nil_r.
Qed.

(** The first loop writes the merge of what it has consumed. *)
Lemma merge_both_spec first second : ∀ fuel mixed i j,
  0 <= i <= len first → 0 <= j <= len second →
  len mixed = len first + len second → len mixed < maxLen →
  (Z.to_nat ((len first - i) + (len second - j)) < fuel)%nat →
  ∃ mixed' i' j',
    merge_both fuel first second mixed i j (i + j) = Done (mixed', i', j', i' + j') ∧
    i <= i' <= len first ∧ j <= j' <= len second ∧
    (i' = len first ∨ j' = len second) ∧
    len mixed' = len mixed ∧
    take (Z.to_nat (i' + j')) mixed'
      ++ list_merge Z.le (drop (Z.to_nat i') first) (drop (Z.to_nat j') second)
    = take (Z.to_nat (i + j)) mixed
      ++ list_merge Z.le (drop (Z.to_nat i) first) (drop (Z.to_nat j) second).
Proof.
  induction fuel as [|fuel IH]; intros mixed i j Hi Hj Hlen Hmax Hfuel; [lia|].
  simpl. destruct ((i <? len first) && (j <? len second)) eqn:E.
  - apply andb_true_iff in E as [E1 E2]. apply Z.ltb_lt in E1, E2.
    rewrite !get_in, !bind_Done by lia.
    rewrite (drop_sel first i), (drop_sel second j) by lia.
    rewrite list_merge_cons.
    destruct (sel second j <? sel first i) eqn:Ecmp.
    + apply Z.ltb_lt in Ecmp. rewrite decide_False by lia.
      rewrite put_in, bind_Done by lia.
      rewrite !wrap64_small by (unfold maxLen in *; lia).
      replace (i + j + 1) with (i + (j + 1)) by lia.
      destruct (IH (<[Z.to_nat (i + j) := sel second j]> mixed) i (j + 1))
        as (mixed' & i' & j' & Hrun & Hi' & Hj' & Hend & Hlen' & Htake);
        try (unfold len in *; rewrite ?length_insert; lia).
      exists mixed', i', j'. split; [done|]. split; [lia|]. split; [lia|].
      split; [done|]. split; [by rewrite Hlen'; unfold len; rewrite length_insert|].
      rewrite Htake. replace (Z.to_nat (i + (j + 1))) with (S (Z.to_nat (i + j))) by lia.
      rewrite take_succ_insert by (unfold len in *; lia).
      rewrite <- app_assoc. simpl. by rewrite <- (drop_sel first i) by lia.
    + apply Z.ltb_ge in Ecmp. rewrite decide_True by lia.
      rewrite put_in, bind_Done by lia.
      rewrite !wrap64_small by (unfold maxLen in *; lia).
      replace (i + j + 1) with ((i + 1) + j) by lia.
      destruct (IH (<[Z.to_nat (i + j) := sel first i]> mixed) (i + 1) j)
        as (mixed' & i' & j' & Hrun & Hi' & Hj' & Hend & Hlen' & Htake);
        try (unfold len in *; rewrite ?length_insert; lia).
      exists mixed', i', j'. split; [done|]. split; [lia|]. split; [lia|].
      split; [done|]. split; [by rewrite Hlen'; unfold len; rewrite length_insert|].
      rewrite Htake. replace (Z.to_nat (i + 1 + j)) with (S (Z.to_nat (i + j))) by lia.
      rewrite take_succ_insert by (unfold len in *; lia).
      rewrite <- app_assoc. simpl. by rewrite <- (drop_sel second j) by lia.
  - exists mixed, i, j. split; [done|]. split; [lia|]. split; [lia|].
    split; [|done].
    apply andb_false_iff in E as [E|E]; apply Z.ltb_ge in E; [left|right]; lia.
Qed.

Lemma merge_spec fuel first second :
  len first + len second < maxLen →
  (length first + length second < fuel)%nat →
  merge fuel first second = Done (list_merge Z.le first second).
Proof.
  intros Hmax Hfuel. unfold merge.
  rewrite wrap64_small by (unfold maxLen, len in *; lia).
  set (mixed := make (len first + len second)).
  assert (len mixed = len first + len second) as Hlen.
  { subst mixed. unfold make, len. rewrite length_replicate. lia. }
  destruct (merge_both_spec first second fuel mixed 0 0)
    as (m1 & i' & j' & Hrun1 & Hi' & Hj' & Hend & Hlen1 & Htake1);
    try (unfold len in *; lia).
  change (0 + 0) with 0 in Hrun1.
  rewrite Hrun1, bind_Done.
  change (Z.to_nat (0 + 0)) with 0%nat in Htake1.
  change (Z.to_nat 0) with 0%nat in Htake1.
  rewrite take_0, !drop_0, app_nil_l in Htake1.
  destruct (merge_rest_spec first fuel m1 i' (i' + j'))
    as (m2 & -> & Hlen2 & Htake2); try (unfold len in *; lia).
  rewrite bind_Done.
  destruct (merge_rest_spec second fuel m2 j' (i' + j' + (len first - i')))
    as (m3 & -> & Hlen3 & Htake3); try (unfold len in *; lia).
  rewrite bind_Done. f_equal.
  rewrite take_ge in Htake3 by (unfold len in *; lia).
  rewrite Htake3, Htake2, <- Htake1, <- app_assoc. f_equal.
  destruct Hend as [-> | ->]; unfold len; rewrite Nat2Z.id, drop_all.
  - by rewrite list_merge_nil_l.
  - by rewrite list_merge_nil_r, app_nil_r.
Qed.

(** On a non-empty slice [mergeSort] returns a sorted permutation. *)
Lemma mergeSort_nonempty : ∀ (n fuel : nat) (arr : list Z),
  (1 <= length arr <= n)%nat → len arr < maxLen →
  (2 * n + 1 <= fuel)%nat →
  ∃ out, mergeSort fuel arr = Done out ∧ Sorted Z.le out ∧ out ≡ₚ arr.
Proof.
  induction n as [|n IH]; intros fuel arr Hn Hmax Hfuel; [lia|].
  destruct fuel as [|fuel]; [lia|]. simpl.
  destruct (len arr =? 1) eqn:E.
  - exists arr. split; [done|]. split; [|done].
    apply Z.eqb_eq in E. destruct arr as [|x [|y arr]]; unfold len in E; simpl in E; try lia.
    repeat constructor.
  - apply Z.eqb_neq in E.
    rewrite Z.quot_div_nonneg by (unfold len; lia).
    set (mid := Z.to_nat (len arr / 2)).
    assert (1 <= mid < length arr)%nat as Hmid.
    { subst mid. unfold len in *.
      assert (1 <= Z.of_nat (length arr) / 2 < Z.of_nat (length arr)); [|lia].
      split; [apply Z.div_le_lower_bound; lia | apply Z.div_lt_upper_bound; lia]. }
    destruct (IH fuel (take mid arr)) as (l & -> & Hsl & Hpl);
      [rewrite length_take; lia | unfold len in *; rewrite length_take; lia | lia |].
    destruct (IH fuel (drop mid arr)) as (r & -> & Hsr & Hpr);
      [rewrite length_drop; lia | unfold len in *; rewrite length_drop; lia | lia |].
    rewrite !bind_Done.
    assert (length l + length r = length arr)%nat as Hlr.
    { rewrite Hpl, Hpr, length_take, length_drop. lia. }
    rewrite merge_spec by (unfold len in *; lia).
    eexists. split; [done|]. split.
    + apply (Sorted_list_merge Z.le); done.
    + by rewrite merge_Permutation, Hpl, Hpr, take_drop.
Qed.

(** C9 fails on the code for the empty slice: the only base case of
    [mergeSort] is [len(arr) == 1], so on an empty slice it calls itself
    on [arr[:0]], again empty, and no number of calls reaches a return. *)
Theorem mergeSort_nil_never_returns :
  ∀ fuel : nat, mergeSort fuel [] = OutOfFuel.
Proof.
  induction fuel as [|fuel IH]; [done|].
  simpl. by rewrite IH.
Qed.

(** *** mergeSortWithIndex and mergeInPlace *)

(** [for i < mid && j < e { ... }] *)
Fixpoint mergeInPlace_both (fuel : nat) (arr mix : list Z) (mid e i j k : Z)
  : result (list Z * Z * Z * Z) :=
  match fuel with
  | O => OutOfFuel
  | S fuel =>
      if (i <? mid) && (j <? e) then
        a ← get arr i;
        b ← get arr j;
        if b <? a then
          mix ← put mix k b;
          mergeInPlace_both fuel arr mix mid e i (wrap64 (j + 1)) (wrap64 (k + 1))
        else
          mix ← put mix k a;
          mergeInPlace_both fuel arr mix mid e (wrap64 (i + 1)) j (wrap64 (k + 1))
      else Done (mix, i, j, k)
  end.

(** [for i < bound { mix[k] = arr[i]; k++; i++ }], the shape of the second
    and third loops of [mergeInPlace]. *)
Fixpoint mergeInPlace_rest (fuel : nat) (arr mix : list Z) (bound i k : Z)
  : result (list Z * Z) :=
  match fuel with
  | O => OutOfFuel
  | S fuel =>
      if i <? bound then
        a ← get arr i;
        mix ← put mix k a;
        mergeInPlace_rest fuel arr mix bound (wrap64 (i + 1)) (wrap64 (k + 1))
      else Done (mix, k)
  end.

(** [for l := 0; l < len(mix); l++ { arr[s+l] = mix[l] }] *)
Fixpoint copy_back (fuel : nat) (arr mix : list Z) (s l : Z) : result (list Z) :=
  match fuel with
  | O => OutOfFuel
  | S fuel =>
      if l <? len mix then
        v ← get mix l;
        arr ← put arr (wrap64 (s + l)) v;
        copy_back fuel arr mix s (wrap64 (l + 1))
      else Done arr
  end.

(** [make] panics on a negative length. *)
Definition mergeInPlace (fuel : nat) (arr : list Z) (mid s e : Z) : result (list Z) :=
  let n := wrap64 (e - s) in
  if n <? 0 then Panic
  else
    let mix := make n in
    '(mix, i, j, k) ← mergeInPlace_both fuel arr mix mid e s mid 0;
    '(mix, k) ← mergeInPlace_rest fuel arr mix mid i k;
    '(mix, k) ← mergeInPlace_rest fuel arr mix e j k;
    copy_back fuel arr mix s 0.

(** The slice is sorted in place: the array is passed on from call to
    call. *)
Fixpoint mergeSortWithIndex (fuel : nat) (arr : list Z) (s e : Z) : result (list Z) :=
  match fuel with
  | O => OutOfFuel
  | S fuel =>
      if wrap64 (e - s) =? 1 then Done arr
      else
        let mid := Z.quot (wrap64 (s + e)) 2 in
        arr ← mergeSortWithIndex fuel arr s mid;
        arr ← mergeSortWithIndex fuel arr mid e;
        mergeInPlace fuel arr mid s e
  end.

Example mergeSortWithIndex_main_arr :
  mergeSortWithIndex 30 main_arr 0 (len main_arr)
  = Done [0; 1; 1; 2; 3; 4; 6; 7; 8; 12; 21; 23; 24; 42; 45; 54; 87; 87; 90; 546].
Proof. vm_compute. reflexivity. Qed.

Lemma ltb_shift a x y : (a + x <? a + y) = (x <? y).
Proof. destruct (Z.ltb_spec x y), (Z.ltb_spec (a + x) (a + y)); try done; lia. Qed.

Lemma len_app (l k : list Z) : len (l ++ k) = len l + len k.
Proof. unfold len. rewrite length_app. lia. Qed.

Lemma len_nonneg (l : list Z) : 0 <= len l.
Proof. unfold len. lia. Qed.

Lemma get_app_r pre rest i : 0 <= i → get (pre ++ rest) (len pre + i) = get rest i.
Proof.
  intros Hi. unfold get. rewrite len_app, ltb_shift.
  pose proof (len_nonneg pre).
  rewrite (proj2 (Z.leb_le 0 (len pre + i))), (proj2 (Z.leb_le 0 i)) by lia.
  replace (Z.to_nat (len pre + i)) with (length pre + Z.to_nat i)%nat
    by (unfold len; lia).
  rewrite lookup_app_r by lia.
  by replace (length pre + Z.to_nat i - length pre)%nat with (Z.to_nat i) by lia.
Qed.

Lemma get_app_l b rest i : 0 <= i < len b → get (b ++ rest) i = get b i.
Proof.
  intros Hi. unfold get. rewrite len_app. pose proof (len_nonneg rest).
  rewrite (proj2 (Z.leb_le 0 i)), !(proj2 (Z.ltb_lt i _)) by lia. simpl.
  by rewrite lookup_app_l by (unfold len in *; lia).
Qed.

(** The loops of [mergeInPlace] on [pre ++ b1 ++ b2 ++ post] do what the
    loops of [merge] do on [b1] and [b2]. *)
Lemma mergeInPlace_rest_sim arr off src :
  (∀ i, 0 <= i < len src → get arr (off + i) = get src i) →
  0 <= off → off + len src < maxLen →
  ∀ fuel mix i k, 0 <= i →
    mergeInPlace_rest fuel arr mix (off + len src) (off + i) k
    = merge_rest fuel src mix i k.
Proof.
  intros Hget Hoff Hmax. induction fuel as [|fuel IH]; intros mix i k Hi; [done|].
  simpl. rewrite ltb_shift. destruct (i <? len src) eqn:E; [|done].
  apply Z.ltb_lt in E. rewrite Hget by lia.
  destruct (get src i) as [a| |]; simpl; [|done|done].
  destruct (put mix k a) as [mix'| |]; simpl; [|done|done].
  rewrite (wrap64_small (off + i + 1)), (wrap64_small (i + 1))
    by (unfold maxLen in *; lia).
  replace (off + i + 1) with (off + (i + 1)) by lia. apply IH. lia.
Qed.

Lemma mergeInPlace_both_sim pre b1 b2 post :
  len (pre ++ b1 ++ b2 ++ post) < maxLen →
  ∀ fuel mix i j k, 0 <= i → 0 <= j →
    mergeInPlace_both fuel (pre ++ b1 ++ b2 ++ post) mix
      (len pre + len b1) (len pre + len b1 + len b2)
      (len pre + i) (len pre + len b1 + j) k
    = merge_both fuel b1 b2 mix i j k ≫=
        (λ '(m, i', j', k'), Done (m, len pre + i', len pre + len b1 + j', k')).
Proof.
  intros Hmax. rewrite !len_app in Hmax.
  pose proof (len_nonneg pre). pose proof (len_nonneg b1).
  pose proof (len_nonneg b2). pose proof (len_nonneg post).
  induction fuel as [|fuel IH]; intros mix i j k Hi Hj; [done|].
  simpl. rewrite !ltb_shift.
  destruct ((i <? len b1) && (j <? len b2)) eqn:E; [|done].
  apply andb_true_iff in E as [E1 E2]. apply Z.ltb_lt in E1, E2.
  rewrite (get_app_r pre _ i), (get_app_l b1 _ i) by lia.
  replace (len pre + len b1 + j) with (len pre + (len b1 + j)) by lia.
  rewrite (get_app_r pre _ (len b1 + j)), (get_app_r b1 _ j), (get_app_l b2 _ j) by lia.
  rewrite !get_in, !bind_Done by lia.
  destruct (sel b2 j <? sel b1 i).
  - destruct (put mix k (sel b2 j)) as [mix'| |]; simpl; [|done|done].
    rewrite (wrap64_small (len pre + (len b1 + j) + 1)), (wrap64_small (j + 1))
      by (unfold maxLen in *; lia).
    replace (len pre + (len b1 + j) + 1) with (len pre + len b1 + (j + 1)) by lia.
    apply IH; lia.
  - destruct (put mix k (sel b1 i)) as [mix'| |]; simpl; [|done|done].
    rewrite (wrap64_small (len pre + i + 1)), (wrap64_small (i + 1))
      by (unfold maxLen in *; lia).
    replace (len pre + i + 1) with (len pre + (i + 1)) by lia.
    replace (len pre + (len b1 + j)) with (len pre + len b1 + j) by lia.
    apply IH; lia.
Qed.

Lemma copy_back_spec pre old post mix :
  len old = len mix → len (pre ++ old ++ post) < maxLen →
  ∀ fuel l, 0 <= l <= len mix → (Z.to_nat (len mix - l) < fuel)%nat →
    copy_back fuel (pre ++ take (Z.to_nat l) mix ++ drop (Z.to_nat l) old ++ post)
              mix (len pre) l
    = Done (pre ++ mix ++ post).
Proof.
  intros Hlen Hmax. rewrite !len_app in Hmax.
  pose proof (len_nonneg pre). pose proof (len_nonneg post).
  induction fuel as [|fuel IH]; intros l Hl Hfuel; [lia|].
  simpl. destruct (l <? len mix) eqn:E.
  - apply Z.ltb_lt in E. rewrite get_in, bind_Done by lia.
    rewrite !wrap64_small by (unfold maxLen in *; lia).
    rewrite put_in.
    2:{ rewrite !len_app. unfold len in *.
        rewrite length_take, length_drop. lia. }
    rewrite bind_Done.
    replace (Z.to_nat (len pre + l)) with (length pre + Z.to_nat l)%nat
      by (unfold len; lia).
    rewrite insert_app_r.
    replace (Z.to_nat l) with (length (take (Z.to_nat l) mix) + 0)%nat at 1
      by (rewrite length_take; unfold len in *; lia).
    rewrite insert_app_r.
    rewrite (drop_sel old l) by lia. simpl.
    replace (pre ++ take (Z.to_nat l) mix ++ sel mix l :: drop (Z.to_nat (l + 1)) old ++ post)
      with (pre ++ take (Z.to_nat (l + 1)) mix ++ drop (Z.to_nat (l + 1)) old ++ post).
    + apply IH; lia.
    + f_equal. replace (Z.to_nat (l + 1)) with (S (Z.to_nat l)) by lia.
      unfold sel.
      destruct (lookup_lt_is_Some_2 mix (Z.to_nat l) ltac:(unfold len in *; lia)) as [v Hv].
      rewrite Hv. simpl. rewrite (take_S_r _ _ v) by done.
      by rewrite <- app_assoc.
  - apply Z.ltb_ge in E. assert (l = len mix) as -> by lia.
    rewrite take_ge, drop_ge by (unfold len in *; lia). done.
Qed.

Lemma mergeInPlace_spec fuel pre b1 b2 post :
  len (pre ++ b1 ++ b2 ++ post) < maxLen →
  (length b1 + length b2 < fuel)%nat →
  mergeInPlace fuel (pre ++ b1 ++ b2 ++ post)
    (len pre + len b1) (len pre) (len pre + len b1 + len b2)
  = Done (pre ++ list_merge Z.le b1 b2 ++ post).
Proof.
  intros Hmax Hfuel. pose proof Hmax as Hmax'. rewrite !len_app in Hmax'.
  pose proof (len_nonneg pre). pose proof (len_nonneg b1).
  pose proof (len_nonneg b2). pose proof (len_nonneg post).
  pose proof (merge_spec fuel b1 b2 ltac:(lia) Hfuel) as Hmerge.
  unfold merge in Hmerge. unfold mergeInPlace.
  replace (len pre + len b1 + len b2 - len pre) with (len b1 + len b2) by lia.
  rewrite wrap64_small in Hmerge |- * by (unfold maxLen in *; lia).
  rewrite (proj2 (Z.ltb_ge _ _)) by lia.
  set (mix := make (len b1 + len b2)) in *.
  assert (len mix = len b1 + len b2) as Hlen.
  { subst mix. unfold make, len. rewrite length_replicate. lia. }
  pose proof (mergeInPlace_both_sim pre b1 b2 post Hmax fuel mix 0 0 0
                ltac:(lia) ltac:(lia)) as Hsim.
  rewrite !Z.add_0_r in Hsim. rewrite Hsim. clear Hsim.
  destruct (merge_both_spec b1 b2 fuel mix 0 0)
    as (m1 & i' & j' & Hrun1 & Hi' & Hj' & Hend & Hlen1 & _);
    try (unfold len in *; lia).
  change (0 + 0) with 0 in Hrun1. rewrite Hrun1 in Hmerge |- *.
  rewrite bind_Done in Hmerge. rewrite !bind_Done.
  rewrite (mergeInPlace_rest_sim _ (len pre) b1) by
    (try (intros i Hi; rewrite (get_app_r pre _ i), (get_app_l b1 _ i) by lia; done);
     unfold maxLen in *; lia).
  destruct (merge_rest fuel b1 m1 i' (i' + j')) as [[m2 k2]| |]; [|done|done].
  rewrite bind_Done in Hmerge. rewrite !bind_Done.
  rewrite (mergeInPlace_rest_sim _ (len pre + len b1) b2) by
    (try (intros i Hi; replace (len pre + len b1 + i) with (len pre + (len b1 + i)) by lia;
          rewrite (get_app_r pre _ (len b1 + i)), (get_app_r b1 _ i), (get_app_l b2 _ i) by lia;
          done);
     unfold maxLen in *; lia).
  destruct (merge_rest fuel b2 m2 j' k2) as [[m3 k3]| |]; [|done|done].
  rewrite bind_Done in Hmerge. rewrite !bind_Done. injection Hmerge as ->.
  assert (length (list_merge Z.le b1 b2) = (length b1 + length b2)%nat) as Hlm.
  { by rewrite merge_Permutation, length_app. }
  pose proof (copy_back_spec pre (b1 ++ b2) post (list_merge Z.le b1 b2)) as Hcopy.
  rewrite <- !app_assoc in Hcopy.
  specialize (Hcopy ltac:(unfold len; rewrite Hlm, length_app; lia) Hmax fuel 0).
  change (Z.to_nat 0) with 0%nat in Hcopy. rewrite take_0, drop_0 in Hcopy.
  rewrite app_nil_l, <- app_assoc in Hcopy.
  apply Hcopy; unfold len; rewrite Hlm; lia.
Qed.

Lemma mergeSortWithIndex_spec : ∀ (n fuel : nat) (pre body post : list Z),
  (1 <= length body <= n)%nat → len (pre ++ body ++ post) < maxLen →
  (2 * n + 1 <= fuel)%nat →
  ∃ body',
    mergeSortWithIndex fuel (pre ++ body ++ post) (len pre) (len pre + len body)
      = Done (pre ++ body' ++ post) ∧
    Sorted Z.le body' ∧ body' ≡ₚ body.
Proof.
  induction n as [|n IH]; intros fuel pre body post Hn Hmax Hfuel; [lia|].
  destruct fuel as [|fuel]; [lia|]. simpl.
  pose proof Hmax as Hmax'. rewrite !len_app in Hmax'.
  pose proof (len_nonneg pre). pose proof (len_nonneg post).
  pose proof (len_nonneg body).
  replace (len pre + len body - len pre) with (len body) by lia.
  rewrite (wrap64_small (len body)) by (unfold maxLen in *; lia).
  destruct (len body =? 1) eqn:E.
  - exists body. split; [done|]. split; [|done].
    apply Z.eqb_eq in E. destruct body as [|x [|y body]]; unfold len in E; simpl in E; try lia.
    repeat constructor.
  - apply Z.eqb_neq in E.
    rewrite wrap64_id by (unfold maxLen, MinInt, MaxInt, len in *; lia).
    rewrite Z.quot_div_nonneg by (unfold len in *; lia).
    replace (len pre + (len pre + len body)) with (len pre * 2 + len body) by lia.
    rewrite Z.div_add_l by lia.
    set (mid := Z.to_nat (len body / 2)).
    assert (1 <= mid < length body)%nat as Hmid.
    { subst mid. unfold len in *.
      assert (1 <= Z.of_nat (length body) / 2 < Z.of_nat (length body)); [|lia].
      split; [apply Z.div_le_lower_bound; lia | apply Z.div_lt_upper_bound; lia]. }
    assert (len body / 2 = len (take mid body)) as ->.
    { unfold len. rewrite length_take. subst mid. unfold len in *. lia. }
    assert (body = take mid body ++ drop mid body) as Hbody by (by rewrite take_drop).
    assert (1 <= length (take mid body) <= n)%nat as Hn1 by (rewrite length_take; lia).
    assert (1 <= length (drop mid body) <= n)%nat as Hn2 by (rewrite length_drop; lia).
    remember (take mid body) as b1 eqn:Eb1. remember (drop mid body) as b2 eqn:Eb2.
    clear Eb1 Eb2 Hmid mid E Hn. subst body.
    rewrite !len_app in *. rewrite <- !app_assoc in *.
    destruct (IH fuel pre b1 (b2 ++ post)) as (l & -> & Hsl & Hpl);
      [done|rewrite !len_app; lia|lia|].
    rewrite bind_Done.
    assert (len l = len b1) as Hll by (unfold len; by rewrite Hpl).
    rewrite <- Hll.
    replace (pre ++ l ++ b2 ++ post) with ((pre ++ l) ++ b2 ++ post)
      by (by rewrite <- app_assoc).
    replace (len pre + len l) with (len (pre ++ l)) by apply len_app.
    replace (len pre + (len l + len b2))
      with (len (pre ++ l) + len b2) by (rewrite len_app; lia).
    destruct (IH fuel (pre ++ l) b2 post) as (r & -> & Hsr & Hpr);
      [done|rewrite !len_app; lia|lia|].
    rewrite bind_Done.
    assert (len r = len b2) as Hlr by (unfold len; by rewrite Hpr).
    rewrite <- Hlr. rewrite <- !app_assoc. rewrite len_app.
    rewrite mergeInPlace_spec.
    + eexists. split; [done|]. split.
      * by apply (Sorted_list_merge Z.le).
      * by rewrite merge_Permutation, Hpl, Hpr.
    + rewrite !len_app. lia.
    + unfold len in *. lia.
Qed.

(** *** The sorting functions, as their callers see them *)

(** X23: [mergeSort] on a slice that is not empty returns, without a
    panic, a nondecreasing permutation of the slice; on a slice of one
    element it returns the slice itself.  Fuel of [2 * len(arr) + 1] is
    enough: no chain of nested calls is deeper and no single loop of
    [merge] runs longer than that (the total number of calls and
    iterations is larger, and is not what the fuel counts). *)
Theorem mergeSort_sorts :
  ∀ (arr : list Z) (fuel : nat),
    arr ≠ [] → len arr < maxLen → (2 * length arr + 1 <= fuel)%nat →
    ∃ out, mergeSort fuel arr = Done out ∧ Sorted Z.le out ∧ out ≡ₚ arr ∧
           (len arr = 1 → out = arr).
Proof.
  intros arr fuel Hne Hmax Hfuel.
  destruct (mergeSort_nonempty (length arr) fuel arr) as (out & Hrun & Hs & Hp);
    [destruct arr; [done|simpl; lia]|done|done|].
  exists out. split; [done|]. split; [done|]. split; [done|].
  intros H1. destruct fuel as [|fuel]; [lia|]. simpl in Hrun.
  rewrite H1 in Hrun. simpl in Hrun. by injection Hrun as <-.
Qed.

(** X23 on the array of [main]. *)
Lemma mergeSort_sorts_witness :
  ∃ out, mergeSort 41 main_arr = Done out ∧ Sorted Z.le out ∧ out ≡ₚ main_arr ∧
         (len main_arr = 1 → out = main_arr).
Proof.
  apply (mergeSort_sorts main_arr 41).
  - discriminate.
  - vm_compute. reflexivity.
  - vm_compute. lia.
Defined.

(** X24: [merge] never panics and returns, in a fresh slice, the elements
    of its two arguments; the result is nondecreasing when both arguments
    are, and it is the other argument when one is empty. *)
Theorem merge_sorted :
  ∀ (first second : list Z) (fuel : nat),
    len first + len second < maxLen → (length first + length second < fuel)%nat →
    ∃ mixed, merge fuel first second = Done mixed ∧
             mixed ≡ₚ first ++ second ∧
             (Sorted Z.le first → Sorted Z.le second → Sorted Z.le mixed) ∧
             (first = [] → mixed = second) ∧ (second = [] → mixed = first).
Proof.
  intros first second fuel Hmax Hfuel.
  exists (list_merge Z.le first second). split; [by apply merge_spec|].
  split; [apply merge_Permutation|]. split; [apply (Sorted_list_merge Z.le)|].
  split; intros ->; [apply list_merge_nil_l|apply list_merge_nil_r].
Qed.

(** X24 on two short slices. *)
Lemma merge_sorted_witness :
  ∃ mixed, merge 6 [1; 4; 9] [2; 3] = Done mixed ∧
           mixed ≡ₚ [1; 4; 9] ++ [2; 3] ∧
           (Sorted Z.le [1; 4; 9] → Sorted Z.le [2; 3] → Sorted Z.le mixed) ∧
           ([1; 4; 9] = [] → mixed = [2; 3]) ∧ ([2; 3] = [] → mixed = [1; 4; 9]).
Proof.
  apply (merge_sorted [1; 4; 9] [2; 3] 6).
  - vm_compute. reflexivity.
  - vm_compute. lia.
Defined.

(** X25: [quickSort(arr, low, high)] on a range within the slice returns
    without a panic, sorts the elements at [low..high] among themselves
    and leaves every other element where it was; when the range has fewer
    than two elements the slice is unchanged, whatever [low] and [high]
    are. *)
Theorem quickSort_range :
  ∀ (arr : list Z) (low high : Z) (fuel : nat),
    len arr < maxLen →
    (low < high → 0 <= low ∧ high < len arr) →
    (Z.to_nat (high - low) + 2 * length arr + 2 <= fuel)%nat →
    ∃ arr', quickSort fuel arr low high = Done arr' ∧
            len arr' = len arr ∧ arr' ≡ₚ arr ∧
            (∀ i, 0 <= i → i < low ∨ high < i → sel arr' i = sel arr i) ∧
            sorted_range arr' low high ∧
            (high <= low → arr' = arr).
Proof.
  intros arr low high fuel Hmax Hrange Hfuel.
  destruct (quickSort_spec (Z.to_nat (high - low)) fuel arr low high)
    as (arr' & Hrun & Hl & Hperm & Hout & _ & Hsorted); [done|done|lia|lia|].
  exists arr'. repeat (split; [done|]).
  intros Hle. destruct fuel as [|fuel]; [lia|]. simpl in Hrun.
  rewrite (proj2 (Z.leb_le _ _)) in Hrun by done. by injection Hrun as <-.
Qed.

(** X25 on the middle of a short slice. *)
Lemma quickSort_range_witness :
  ∃ arr', quickSort 20 [9; 5; 3; 4; 1; 0] 1 4 = Done arr' ∧
          len arr' = len [9; 5; 3; 4; 1; 0] ∧ arr' ≡ₚ [9; 5; 3; 4; 1; 0] ∧
          (∀ i, 0 <= i → i < 1 ∨ 4 < i → sel arr' i = sel [9; 5; 3; 4; 1; 0] i) ∧
          sorted_range arr' 1 4 ∧
          (4 <= 1 → arr' = [9; 5; 3; 4; 1; 0]).
Proof.
  apply (quickSort_range [9; 5; 3; 4; 1; 0] 1 4 20).
  - vm_compute. reflexivity.
  - intros _. vm_compute. split; [discriminate|reflexivity].
  - vm_compute. lia.
Defined.

(** X26: [mergeSortWithIndex(arr, s, e)] on a range [s..e-1] of at least
    one element within the slice returns without a panic, leaves in the
    range a nondecreasing permutation of what it held, and leaves the
    elements before [s] and from [e] on as they were. *)
Theorem mergeSortWithIndex_sorts_range :
  ∀ (pre body post : list Z) (fuel : nat),
    body ≠ [] → len (pre ++ body ++ post) < maxLen →
    (2 * length body + 1 <= fuel)%nat →
    ∃ body',
      mergeSortWithIndex fuel (pre ++ body ++ post) (len pre) (len pre + len body)
        = Done (pre ++ body' ++ post) ∧
      Sorted Z.le body' ∧ body' ≡ₚ body.
Proof.
  intros pre body post fuel Hne Hmax Hfuel.
  apply (mergeSortWithIndex_spec (length body)); [|done|done].
  destruct body; [done|simpl; lia].
Qed.

(** X26 on the middle of a short slice. *)
Lemma mergeSortWithIndex_sorts_range_witness :
  ∃ body',
    mergeSortWithIndex 9 ([9] ++ [5; 3; 4; 1] ++ [0]) (len [9]) (len [9] + len [5; 3; 4; 1])
      = Done ([9] ++ body' ++ [0]) ∧
    Sorted Z.le body' ∧ body' ≡ₚ [5; 3; 4; 1].
Proof.
  apply (mergeSortWithIndex_sorts_range [9] [5; 3; 4; 1] [0] 9).
  - discriminate.
  - vm_compute. reflexivity.
  - vm_compute. lia.
Defined.

(** X27: on an empty range, [mergeSortWithIndex(arr, s, s)], no number of
    calls reaches a return: [e - s] is 0, not 1, [mid] is [s], and the
    first recursive call is the same call again. *)
Theorem mergeSortWithIndex_empty_never_returns :
  ∀ (fuel : nat) (arr : list Z) (s : Z),
    - maxLen <= s < maxLen →
    mergeSortWithIndex fuel arr s s = OutOfFuel.
Proof.
  intros fuel arr s Hs. induction fuel as [|fuel IH]; [done|].
  simpl. rewrite Z.sub_diag. change (wrap64 0 =? 1) with false. cbv iota.
  rewrite wrap64_id by (unfold maxLen, MinInt, MaxInt in *; lia).
  replace (s + s) with (s * 2) by lia. rewrite Z.quot_mul by lia.
  by rewrite IH.
Qed.

(** X27 on the empty slice, as [mergeSortWithIndex(arr, 0, len(arr))]. *)
Lemma mergeSortWithIndex_empty_never_returns_witness :
  mergeSortWithIndex 1000 [] 0 0 = OutOfFuel.
Proof.
  apply (mergeSortWithIndex_empty_never_returns 1000 [] 0).
  vm_compute. split; [discriminate|reflexivity].
Defined.

End Sorting.

(** ** The worker pool (concurrency/goroutines_and_channels/main.go) *)
Module Pool.

Definition numJobs : Z := 10.
Definition numWorkers : Z := 3.

(** A buffered [chan int]: the values waiting, oldest first, and whether
    [close] has run.  Both channels are made with capacity [numJobs]. *)
Record chan : Type := mkChan { buf : list Z; closed : bool }.

Definition make_chan : chan := {| buf := []; closed := false |}.
Definition capacity : Z := numJobs.

(** Where the goroutine running [WorkerPool] stands: at the head of the
    spawning loop with loop variable [w], between [wg.Add(1)] and the [go]
    statement, at the head of the sending loop with loop variable [j],
    before the [go] of the closing goroutine, in the collecting loop, or
    past it. *)
Inductive main_pc : Type :=
| MSpawnLoop (w : Z)
| MGo (w : Z)
| MSendLoop (j : Z)
| MSpawnCloser
| MCollect
| MDone.

(** Where a worker goroutine stands: at [range jobs], holding a job it
    has yet to print, holding a printed job whose result it has yet to
    send, at its deferred [wg.Done()], or finished.  [time.Sleep] touches
    neither channel and is no step of its own. *)
Inductive worker_pc : Type :=
| WRange
| WGot (job : Z)
| WSend (job : Z)
| WDefer
| WDone.

(** The goroutine that waits and closes [results]. *)
Inductive closer_pc : Type :=
| CNone
| CWait
| CClose
| CDone.

(** The program state.  [workers] lists the worker goroutines in the order
    they were started, each with its [id] argument; [log] is what the
    workers printed (worker id, job), in the order the lines were printed,
    and [received] what the collecting loop printed. *)
Record state : Type := mkState {
  jobs : chan;
  results : chan;
  wg : Z;
  main : main_pc;
  workers : list (Z * worker_pc);
  closer : closer_pc;
  received : list Z;
  log : list (Z * Z)
}.

Definition init : state :=
  {| jobs := make_chan; results := make_chan; wg := 0; main := MSpawnLoop 1;
     workers := []; closer := CNone; received := []; log := [] |}.

(** The goroutines; [Worker i] is the [i]-th started worker. *)
Inductive thread : Type := Main | Worker (i : nat) | Closer.

(** One atomic step of a goroutine: a new state, nothing (the goroutine is
    blocked, not started or finished), or a run-time panic. *)
Inductive outcome : Type := Step (st : state) | Blocked | Crash.

(** One step of the goroutine that runs [WorkerPool]. *)
Definition WorkerPool_step (st : state) : outcome :=
  match main st with
  | MSpawnLoop w =>
      if w <=? numWorkers then
        (* wg.Add(1) *)
        Step {| jobs := jobs st; results := results st; wg := wg st + 1; main := MGo w;
                workers := workers st; closer := closer st;
                received := received st; log := log st |}
      else
        Step {| jobs := jobs st; results := results st; wg := wg st; main := MSendLoop 1;
                workers := workers st; closer := closer st;
                received := received st; log := log st |}
  | MGo w =>
      (* go func(id int) { ... }(w) *)
      Step {| jobs := jobs st; results := results st; wg := wg st;
              main := MSpawnLoop (w + 1);
              workers := workers st ++ [(w, WRange)]; closer := closer st;
              received := received st; log := log st |}
  | MSendLoop j =>
      if j <=? numJobs then
        (* jobs <- j *)
        if closed (jobs st) then Crash
        else if Z.of_nat (length (buf (jobs st))) <? capacity then
          Step {| jobs := {| buf := buf (jobs st) ++ [j]; closed := false |};
                  results := results st; wg := wg st; main := MSendLoop (j + 1);
                  workers := workers st; closer := closer st;
                  received := received st; log := log st |}
        else Blocked
      else
        (* close(jobs) *)
        if closed (jobs st) then Crash
        else
          Step {| jobs := {| buf := buf (jobs st); closed := true |};
                  results := results st; wg := wg st; main := MSpawnCloser;
                  workers := workers st; closer := closer st;
                  received := received st; log := log st |}
  | MSpawnCloser =>
      Step {| jobs := jobs st; results := results st; wg := wg st; main := MCollect;
              workers := workers st; closer := CWait;
              received := received st; log := log st |}
  | MCollect =>
      (* for result := range results { fmt.Printf("Result: %d\n", result) };
         no other goroutine writes to [received] *)
      match buf (results st) with
      | r :: rest =>
          Step {| jobs := jobs st;
                  results := {| buf := rest; closed := closed (results st) |};
                  wg := wg st; main := MCollect;
                  workers := workers st; closer := closer st;
                  received := received st ++ [r]; log := log st |}
      | [] =>
          if closed (results st) then
            Step {| jobs := jobs st; results := results st; wg := wg st; main := MDone;
                    workers := workers st; closer := closer st;
                    received := received st; log := log st |}
          else Blocked
      end
  | MDone => Blocked
  end.

(** One step of the [i]-th goroutine running [worker(id, jobs, results)]
    under its deferred [wg.Done()]. *)
Definition worker_step (i : nat) (st : state) : outcome :=
  match workers st !! i with
  | None => Blocked
  | Some (id, pc) =>
      match pc with
      | WRange =>
          (* for job := range jobs *)
          match buf (jobs st) with
          | job :: rest =>
              Step {| jobs := {| buf := rest; closed := closed (jobs st) |};
                      results := results st; wg := wg st; main := main st;
                      workers := <[i := (id, WGot job)]> (workers st);
                      closer := closer st;
                      received := received st; log := log st |}
          | [] =>
              if closed (jobs st) then
                Step {| jobs := jobs st; results := results st; wg := wg st;
                        main := main st;
                        workers := <[i := (id, WDefer)]> (workers st);
                        closer := closer st;
                        received := received st; log := log st |}
              else Blocked
          end
      | WGot job =>
          (* fmt.Printf("Worker %d processing job %d\n", id, job) *)
          Step {| jobs := jobs st; results := results st; wg := wg st; main := main st;
                  workers := <[i := (id, WSend job)]> (workers st);
                  closer := closer st;
                  received := received st; log := log st ++ [(id, job)] |}
      | WSend job =>
          (* results <- job * 2 *)
          if closed (results st) then Crash
          else if Z.of_nat (length (buf (results st))) <? capacity then
            Step {| jobs := jobs st;
                    results := {| buf := buf (results st) ++ [wrap64 (job * 2)];
                                  closed := false |};
                    wg := wg st; main := main st;
                    workers := <[i := (id, WRange)]> (workers st);
                    closer := closer st;
                    received := received st; log := log st |}
          else Blocked
      | WDefer =>
          (* wg.Done() *)
          if wg st - 1 <? 0 then Crash
          else
            Step {| jobs := jobs st; results := results st; wg := wg st - 1;
                    main := main st;
                    workers := <[i := (id, WDone)]> (workers st);
                    closer := closer st;
                    received := received st; log := log st |}
      | WDone => Blocked
      end
  end.

(** One step of the goroutine running [wg.Wait(); close(results)]. *)
Definition closer_step (st : state) : outcome :=
  match closer st with
  | CNone => Blocked
  | CWait =>
      (* wg.Wait() *)
      if wg st =? 0 then
        Step {| jobs := jobs st; results := results st; wg := wg st; main := main st;
                workers := workers st; closer := CClose;
                received := received st; log := log st |}
      else Blocked
  | CClose =>
      (* close(results) *)
      if closed (results st) then Crash
      else
        Step {| jobs := jobs st;
                results := {| buf := buf (results st); closed := true |};
                wg := wg st; main := main st;
                workers := workers st; closer := CDone;
                received := received st; log := log st |}
  | CDone => Blocked
  end.

Definition step (t : thread) (st : state) : outcome :=
  match t with
  | Main => WorkerPool_step st
  | Worker i => worker_step i st
  | Closer => closer_step st
  end.

(** The states the program can be in: any interleaving of steps. *)
Inductive reachable : state → Prop :=
| reachable_init : reachable init
| reachable_step st t st' : reachable st → step t st = Step st' → reachable st'.

(** [steps n st st']: [st'] is [n] steps after [st]. *)
Inductive steps : nat → state → state → Prop :=
| steps_O st : steps 0 st st
| steps_S n st t st' st'' : step t st = Step st' → steps n st' st'' → steps (S n) st st''.

(** A state in which no goroutine can move. *)
Definition terminal (st : state) : Prop := ∀ t st', step t st ≠ Step st'.

(** Running a schedule: each entry lets that goroutine take a step if it
    can.  The result is the number of steps taken and the state reached,
    or [None] on a panic. *)
Fixpoint run (sched : list thread) (st : state) : option (nat * state) :=
  match sched with
  | [] => Some (0%nat, st)
  | t :: sched' =>
      match step t st with
      | Step st' => (λ r, (S r.1, r.2)) <$> run sched' st'
      | Blocked => run sched' st
      | Crash => None
      end
  end.

Definition round_robin (n : nat) : list thread :=
  mjoin (replicate n [Main; Worker 0; Worker 1; Worker 2; Closer]).

Example round_robin_run :
  (λ r, (r.1, main r.2, received r.2, log r.2)) <$> run (round_robin 30) init
  = Some (68%nat, MDone,
          [2; 4; 6; 8; 10; 12; 14; 16; 18; 20],
          [(1, 1); (2, 2); (3, 3); (1, 4); (2, 5); (3, 6); (1, 7); (2, 8); (3, 9); (1, 10)]).
Proof. vm_compute. reflexivity. Qed.

(** The second worker can print before the first, which took the earlier
    job. *)
Example prints_out_of_order :
  (λ r, log r.2) <$>
    run (replicate 9 Main ++ [Worker 0; Worker 1; Worker 1; Worker 0]) init
  = Some [(2, 2); (1, 1)].
Proof. vm_compute. reflexivity. Qed.

(** *** Termination: a count of the steps still to come *)

Definition worker_cost (pc : worker_pc) : nat :=
  match pc with
  | WRange => 2
  | WGot _ => 5
  | WSend _ => 4
  | WDefer => 1
  | WDone => 0
  end.

Definition workers_cost (ws : list (Z * worker_pc)) : nat :=
  sum_list_with (λ w, worker_cost w.2) ws.

Definition closer_cost (pc : closer_pc) : nat :=
  match pc with
  | CNone => 0
  | CWait => 2
  | CClose => 1
  | CDone => 0
  end.

Definition send_cost (j : Z) : nat :=
  ((if (j <=? numJobs)%Z then 5 + 5 * Z.to_nat (numJobs - j) else 0) + 5)%nat.

Definition main_cost (pc : main_pc) : nat :=
  match pc with
  | MSpawnLoop w =>
      (if (w <=? numWorkers)%Z then 4 + 4 * Z.to_nat (numWorkers - w) else 0)
      + 1 + send_cost 1
  | MGo w => 3 + 4 * Z.to_nat (numWorkers - w) + 1 + send_cost 1
  | MSendLoop j => send_cost j
  | MSpawnCloser => 4
  | MCollect => 1
  | MDone => 0
  end%nat.

(** Every job waiting in [jobs] costs four more steps (receive, print,
    send the result, collect it), every result waiting in [results]
    one. *)
Definition measure (st : state) : nat :=
  (main_cost (main st) + 4 * length (buf (jobs st)) + length (buf (results st))
   + workers_cost (workers st) + closer_cost (closer st))%nat.

Lemma workers_cost_app ws1 ws2 :
  workers_cost (ws1 ++ ws2) = (workers_cost ws1 + workers_cost ws2)%nat.
Proof. apply sum_list_with_app. Qed.

(** Replacing the [i]-th element of a list. *)
Lemma insert_split {A} (l : list A) i x :
  l !! i = Some x →
  ∃ pre post, l = pre ++ x :: post ∧ ∀ y, <[i := y]> l = pre ++ y :: post.
Proof.
  intros Hi. exists (take i l), (drop (S i) l). split.
  - by rewrite take_drop_middle.
  - intros y. apply insert_take_drop. by eapply lookup_lt_Some.
Qed.

Lemma workers_cost_insert ws i id pc pc' :
  ws !! i = Some (id, pc) →
  (workers_cost (<[i := (id, pc')]> ws) + worker_cost pc
   = workers_cost ws + worker_cost pc')%nat.
Proof.
  intros Hi. destruct (insert_split ws i _ Hi) as (pre & post & -> & Hins).
  rewrite Hins, !workers_cost_app. unfold workers_cost. simpl. lia.
Qed.

(** Each step uses up exactly one unit. *)
Lemma step_measure t st st' :
  (main st = MSpawnCloser → closer st = CNone) →
  step t st = Step st' → measure st = S (measure st').
Proof.
  destruct st as [[jb jc] [rb rc] n pc ws cl rcv lg]. simpl. intros Hcl.
  destruct t as [|i|]; unfold step, WorkerPool_step, worker_step, closer_step, measure; simpl.
  - destruct pc; simpl; try rewrite (Hcl eq_refl);
      repeat case_match; intros [= <-]; simpl;
      unfold send_cost, numJobs, numWorkers in *;
      rewrite ?length_app, ?workers_cost_app; simpl;
      repeat case_match; try lia.
    all: unfold workers_cost; simpl; try lia.
  - destruct (ws !! i) as [[id wpc]|] eqn:Hi; [|done].
    destruct wpc; repeat case_match; intros [= <-]; simpl;
      rewrite ?length_app; simpl.
    all: match goal with
         | H : ?ws !! ?i = Some (?id, _)
           |- context [workers_cost (<[_ := (_, ?pc')]> _)] =>
             pose proof (workers_cost_insert ws i id _ pc' H)
         end; simpl in *; lia.
  - destruct cl; repeat case_match; intros [= <-]; simpl; lia.
Qed.

(** *** The invariant *)

(** [job * 2] *)
Definition dbl (job : Z) : Z := wrap64 (job * 2).

(** The jobs taken by workers and not printed yet. *)
Definition got (ws : list (Z * worker_pc)) : list Z :=
  flat_map (λ w, match w.2 with WGot job => [job] | _ => [] end) ws.

(** The jobs printed by workers whose results are not sent yet. *)
Definition held (ws : list (Z * worker_pc)) : list Z :=
  flat_map (λ w, match w.2 with WSend job => [job] | _ => [] end) ws.

(** The number of started workers that have not run [wg.Done()]. *)
Definition active (ws : list (Z * worker_pc)) : nat :=
  sum_list_with (λ w, match w.2 with WDone => 0 | _ => 1 end)%nat ws.

(** The jobs sent so far, as the position of the main goroutine tells. *)
Definition jobs_sent (pc : main_pc) : list Z :=
  match pc with
  | MSpawnLoop _ | MGo _ => []
  | MSendLoop j => seqZ 1 (j - 1)
  | MSpawnCloser | MCollect | MDone => seqZ 1 numJobs
  end.

Definition jobs_closed_at (pc : main_pc) : bool :=
  match pc with
  | MSpawnCloser | MCollect | MDone => true
  | _ => false
  end.

Definition closer_started_at (pc : main_pc) : bool :=
  match pc with
  | MCollect | MDone => true
  | _ => false
  end.

Definition exited (pc : worker_pc) : Prop := pc = WDefer ∨ pc = WDone.

Record Inv (st : state) : Prop := {
  (* every job sent waits in the channel, is held by a worker that has
     yet to print it, or was printed *)
  inv_jobs :
    list_to_set_disj (jobs_sent (main st)) =@{gmultiset Z}
      list_to_set_disj (log st).*2 ⊎ list_to_set_disj (got (workers st))
      ⊎ list_to_set_disj (buf (jobs st));
  (* every job printed is held by a worker, or its result is in the channel
     or was collected *)
  inv_results :
    list_to_set_disj (dbl <$> (log st).*2) =@{gmultiset Z}
      list_to_set_disj (received st) ⊎ list_to_set_disj (buf (results st))
      ⊎ list_to_set_disj (dbl <$> held (workers st));
  inv_log : Forall (λ e, 1 <= e.1 <= numWorkers) (log st);
  inv_wg :
    wg st = Z.of_nat (active (workers st)) + match main st with MGo _ => 1 | _ => 0 end;
  inv_main :
    match main st with
    | MSpawnLoop w => 1 <= w <= numWorkers + 1 ∧ (workers st).*1 = seqZ 1 (w - 1)
    | MGo w => 1 <= w <= numWorkers ∧ (workers st).*1 = seqZ 1 (w - 1)
    | MSendLoop j => 1 <= j <= numJobs + 1 ∧ (workers st).*1 = seqZ 1 numWorkers
    | MSpawnCloser | MCollect | MDone => (workers st).*1 = seqZ 1 numWorkers
    end;
  inv_jobs_closed : closed (jobs st) = jobs_closed_at (main st);
  inv_exited :
    Forall (λ w, exited w.2 → closed (jobs st) = true ∧ buf (jobs st) = []) (workers st);
  inv_closer : closer st = CNone ↔ closer_started_at (main st) = false;
  inv_waited :
    closer st = CClose ∨ closer st = CDone → Forall (λ w, w.2 = WDone) (workers st);
  inv_results_closed : closed (results st) = true ↔ closer st = CDone;
  inv_done : main st = MDone → closed (results st) = true ∧ buf (results st) = []
}.

#[local] Arguments got : simpl never.
#[local] Arguments held : simpl never.
#[local] Arguments active : simpl never.

Lemma got_app ws1 ws2 : got (ws1 ++ ws2) = got ws1 ++ got ws2.
Proof. apply flat_map_app. Qed.

Lemma held_app ws1 ws2 : held (ws1 ++ ws2) = held ws1 ++ held ws2.
Proof. apply flat_map_app. Qed.

Lemma active_app ws1 ws2 : active (ws1 ++ ws2) = (active ws1 + active ws2)%nat.
Proof. apply sum_list_with_app. Qed.

Lemma active_0 ws : active ws = 0%nat → Forall (λ w, w.2 = WDone) ws.
Proof.
  induction ws as [|[id pc] ws IH]; [constructor|].
  unfold active. simpl. intros H. constructor.
  - simpl. destruct pc; simpl in H; try lia. done.
  - apply IH. unfold active. lia.
Qed.

Lemma active_pos ws : (0 < active ws)%nat → ∃ i id pc, ws !! i = Some (id, pc) ∧ pc ≠ WDone.
Proof.
  induction ws as [|[id pc] ws IH]; unfold active; simpl; [lia|].
  intros H.
  destruct pc as [|job|job| |];
    [by exists 0%nat, id, WRange | by exists 0%nat, id, (WGot job)
    | by exists 0%nat, id, (WSend job) | by exists 0%nat, id, WDefer | ].
  destruct IH as (i & id' & pc' & Hi & Hpc); [exact H|].
  by exists (S i), id', pc'.
Qed.

Lemma size_list_to_set_disj (l : list Z) :
  size (list_to_set_disj l : gmultiset Z) = length l.
Proof.
  induction l as [|x l IH]; simpl.
  - done.
  - rewrite gmultiset_size_disj_union, gmultiset_size_singleton, IH. done.
Qed.

Lemma Inv_init : Inv init.
Proof.
  split; simpl; done.
Qed.

Lemma seqZ_snoc (n : Z) : 1 <= n → seqZ 1 n = seqZ 1 (n - 1) ++ [n].
Proof.
  intros Hn. replace n with ((n - 1) + 1) at 1 by lia.
  rewrite seqZ_app by lia. f_equal.
  replace (1 + (n - 1)) with n by lia. done.
Qed.

Lemma WorkerPool_step_inv st st' : Inv st → WorkerPool_step st = Step st' → Inv st'.
Proof.
  intros [Hj Hr Hlog Hwg Hmain Hjc Hex Hcl Hwt Hrc Hdn].
  destruct st as [[jb jc] [rb rc] n pc ws cl rcv lg]; simpl in *.
  unfold WorkerPool_step; simpl.
  destruct pc as [w|w|j| | |]; simpl in *.
  - (* the head of the spawning loop *)
    destruct Hmain as [Hw Hids].
    destruct (w <=? numWorkers) eqn:E; intros [= <-]; split; simpl; try done.
    + lia.
    + apply Z.leb_le in E. split; [lia|done].
    + apply Z.leb_gt in E. split; [done|].
      rewrite Hids. f_equal. lia.
  - (* go func(id int) {...}(w) *)
    destruct Hmain as [Hw Hids].
    assert (cl = CNone) as -> by by apply Hcl.
    intros [= <-]; split; simpl; try done.
    + by rewrite got_app, app_nil_r.
    + by rewrite held_app, app_nil_r.
    + rewrite active_app. unfold active at 2. simpl. lia.
    + split; [lia|]. rewrite fmap_app, Hids. simpl.
      replace (w + 1 - 1) with w by lia. by rewrite (seqZ_snoc w) by lia.
    + apply Forall_app. split; [done|]. constructor; [|constructor].
      simpl. intros [?|?]; done.
    + intros [?|?]; done.
  - (* the head of the sending loop *)
    destruct Hmain as [Hjr Hids]. subst jc.
    destruct (j <=? numJobs) eqn:E; simpl.
    + apply Z.leb_le in E. case_match; intros [= <-]; split; simpl; try done.
      * replace (j + 1 - 1) with j by lia.
        rewrite (seqZ_snoc j) by lia.
        rewrite !list_to_set_disj_app, Hj. simpl. multiset_solver.
      * split; [lia|done].
      * eapply Forall_impl; [exact Hex|]. simpl. intros ? Himp Hexit.
        by destruct (Himp Hexit).
    + apply Z.leb_gt in E. intros [= <-]; split; simpl; try done.
      * assert (j = numJobs + 1) as -> by lia. exact Hj.
      * eapply Forall_impl; [exact Hex|]. simpl. intros ? Himp Hexit.
        by destruct (Himp Hexit).
  - (* go func() { wg.Wait(); close(results) }() *)
    assert (cl = CNone) as -> by by apply Hcl.
    intros [= <-]; split; simpl; try done.
    + intros [?|?]; done.
    + rewrite Hrc. done.
  - (* the collecting loop *)
    destruct rb as [|r rb]; [destruct rc eqn:Erc; [|done]|];
      intros [= <-]; split; simpl; try done.
    rewrite Hr, list_to_set_disj_app, !list_to_set_disj_cons. multiset_solver.
  - done.
Qed.

Lemma worker_id_range st i id pc :
  Inv st → workers st !! i = Some (id, pc) → 1 <= id <= numWorkers.
Proof.
  intros HI Hi.
  assert (∃ k, k <= numWorkers ∧ (workers st).*1 = seqZ 1 k) as (k & Hk & Hids).
  { pose proof (inv_main st HI) as Hmain. unfold numWorkers in *.
    destruct (main st); try (by exists 3); destruct Hmain; eexists; (split; [|done]); lia. }
  assert (id ∈ (workers st).*1) as Hin.
  { apply list_elem_of_fmap. exists (id, pc). split; [done|]. by eapply list_elem_of_lookup_2. }
  rewrite Hids in Hin. apply elem_of_seqZ in Hin. lia.
Qed.

Lemma active_mid pre id pc post :
  active (pre ++ (id, pc) :: post)
  = (active pre + match pc with WDone => 0 | _ => 1 end + active post)%nat.
Proof. rewrite active_app. unfold active. simpl. lia. Qed.

Lemma got_mid pre id pc post :
  got (pre ++ (id, pc) :: post)
  = got pre ++ match pc with WGot job => [job] | _ => [] end ++ got post.
Proof. rewrite got_app. done. Qed.

Lemma held_mid pre id pc post :
  held (pre ++ (id, pc) :: post)
  = held pre ++ match pc with WSend job => [job] | _ => [] end ++ held post.
Proof. rewrite held_app. done. Qed.

Lemma all_done_mid pre id pc post :
  Forall (λ w : Z * worker_pc, w.2 = WDone) (pre ++ (id, pc) :: post) → pc = WDone.
Proof. intros H. apply Forall_app in H as [_ H]. by apply Forall_cons in H as [H _]. Qed.

Lemma ids_mid pre (id : Z) (pc pc' : worker_pc) post :
  (pre ++ (id, pc') :: post).*1 = (pre ++ (id, pc) :: post).*1.
Proof. by rewrite !fmap_app. Qed.

Lemma worker_step_inv i st st' : Inv st → worker_step i st = Step st' → Inv st'.
Proof.
  intros HI. unfold worker_step.
  destruct (workers st !! i) as [[id pc]|] eqn:Hi; [|done].
  pose proof (worker_id_range st i id pc HI Hi) as Hid.
  destruct HI as [Hj Hr Hlog Hwg Hmain Hjc Hex Hcl Hwt Hrc Hdn].
  destruct st as [[jb jc] [rb rc] n mpc ws cl rcv lg]; simpl in *.
  destruct (insert_split ws i _ Hi) as (pre & post & -> & Hins).
  clear Hi.
  pose proof (λ pc', ids_mid pre id pc pc' post) as Hids.
  destruct pc as [|job|job| |].
  - (* for job := range jobs *)
    destruct jb as [|job rest]; [destruct jc eqn:Ejc; [|done]|];
      intros [= <-]; split; simpl; rewrite ?Hins; try done.
    + by rewrite got_mid in Hj |- *.
    + by rewrite held_mid in Hr |- *.
    + by rewrite active_mid in Hwg |- *.
    + by rewrite Hids.
    + apply Forall_app in Hex as [Hpre Hpost]. apply Forall_cons in Hpost as [_ Hpost].
      apply Forall_app. split; [done|]. constructor; [done|done].
    + intros Hc. by pose proof (all_done_mid _ _ _ _ (Hwt Hc)).
    + rewrite got_mid in Hj |- *. simpl in Hj |- *.
      rewrite ?list_to_set_disj_app in Hj.
      rewrite ?list_to_set_disj_app. rewrite Hj.
      rewrite ?list_to_set_disj_cons, ?list_to_set_disj_nil. multiset_solver.
    + by rewrite held_mid in Hr |- *.
    + by rewrite active_mid in Hwg |- *.
    + by rewrite Hids.
    + apply Forall_app in Hex as [Hpre Hpost]. apply Forall_cons in Hpost as [_ Hpost].
      apply Forall_app. split; [|constructor].
      * eapply Forall_impl; [exact Hpre|]. simpl. intros ? Himp Hexit.
        by destruct (Himp Hexit).
      * simpl. intros [?|?]; done.
      * eapply Forall_impl; [exact Hpost|]. simpl. intros ? Himp Hexit.
        by destruct (Himp Hexit).
    + intros Hc. by pose proof (all_done_mid _ _ _ _ (Hwt Hc)).
  - (* fmt.Printf("Worker %d processing job %d\n", id, job) *)
    intros [= <-]; split; simpl; rewrite ?Hins; try done.
    + rewrite got_mid in Hj |- *. simpl in Hj |- *.
      rewrite ?list_to_set_disj_app in Hj.
      rewrite ?fmap_app, ?list_to_set_disj_app. simpl. rewrite Hj.
      rewrite ?list_to_set_disj_cons, ?list_to_set_disj_nil. multiset_solver.
    + rewrite held_mid in Hr |- *. simpl in Hr |- *.
      rewrite ?fmap_app, ?list_to_set_disj_app in Hr.
      rewrite ?fmap_app, ?fmap_cons, ?list_to_set_disj_app. simpl. rewrite Hr.
      rewrite ?list_to_set_disj_cons, ?list_to_set_disj_nil. multiset_solver.
    + apply Forall_app. split; [done|]. by constructor.
    + by rewrite active_mid in Hwg |- *.
    + by rewrite Hids.
    + apply Forall_app in Hex as [Hpre Hpost]. apply Forall_cons in Hpost as [_ Hpost].
      apply Forall_app. split; [done|]. constructor; [|done].
      simpl. intros [?|?]; done.
    + intros Hc. by pose proof (all_done_mid _ _ _ _ (Hwt Hc)).
  - (* results <- job * 2 *)
    destruct rc eqn:Erc; [done|].
    destruct (Z.of_nat (length rb) <? capacity) eqn:Ecap; [|done].
    intros [= <-]; split; simpl; rewrite ?Hins; try done.
    + by rewrite got_mid in Hj |- *.
    + rewrite held_mid in Hr |- *. simpl in Hr |- *.
      rewrite ?fmap_app, ?fmap_cons, ?list_to_set_disj_app in Hr. simpl in Hr.
      rewrite ?fmap_app, ?list_to_set_disj_app. simpl. rewrite Hr.
      rewrite ?list_to_set_disj_cons, ?list_to_set_disj_nil. fold (dbl job).
      multiset_solver.
    + by rewrite active_mid in Hwg |- *.
    + by rewrite Hids.
    + apply Forall_app in Hex as [Hpre Hpost]. apply Forall_cons in Hpost as [_ Hpost].
      apply Forall_app. split; [done|]. constructor; [|done].
      simpl. intros [?|?]; done.
    + intros Hc. by pose proof (all_done_mid _ _ _ _ (Hwt Hc)).
    + intros Hm. by destruct (Hdn Hm).
  - (* wg.Done() *)
    destruct (n - 1 <? 0) eqn:Ewg; [done|].
    intros [= <-]; split; simpl; rewrite ?Hins; try done.
    + by rewrite got_mid in Hj |- *.
    + by rewrite held_mid in Hr |- *.
    + rewrite active_mid in Hwg |- *. lia.
    + by rewrite Hids.
    + apply Forall_app in Hex as [Hpre Hpost]. apply Forall_cons in Hpost as [Hme Hpost].
      apply Forall_app. split; [done|]. constructor; [|done].
      simpl in *. intros _. apply Hme. by left.
    + intros Hc. by pose proof (all_done_mid _ _ _ _ (Hwt Hc)).
  - done.
Qed.

Lemma closer_step_inv st st' : Inv st → closer_step st = Step st' → Inv st'.
Proof.
  intros [Hj Hr Hlog Hwg Hmain Hjc Hex Hcl Hwt Hrc Hdn].
  destruct st as [[jb jc] [rb rc] n mpc ws cl rcv lg]; simpl in *.
  unfold closer_step; simpl.
  assert (cl ≠ CNone → closer_started_at mpc = true) as Hstarted.
  { intros Hne. destruct (closer_started_at mpc); [done|]. by destruct Hne, Hcl as [_ ->]. }
  destruct cl; [done| | |done].
  - (* wg.Wait() *)
    destruct (n =? 0) eqn:E; [|done]. apply Z.eqb_eq in E.
    specialize (Hstarted ltac:(discriminate)).
    intros [= <-]; split; simpl; try done.
    + by rewrite Hstarted.
    + intros _. apply active_0. destruct mpc; simpl in *; try done; lia.
    + split; [intros Hrc'|done]. by apply Hrc in Hrc'.
  - (* close(results) *)
    destruct rc eqn:Erc; [by destruct Hrc as [Hrc _]; specialize (Hrc eq_refl)|].
    specialize (Hstarted ltac:(discriminate)).
    intros [= <-]; split; simpl; try done.
    + by rewrite Hstarted.
    + intros _. apply Hwt. by left.
    + intros Hm. by destruct (Hdn Hm).
Qed.

Lemma step_inv t st st' : Inv st → step t st = Step st' → Inv st'.
Proof.
  destruct t; simpl; eauto using WorkerPool_step_inv, worker_step_inv, closer_step_inv.
Qed.

Lemma reachable_Inv st : reachable st → Inv st.
Proof. induction 1; eauto using Inv_init, step_inv. Qed.

(** No send on a closed channel, no second [close], no negative
    [WaitGroup] counter. *)
Lemma step_no_crash t st : Inv st → step t st ≠ Crash.
Proof.
  intros HI.
  destruct t as [|i|]; simpl.
  - destruct HI as [Hj Hr Hlog Hwg Hmain Hjc Hex Hcl Hwt Hrc Hdn].
    destruct st as [[jb jc] [rb rc] n pc ws cl rcv lg]; simpl in *.
    unfold WorkerPool_step; simpl. destruct pc; simpl in *; subst; repeat case_match; done.
  - unfold worker_step.
    destruct (workers st !! i) as [[id pc]|] eqn:Hi; [|done].
    destruct HI as [Hj Hr Hlog Hwg Hmain Hjc Hex Hcl Hwt Hrc Hdn].
    destruct (insert_split _ i _ Hi) as (pre & post & Hws & _).
    destruct pc as [|job|job| |]; [|done| | |done].
    + destruct (buf (jobs st)); [destruct (closed (jobs st))|]; done.
    + destruct (closed (results st)) eqn:Erc;
        [|by destruct (Z.of_nat (length (buf (results st))) <? capacity)].
      rewrite Hws in Hwt.
      assert (closer st = CDone) as Hc by by apply Hrc.
      by pose proof (all_done_mid _ _ _ _ (Hwt (or_intror Hc))).
    + rewrite Hws, active_mid in Hwg.
      destruct (wg st - 1 <? 0) eqn:E; [|done]. apply Z.ltb_lt in E.
      destruct (main st); lia.
  - destruct HI as [Hj Hr Hlog Hwg Hmain Hjc Hex Hcl Hwt Hrc Hdn].
    unfold closer_step. destruct (closer st) eqn:Ec; try done;
      [by destruct (wg st =? 0)|].
    destruct (closed (results st)) eqn:Erc; [|done].
    by destruct Hrc as [Hrc _]; specialize (Hrc eq_refl).
Qed.

(** Until the collecting loop has ended, some goroutine can move. *)
Lemma progress st : Inv st → main st ≠ MDone → ∃ t st', step t st = Step st'.
Proof.
  intros HI Hnd.
  pose proof HI as [Hj Hr Hlog Hwg Hmain Hjc Hex Hcl Hwt Hrc Hdn].
  destruct (main st) as [w|w|j| | |] eqn:Em; [..|done].
  - exists Main. simpl. unfold WorkerPool_step. rewrite Em. case_match; eauto.
  - exists Main. simpl. unfold WorkerPool_step. rewrite Em. eauto.
  - exists Main. simpl. unfold WorkerPool_step. rewrite Em, Hjc. simpl.
    destruct (j <=? numJobs) eqn:E; [|eauto]. apply Z.leb_le in E.
    simpl in Hj. apply (f_equal size) in Hj.
    rewrite !gmultiset_size_disj_union, !size_list_to_set_disj, length_seqZ in Hj.
    rewrite (proj2 (Z.ltb_lt _ _)) by (unfold capacity, numJobs in *; lia). eauto.
  - exists Main. simpl. unfold WorkerPool_step. rewrite Em. eauto.
  - destruct (buf (results st)) as [|r rb] eqn:Erb; cycle 1.
    { exists Main. simpl. unfold WorkerPool_step. rewrite Em, Erb. eauto. }
    destruct (closed (results st)) eqn:Erc.
    { exists Main. simpl. unfold WorkerPool_step. rewrite Em, Erb, Erc. eauto. }
    destruct (closer st) eqn:Ec.
    + by destruct Hcl as [Hcl _]; specialize (Hcl eq_refl).
    + destruct (wg st =? 0) eqn:Ewg.
      { exists Closer. simpl. unfold closer_step. rewrite Ec, Ewg. eauto. }
      apply Z.eqb_neq in Ewg.
      destruct (active_pos (workers st)) as (i & id & pc & Hi & Hpc); [lia|].
      exists (Worker i). simpl. unfold worker_step. rewrite Hi.
      destruct pc as [|job|job| |]; [| | | |done].
      * rewrite Hjc. simpl. destruct (buf (jobs st)); eauto.
      * eauto.
      * rewrite Erc, Erb. simpl. eauto.
      * rewrite (proj2 (Z.ltb_ge _ _)); [eauto|].
        destruct (insert_split _ i _ Hi) as (pre & post & Hws & _).
        rewrite Hws, active_mid in Hwg. lia.
    + exists Closer. simpl. unfold closer_step. rewrite Ec, Erc. eauto.
    + by destruct Hrc as [_ Hrc]; specialize (Hrc eq_refl).
Qed.

Lemma got_all_done ws : Forall (λ w : Z * worker_pc, w.2 = WDone) ws → got ws = [].
Proof.
  induction 1 as [|[id pc] ws Hpc _ IH]; [done|].
  simpl in Hpc. subst pc. unfold got in *. simpl. done.
Qed.

Lemma held_all_done ws : Forall (λ w : Z * worker_pc, w.2 = WDone) ws → held ws = [].
Proof.
  induction 1 as [|[id pc] ws Hpc _ IH]; [done|].
  simpl in Hpc. subst pc. unfold held in *. simpl. done.
Qed.

Lemma elements_list_to_set_disj (l : list Z) :
  elements (list_to_set_disj l : gmultiset Z) ≡ₚ l.
Proof.
  induction l as [|x l IH]; simpl.
  - by rewrite gmultiset_elements_empty.
  - by rewrite gmultiset_elements_disj_union, gmultiset_elements_singleton, IH.
Qed.

Lemma list_to_set_disj_Permutation (l k : list Z) :
  list_to_set_disj l =@{gmultiset Z} list_to_set_disj k → l ≡ₚ k.
Proof.
  intros H. rewrite <- (elements_list_to_set_disj l), <- (elements_list_to_set_disj k).
  by rewrite H.
Qed.

(** What holds once the collecting loop has ended. *)
Lemma done_state st :
  Inv st → main st = MDone →
  terminal st ∧
  buf (jobs st) = [] ∧ closed (jobs st) = true ∧
  buf (results st) = [] ∧ closed (results st) = true ∧
  (log st).*2 ≡ₚ seqZ 1 numJobs ∧
  received st ≡ₚ dbl <$> seqZ 1 numJobs.
Proof.
  intros HI Hm.
  pose proof HI as [Hj Hr Hlog Hwg Hmain Hjc Hex Hcl Hwt Hrc Hdn].
  destruct (Hdn Hm) as [Hrcl Hrb].
  assert (closer st = CDone) as Hc by by apply Hrc.
  pose proof (Hwt (or_intror Hc)) as Hall.
  rewrite Hm in Hj, Hjc, Hmain.
  change (jobs_sent MDone) with (seqZ 1 numJobs) in Hj.
  change (jobs_closed_at MDone) with true in Hjc.
  assert (buf (jobs st) = []) as Hjb.
  { destruct (workers st) as [|[id pc] ws]; [done|].
    apply Forall_cons in Hall as [Hpc _]. apply Forall_cons in Hex as [Hex _].
    simpl in Hpc, Hex. apply Hex. by right. }
  assert ((log st).*2 ≡ₚ seqZ 1 numJobs) as Hperm.
  { apply list_to_set_disj_Permutation.
    rewrite Hj, Hjb, (got_all_done _ Hall). simpl. multiset_solver. }
  split; [|repeat split; try done].
  - intros t st' Hstep. destruct t as [|i|]; simpl in Hstep.
    + unfold WorkerPool_step in Hstep. by rewrite Hm in Hstep.
    + unfold worker_step in Hstep.
      destruct (workers st !! i) as [[id pc]|] eqn:Hi; [|done].
      assert (pc = WDone) as ->; [|done].
      by apply (Forall_lookup_1 _ _ _ _ Hall Hi).
    + unfold closer_step in Hstep. by rewrite Hc in Hstep.
  - rewrite <- Hperm. apply list_to_set_disj_Permutation.
    rewrite Hr, (held_all_done _ Hall), Hrb. simpl. multiset_solver.
Qed.

(** Any schedule runs without a panic, inside the invariant, and each step
    it takes uses up one unit of [measure]. *)
Lemma run_spec sched : ∀ st,
  Inv st →
  ∃ k st', run sched st = Some (k, st') ∧ Inv st' ∧ (k + measure st' = measure st)%nat.
Proof.
  induction sched as [|t sched IH]; intros st HI; simpl.
  - exists 0%nat, st. done.
  - destruct (step t st) as [st1| |] eqn:Hstep.
    + destruct (IH st1 (step_inv _ _ _ HI Hstep)) as (k & st' & -> & HI' & Hk).
      exists (S k), st'. split; [done|]. split; [done|].
      rewrite (step_measure t st st1); [lia| |done].
      intros Hm. apply (inv_closer st HI). by rewrite Hm.
    + apply IH. done.
    + by destruct (step_no_crash t st HI).
Qed.

Lemma measure_init : measure init = 68%nat.
Proof. reflexivity. Qed.

(** No execution is longer than the measure of its first state: from
    [init], none has more than 68 steps. *)
Lemma steps_measure n st st' :
  Inv st → steps n st st' → Inv st' ∧ measure st = (n + measure st')%nat.
Proof.
  intros HI Hsteps. induction Hsteps as [st|n st t st1 st2 Hstep _ IH]; [done|].
  destruct (IH (step_inv _ _ _ HI Hstep)) as [HI2 Hm]. split; [done|].
  rewrite (step_measure t st st1); [lia| |done].
  intros Hmain. apply (inv_closer st HI). by rewrite Hmain.
Qed.

Lemma steps_from_init n st : steps n init st → (n <= 68)%nat ∧ reachable st.
Proof.
  intros Hsteps. split.
  - destruct (steps_measure n init st Inv_init Hsteps) as [_ Hm].
    rewrite measure_init in Hm. lia.
  - assert (∀ st0, reachable st0 → steps n st0 st → reachable st) as Hgen; [|eauto using reachable].
    clear Hsteps. intros st0 Hr Hsteps. induction Hsteps; eauto using reachable.
Qed.

Lemma closed_results_workers st :
  Inv st → closed (results st) = true →
  Forall (λ w : Z * worker_pc, w.2 = WDone) (workers st) ∧ (workers st).*1 = [1; 2; 3].
Proof.
  intros [Hj Hr Hlog Hwg Hmain Hjc Hex Hcl Hwt Hrc Hdn] Hclosed.
  assert (closer st = CDone) as Hc by by apply Hrc.
  split; [apply Hwt; by right|].
  destruct (main st); simpl in Hcl; try done;
    by destruct Hcl as [_ Hcl]; rewrite Hcl in Hc.
Qed.

(** *** Every schedule can be run to the end *)

Lemma run_app s1 s2 st :
  run (s1 ++ s2) st =
    '(k1, st1) ← run s1 st; (λ r, ((k1 + r.1)%nat, r.2)) <$> run s2 st1.
Proof.
  revert st. induction s1 as [|t s1 IH]; intros st; simpl.
  - by destruct (run s2 st) as [[k2 st2]|].
  - destruct (step t st) as [st1| |]; [|by apply IH|done].
    rewrite IH. destruct (run s1 st1) as [[k1 st1']|]; simpl; [|done].
    by destruct (run s2 st1') as [[k2 st2]|].
Qed.

(** A goroutine that can move will move when it comes to its turn, unless
    another one has moved before. *)
Lemma run_takes_step ts : ∀ st t st1,
  Inv st → t ∈ ts → step t st = Step st1 →
  ∃ k st', run ts st = Some (S k, st') ∧ Inv st' ∧ (S k + measure st' = measure st)%nat.
Proof.
  induction ts as [|h ts IH]; intros st t st1 HI Hin Hstep.
  - by apply elem_of_nil in Hin.
  - simpl. destruct (step h st) as [sth| |] eqn:Hh.
    + destruct (run_spec ts sth (step_inv _ _ _ HI Hh)) as (k & st' & -> & HI' & Hk).
      exists k, st'. split; [done|]. split; [done|].
      rewrite (step_measure h st sth); [lia| |done].
      intros Hm. apply (inv_closer st HI). by rewrite Hm.
    + apply elem_of_cons in Hin as [->|Hin]; [congruence|].
      by apply (IH st t st1).
    + by destruct (step_no_crash h st HI).
Qed.

(** The goroutines that can move are among the five of a round. *)
Lemma enabled_in_round st t st1 :
  Inv st → step t st = Step st1 → t ∈ [Main; Worker 0; Worker 1; Worker 2; Closer].
Proof.
  intros HI Hstep. destruct t as [|i|]; [set_solver| |set_solver].
  simpl in Hstep. unfold worker_step in Hstep.
  destruct (workers st !! i) as [[id pc]|] eqn:Hi; [|done].
  assert (i < 3)%nat as Hlt.
  { apply lookup_lt_Some in Hi.
    assert (∃ k, k <= numWorkers ∧ (workers st).*1 = seqZ 1 k) as (k & Hk & Hids).
    { pose proof (inv_main st HI) as Hmain. unfold numWorkers in *.
      destruct (main st); try (by exists 3); destruct Hmain; eexists; (split; [|done]); lia. }
    apply (f_equal length) in Hids. rewrite length_fmap, length_seqZ in Hids.
    unfold numWorkers in *. lia. }
  destruct i as [|[|[|i]]]; [set_solver..|lia].
Qed.

Lemma measure_0_done st : Inv st → measure st = 0%nat → main st = MDone.
Proof.
  intros HI H0.
  assert (main st = MDone ∨ main st ≠ MDone) as [|Hnd]
    by (destruct (main st); (by left) || (by right)); [done|].
  destruct (progress st HI Hnd) as (t & st' & Hstep).
  rewrite (step_measure t st st') in H0; [lia| |done].
  intros Hm. apply (inv_closer st HI). by rewrite Hm.
Qed.

Lemma done_measure_0 st : Inv st → main st = MDone → measure st = 0%nat.
Proof.
  intros HI Hm.
  destruct (done_state st HI Hm) as (_ & Hjb & _ & Hrb & Hrc & _).
  destruct (closed_results_workers st HI Hrc) as [Hall _].
  pose proof (proj1 (inv_results_closed st HI) Hrc) as Hc.
  unfold measure. rewrite Hm, Hjb, Hrb, Hc. simpl.
  clear -Hall. induction Hall as [|[id pc] ws Hpc _ IH]; [done|].
  simpl in Hpc. subst pc. unfold workers_cost in *. simpl. lia.
Qed.

(** Rounds in which every goroutine has a turn bring any reachable state
    to the end of the collecting loop, in as many steps as its measure. *)
Lemma round_robin_completes : ∀ n st,
  Inv st → (measure st <= n)%nat →
  ∃ st', run (round_robin n) st = Some (measure st, st') ∧ Inv st' ∧ main st' = MDone.
Proof.
  induction n as [|n IH]; intros st HI Hn.
  - exists st. split; [|split; [done|]].
    + simpl. f_equal. f_equal. lia.
    + apply measure_0_done; [done|lia].
  - change (round_robin (S n))
      with ([Main; Worker 0; Worker 1; Worker 2; Closer] ++ round_robin n).
    rewrite run_app.
    assert (∃ k1 st1, run [Main; Worker 0; Worker 1; Worker 2; Closer] st = Some (k1, st1)
                      ∧ Inv st1 ∧ (k1 + measure st1 = measure st)%nat
                      ∧ (measure st1 <= n)%nat) as (k1 & st1 & -> & HI1 & Hk1 & Hn1).
    { assert (main st = MDone ∨ main st ≠ MDone) as [Hd|Hnd]
        by (destruct (main st); (by left) || (by right)).
      - destruct (run_spec [Main; Worker 0; Worker 1; Worker 2; Closer] st HI)
          as (k1 & st1 & Hrun & HI1 & Hk1).
        exists k1, st1. pose proof (done_measure_0 st HI Hd).
        split; [done|]. split; [done|]. split; [done|]. lia.
      - destruct (progress st HI Hnd) as (t & stt & Hstep).
        destruct (run_takes_step _ st t stt HI (enabled_in_round st t stt HI Hstep) Hstep)
          as (k & st1 & Hrun & HI1 & Hk1).
        exists (S k), st1. split; [done|]. split; [done|]. split; [done|]. lia. }
    simpl. destruct (IH st1 HI1 Hn1) as (st' & -> & HI' & Hd). simpl.
    exists st'. split; [|done]. do 2 f_equal. lia.
Qed.

(** C5: under every interleaving of the goroutines of [WorkerPool] no step
    panics, and however far a schedule has run, letting every goroutine
    have its turn in rounds brings the program, after 68 steps in all, to
    the end of the collecting loop; no execution is longer.  There [jobs]
    is closed and drained, the lines printed by the workers name each of
    the jobs 1..10 exactly once, each next to a worker id in 1..3, the
    values received from [results] are, as a multiset, the doubles
    2, 4, ..., 20, all three workers have finished and [results] is closed
    and empty.
    Along the way, as long as the collecting loop has not ended some
    goroutine can move, so the program can only come to rest with that
    loop ended, and [results] is only closed once all three workers have
    finished. *)
Theorem worker_pool_drains :
  ∀ sched : list thread,
    ∃ (k : nat) (st : state),
      run sched init = Some (k, st) ∧
      (k + measure st = 68)%nat ∧
      (∀ t, step t st ≠ Crash) ∧
      (main st ≠ MDone → ∃ t st', step t st = Step st') ∧
      (terminal st → main st = MDone) ∧
      (∀ n st', steps n st st' → (k + n <= 68)%nat) ∧
      (closed (results st) = true →
         Forall (λ w, w.2 = WDone) (workers st) ∧ (workers st).*1 = [1; 2; 3]) ∧
      (main st = MDone →
         k = 68%nat ∧ terminal st ∧
         buf (jobs st) = [] ∧ closed (jobs st) = true ∧
         (log st).*2 ≡ₚ [1; 2; 3; 4; 5; 6; 7; 8; 9; 10] ∧
         Forall (λ e, 1 <= e.1 <= 3) (log st) ∧
         received st ≡ₚ [2; 4; 6; 8; 10; 12; 14; 16; 18; 20] ∧
         buf (results st) = [] ∧ closed (results st) = true) ∧
      (∀ n, (measure st <= n)%nat →
         ∃ st', run (sched ++ round_robin n) init = Some (68%nat, st') ∧
           main st' = MDone ∧ terminal st' ∧
           buf (jobs st') = [] ∧ closed (jobs st') = true ∧
           (log st').*2 ≡ₚ [1; 2; 3; 4; 5; 6; 7; 8; 9; 10] ∧
           Forall (λ e, 1 <= e.1 <= 3) (log st') ∧
           received st' ≡ₚ [2; 4; 6; 8; 10; 12; 14; 16; 18; 20] ∧
           buf (results st') = [] ∧ closed (results st') = true ∧
           Forall (λ w, w.2 = WDone) (workers st') ∧ (workers st').*1 = [1; 2; 3]).
Proof.
  intros sched.
  destruct (run_spec sched init Inv_init) as (k & st & Hrun & HI & Hk).
  exists k, st. rewrite measure_init in Hk.
  split; [done|]. split; [done|].
  split; [intros t; by apply step_no_crash|].
  split; [by apply progress|].
  split.
  { intros Hterm. destruct (main st) eqn:Em; try done;
      (destruct (progress st HI) as (t & st' & Hstep);
       [by rewrite Em | by destruct (Hterm t st')]). }
  split.
  { intros n st' Hsteps. destruct (steps_measure n st st' HI Hsteps) as [_ Hm]. lia. }
  split; [by apply closed_results_workers|].
  split.
  - intros Hm.
    destruct (done_state st HI Hm) as (Hterm & Hjb & Hjc & Hrb & Hrc & Hlog & Hrecv).
    pose proof (done_measure_0 st HI Hm) as Hzero.
    split; [lia|]. split; [done|]. split; [done|]. split; [done|].
    split; [exact Hlog|]. split; [exact (inv_log st HI)|].
    split; [exact Hrecv|]. done.
  - intros n Hn.
    destruct (round_robin_completes n st HI Hn) as (st' & Hrr & HI' & Hm).
    exists st'. rewrite run_app, Hrun. simpl. rewrite Hrr. simpl.
    split; [do 2 f_equal; lia|]. split; [done|].
    destruct (done_state st' HI' Hm) as (Hterm & Hjb & Hjc & Hrb & Hrc & Hlog & Hrecv).
    destruct (closed_results_workers st' HI' Hrc) as [Hall Hids].
    split; [done|]. split; [done|]. split; [done|].
    split; [exact Hlog|]. split; [exact (inv_log st' HI')|].
    split; [exact Hrecv|]. done.
Qed.

End Pool.

(** ** Closing a channel (the goroutines demo, [ClosingChannels])

    The producer goroutine and the receiving loop of [ClosingChannels],
    from [make] to [break], as a transition system in the style of the
    worker pool. *)
Module Closing.

Definition items : Z := 5.
Definition capacity : Z := 5.

(** The lines the two goroutines print. *)
Inductive event : Type :=
| Sent (i : Z)          (* "Sent: %d" *)
| Closing               (* "Producer: closing channel" *)
| Received (val : Z)    (* "Received: %d" *)
| Exiting               (* "Channel closed, exiting" *).

(** Where the producer stands: not started, at the head of its loop with
    loop variable [i], between the send of [i] and its [Printf], before
    [close(ch)], or finished. *)
Inductive producer_pc : Type :=
| PNone
| PLoop (i : Z)
| PSent (i : Z)
| PClose
| PDone.

(** Where the goroutine running [ClosingChannels] stands: before the [go]
    statement, at the receive, between a receive with [ok] true and its
    [Printf], between a receive with [ok] false and its [Println], or past
    the loop. *)
Inductive main_pc : Type :=
| MGo
| MRecv
| MGot (val : Z)
| MExit
| MDone.

Record state : Type := mkState {
  ch : Pool.chan;
  producer : producer_pc;
  main : main_pc;
  out : list event
}.

Definition init : state :=
  {| ch := Pool.make_chan; producer := PNone; main := MGo; out := [] |}.

Inductive thread : Type := Main | Producer.

Inductive outcome : Type := Step (st : state) | Blocked | Crash.

Definition producer_step (st : state) : outcome :=
  match producer st with
  | PNone => Blocked
  | PLoop i =>
      if i <? items then
        (* ch <- i *)
        if Pool.closed (ch st) then Crash
        else if Z.of_nat (length (Pool.buf (ch st))) <? capacity then
          Step {| ch := {| Pool.buf := Pool.buf (ch st) ++ [i]; Pool.closed := false |};
                  producer := PSent i; main := main st; out := out st |}
        else Blocked
      else
        (* fmt.Println("Producer: closing channel") *)
        Step {| ch := ch st; producer := PClose; main := main st;
                out := out st ++ [Closing] |}
  | PSent i =>
      (* fmt.Printf("Sent: %d\n", i); i++ *)
      Step {| ch := ch st; producer := PLoop (wrap64 (i + 1)); main := main st;
              out := out st ++ [Sent i] |}
  | PClose =>
      (* close(ch) *)
      if Pool.closed (ch st) then Crash
      else Step {| ch := {| Pool.buf := Pool.buf (ch st); Pool.closed := true |};
                   producer := PDone; main := main st; out := out st |}
  | PDone => Blocked
  end.

Definition ClosingChannels_step (st : state) : outcome :=
  match main st with
  | MGo =>
      (* go func() { ... }() *)
      Step {| ch := ch st; producer := PLoop 0; main := MRecv; out := out st |}
  | MRecv =>
      (* val, ok := <-ch *)
      match Pool.buf (ch st) with
      | val :: rest =>
          Step {| ch := {| Pool.buf := rest; Pool.closed := Pool.closed (ch st) |};
                  producer := producer st; main := MGot val; out := out st |}
      | [] =>
          if Pool.closed (ch st) then
            Step {| ch := ch st; producer := producer st; main := MExit; out := out st |}
          else Blocked
      end
  | MGot val =>
      (* fmt.Printf("Received: %d\n", val) *)
      Step {| ch := ch st; producer := producer st; main := MRecv;
              out := out st ++ [Received val] |}
  | MExit =>
      (* fmt.Println("Channel closed, exiting"); break *)
      Step {| ch := ch st; producer := producer st; main := MDone;
              out := out st ++ [Exiting] |}
  | MDone => Blocked
  end.

Definition step (t : thread) (st : state) : outcome :=
  match t with
  | Main => ClosingChannels_step st
  | Producer => producer_step st
  end.

(** Running a schedule: each entry lets that goroutine take a step if it
    can.  The result is the number of steps taken and the state reached,
    or [None] on a panic. *)
Fixpoint run (sched : list thread) (st : state) : option (nat * state) :=
  match sched with
  | [] => Some (0%nat, st)
  | t :: sched' =>
      match step t st with
      | Step st' => (λ r, (S r.1, r.2)) <$> run sched' st'
      | Blocked => run sched' st
      | Crash => None
      end
  end.

Definition terminal (st : state) : Prop := ∀ t st', step t st ≠ Step st'.

(** The values of the [Received] lines and of the [Sent] lines, in the
    order printed. *)
Definition received_of (out : list event) : list Z :=
  omap (λ e, match e with Received v => Some v | _ => None end) out.

Definition sent_of (out : list event) : list Z :=
  omap (λ e, match e with Sent i => Some i | _ => None end) out.

Example producer_first :
  (λ r, (r.1, main r.2, out r.2)) <$>
    run (Main :: replicate 12 Producer ++ replicate 12 Main) init
  = Some (25%nat, MDone,
          [Sent 0; Sent 1; Sent 2; Sent 3; Sent 4; Closing;
           Received 0; Received 1; Received 2; Received 3; Received 4; Exiting]).
Proof. vm_compute. reflexivity. Qed.

Example alternating :
  (λ r, (r.1, main r.2, out r.2)) <$>
    run (Main :: mjoin (replicate 13 [Producer; Main])) init
  = Some (25%nat, MDone,
          [Sent 0; Received 0; Sent 1; Received 1; Sent 2; Received 2; Sent 3;
           Received 3; Sent 4; Received 4; Closing; Exiting]).
Proof. vm_compute. reflexivity. Qed.

(** *** Termination: a count of the steps still to come *)

(** The sends done and the [Sent] lines printed, by the producer's
    position. *)
Definition sends (pc : producer_pc) : Z :=
  match pc with
  | PNone => 0
  | PLoop i => i
  | PSent i => i + 1
  | PClose | PDone => items
  end.

Definition printed (pc : producer_pc) : Z :=
  match pc with
  | PNone => 0
  | PLoop i | PSent i => i
  | PClose | PDone => items
  end.

Definition producer_cost (pc : producer_pc) : nat :=
  match pc with
  | PNone => 12
  | PLoop i => Z.to_nat (2 * (items - i) + 2)
  | PSent i => Z.to_nat (2 * (items - i) + 1)
  | PClose => 1
  | PDone => 0
  end.

(** The values main has yet to receive. *)
Definition to_receive (st : state) : nat :=
  Z.to_nat (items - sends (producer st)) + length (Pool.buf (ch st)).

Definition main_cost (st : state) : nat :=
  match main st with
  | MGo => 2 * to_receive st + 3
  | MRecv => 2 * to_receive st + 2
  | MGot _ => 2 * to_receive st + 3
  | MExit => 1
  | MDone => 0
  end.

Definition measure (st : state) : nat := producer_cost (producer st) + main_cost st.

(** The value received and not yet printed. *)
Definition pending (pc : main_pc) : list Z :=
  match pc with MGot val => [val] | _ => [] end.

Record Inv (st : state) : Prop := mkInv {
  inv_range : match producer st with
              | PLoop i => 0 <= i <= items
              | PSent i => 0 <= i < items
              | _ => True
              end;
  inv_closed : Pool.closed (ch st) = true ↔ producer st = PDone;
  inv_started : producer st = PNone ↔ main st = MGo;
  inv_data : received_of (out st) ++ pending (main st) ++ Pool.buf (ch st)
             = seqZ 0 (sends (producer st));
  inv_sent : sent_of (out st) = seqZ 0 (printed (producer st));
  inv_closing : (producer st = PClose ∨ producer st = PDone) → Closing ∈ out st;
  inv_exit : (main st = MExit ∨ main st = MDone) →
             Pool.closed (ch st) = true ∧ Pool.buf (ch st) = [];
  inv_done : main st = MDone → ∃ pre, out st = pre ++ [Exiting] ∧ Closing ∈ pre
}.

















End Closing.
